(** * Tomography experiments on the quEDU (tom.py): model and verification

    A shallow embedding of the measurement synchronisation code and of the
    state reconstruction of [tom.py].

    Numbers.  Python floats are read in two ways.  In the exact reading
    they are rationals ([Q], compared with [==]): it shows which formulas
    and which control flow the code implements, and is used where rounding
    plays no part.  In the binary64 reading (module [Binary64]) every
    operation rounds to the nearest binary64 number, with infinities and
    NaN: it is used where a statement depends on the value of a float (the
    conversion of angles, the normalisation of the frequencies, the cells of
    the data file).  Python and C integers are [Z].  A complex number is a
    pair of rationals, a numpy array a list of rows.  A string is a
    sequence of characters with codes below 256. *)

From Stdlib Require Import ZArith QArith Qround Qabs Qminmax Qpower List String Ascii Bool.
From Stdlib Require Import DecimalString.
From Stdlib Require Import Lia Lqa.
Import ListNotations.

Local Open Scope string_scope.
Local Open Scope list_scope.
Local Open Scope Q_scope.

(** ** Python's builtin [round] on a float: round half to even *)

Definition py_round (x : Q) : Z :=
  let f := Qfloor x in
  match Qcompare (x - inject_Z f) (1 # 2) with
  | Lt => f
  | Gt => (f + 1)%Z
  | Eq => if Z.even f then f else (f + 1)%Z
  end.

(** ** Globals of tom.py *)

Definition STEPS_PER_REV : Q := 4800.
Definition DEG_TO_STEP : Q := STEPS_PER_REV / 360.

(** [BaseQubit._angle_to_steps], in the exact reading. *)
Definition _angle_to_steps (angle : Q) : Z := py_round (angle * DEG_TO_STEP).

(** ** Exceptions, warnings and the effect monad

    A computation threads the list of warnings emitted so far
    ([warnings.warn]) and either returns a value or raises. *)

Inductive exn : Type :=
| RuntimeError (msg : string)
| ValueError (msg : string)
| KeyError (key : string)
| IndexError
| ZeroDivisionError
| OverflowError.

Inductive result (A : Type) : Type :=
| Ok (a : A)
| Raise (e : exn).
Arguments Ok {A} a.
Arguments Raise {A} e.

Definition M (A : Type) : Type := list string -> result A * list string.

Definition ret {A} (a : A) : M A := fun w => (Ok a, w).
Definition raise {A} (e : exn) : M A := fun w => (Raise e, w).
Definition warn (msg : string) : M unit := fun w => (Ok tt, w ++ [msg]).
Definition bind {A B} (m : M A) (k : A -> M B) : M B :=
  fun w => match m w with
           | (Ok a, w') => k a w'
           | (Raise e, w') => (Raise e, w')
           end.
Definition lift {A} (r : result A) : M A := fun w => (r, w).

Declare Scope py_scope.
Delimit Scope py_scope with py.
Notation "x <- m ;; k" := (bind m (fun x => k))
  (at level 61, m at next level, right associativity) : py_scope.
Notation "m ;;; k" := (bind m (fun _ => k))
  (at level 61, right associativity) : py_scope.

(** [for x in xs: body x] *)
Fixpoint for_each {A} (xs : list A) (body : A -> M unit) : M unit :=
  match xs with
  | [] => ret tt
  | x :: xs' => bind (body x) (fun _ => for_each xs' body)
  end.

(** The value a computation returns, if it returns, and what it raises. *)
Definition returns {A} (m : M A) : option A :=
  match fst (m []) with Ok a => Some a | Raise _ => None end.
Definition raised {A} (m : M A) : option exn :=
  match fst (m []) with Ok _ => None | Raise e => Some e end.
Definition warned {A} (m : M A) : list string := snd (m []).

(** ** Strings: [str.strip], [str.lower], [repr] of a list of names *)

(** [str.isspace] on the codes below 256: 9 to 13, 28 to 32, 133 and 160. *)
Definition is_space (c : ascii) : bool :=
  let n := nat_of_ascii c in
  ((9 <=? n) && (n <=? 13) || (28 <=? n) && (n <=? 32)
   || (n =? 133) || (n =? 160))%nat.

Fixpoint lstrip (s : string) : string :=
  match s with
  | EmptyString => EmptyString
  | String c s' => if is_space c then lstrip s' else s
  end.

Fixpoint rev_append_string (s acc : string) : string :=
  match s with
  | EmptyString => acc
  | String c s' => rev_append_string s' (String c acc)
  end.
Definition rev_string (s : string) : string := rev_append_string s EmptyString.

Definition strip (s : string) : string :=
  rev_string (lstrip (rev_string (lstrip s))).

Definition lower_ascii (c : ascii) : ascii :=
  let n := nat_of_ascii c in
  if ((65 <=? n) && (n <=? 90))%nat then ascii_of_nat (n + 32) else c.

Fixpoint lower (s : string) : string :=
  match s with
  | EmptyString => EmptyString
  | String c s' => String (lower_ascii c) (lower s')
  end.

Definition repr_list (names : list string) : string :=
  ("[" ++ String.concat ", " (map (fun n => "'" ++ n ++ "'") names) ++ "]")%string.

(** ** Dictionaries with string keys, in insertion order *)

Definition dict (V : Type) : Type := list (string * V).

Fixpoint dict_set {V} (d : dict V) (k : string) (v : V) : dict V :=
  match d with
  | [] => [(k, v)]
  | (k', v') :: d' =>
      if String.eqb k' k then (k, v) :: d' else (k', v') :: dict_set d' k v
  end.

Fixpoint dict_find {V} (d : dict V) (k : string) : option V :=
  match d with
  | [] => None
  | (k', v') :: d' => if String.eqb k' k then Some v' else dict_find d' k
  end.

(** [d.get(k, default)] *)
Definition dict_get {V} (d : dict V) (k : string) (default : V) : V :=
  match dict_find d k with Some v => v | None => default end.

(** [d[k]] *)
Definition dict_index {V} (d : dict V) (k : string) : M V :=
  match dict_find d k with Some v => ret v | None => raise (KeyError k) end.

(** [k in names] for a list of strings *)
Definition str_in (k : string) (names : list string) : bool :=
  existsb (String.eqb k) names.

(** ** Complex numbers and numpy arrays *)

Record C : Type := mkC { re : Q; im : Q }.

Definition RtoC (x : Q) : C := mkC x 0.
Coercion RtoC : Q >-> C.

(** The literal [1j] *)
Definition Cj : C := mkC 0 1.

Definition Cadd (z w : C) : C := mkC (re z + re w) (im z + im w).
Definition Csub (z w : C) : C := mkC (re z - re w) (im z - im w).
Definition Cmul (z w : C) : C :=
  mkC (re z * re w - im z * im w) (re z * im w + im z * re w).
Definition Cconj (z : C) : C := mkC (re z) (- im z).

(** The square of [abs z]; the absolute value itself needs a square root,
    which the rationals lack. *)
Definition Cabs2 (z : C) : Q := re z * re z + im z * im z.

Definition Ceq (z w : C) : Prop := re z == re w /\ im z == im w.

Declare Scope C_scope.
Delimit Scope C_scope with C.
Bind Scope C_scope with C.
Infix "+" := Cadd : C_scope.
Infix "-" := Csub : C_scope.
Infix "*" := Cmul : C_scope.
Infix "==" := Ceq : C_scope.

Definition matrix : Type := list (list C).

Definition entry (m : matrix) (i j : nat) : C :=
  nth j (nth i m []) (RtoC 0).

Definition zip_with {A B D} (f : A -> B -> D) (xs : list A) (ys : list B) : list D :=
  map (fun p => f (fst p) (snd p)) (combine xs ys).

(** [c * m] for a scalar [c] *)
Definition mscale (c : C) (m : matrix) : matrix := map (map (Cmul c)) m.
(** [a + b] and [a - b], entry by entry *)
Definition madd (a b : matrix) : matrix := zip_with (zip_with Cadd) a b.
Definition msub (a b : matrix) : matrix := zip_with (zip_with Csub) a b.

Definition ncols (m : matrix) : nat := List.length (hd [] m).

(** [m.conj().T] *)
Definition conjT (m : matrix) : matrix :=
  map (fun j => map (fun row => Cconj (nth j row (RtoC 0))) m) (seq 0 (ncols m)).

Definition Csum (zs : list C) : C := fold_left Cadd zs (RtoC 0).

(** [a @ b] *)
Definition matmul (a b : matrix) : matrix :=
  map (fun row =>
         map (fun j => Csum (zip_with Cmul row (map (fun brow => nth j brow (RtoC 0)) b)))
             (seq 0 (ncols b)))
      a.

(** [np.trace m] *)
Definition trace (m : matrix) : C :=
  Csum (map (fun i => entry m i i) (seq 0 (List.length m))).

(** The square of [np.max(np.abs(m))]: the largest squared modulus of an
    entry.  [np.abs] is monotone in the squared modulus, so the defect the
    code reports is the square root of this number and is zero exactly when
    this number is zero. *)
Definition max_abs2 (m : matrix) : Q :=
  match List.concat m with
  | [] => 0
  | z :: zs => fold_left (fun acc w => Qmax acc (Cabs2 w)) zs (Cabs2 z)
  end.

Definition Meq (a b : matrix) : Prop := Forall2 (Forall2 Ceq) a b.

(** What [calc_results] returns: the dictionary with keys [rho],
    [hermiticity], [trace] and [purity].  [hermiticity2] is the square of
    the reported hermiticity defect. *)
Record results : Type := mkResults {
  rho : matrix;
  hermiticity2 : Q;
  res_trace : C;
  purity : Q
}.

(** The last lines of both [calc_results]. *)
Definition diagnostics (rho : matrix) : results :=
  let herm_rho := conjT rho in
  {| rho := rho;
     hermiticity2 := max_abs2 (msub rho herm_rho);
     res_trace := trace rho;
     purity := re (trace (matmul rho rho)) |}.

(** ** The collector and the channel latch

    The three attributes [_current_ch1], [_current_ch2] and [_current_coinc]
    are the latch: the data callback writes them, the acquisition loop of
    [measure_position] reads them and resets them to [None].

    A stored count carries a ghost [tag], the number of the callback that
    delivered it, so that two deliveries of the same count value remain
    distinguishable.  The code never looks at the tag. *)

Record sample : Type := mkSample { tag : nat; value : Z }.

(** [{"ch1": [], "ch2": [], "coinc": []}]; an entry is what the slot held
    when it was appended, [None] included. *)
Record measurement : Type := mkMeasurement {
  ch1 : list (option sample);
  ch2 : list (option sample);
  coinc : list (option sample)
}.

Definition _empty_measurement_dict : measurement := mkMeasurement [] [] [].

Record collector : Type := mkCollector {
  _current_ch1 : option sample;
  _current_ch2 : option sample;
  _current_coinc : option sample;
  data : string -> measurement      (* the defaultdict [self.data] *)
}.

(** The collector after [__init__]. *)
Definition new_collector : collector :=
  mkCollector None None None (fun _ => _empty_measurement_dict).

(** Channel numbers of [quEDU_Logic.__init__]. *)
Definition data_coinc : Z := 8.
Definition data_channel1 : Z := 9.
Definition data_channel2 : Z := 10.

(** [quEDU_Logic.data_callback], with the collector assigned; [data0] is
    [data[0]] and [t] the ghost tag of this delivery. *)
Definition data_callback (t : nat) (channel count index data0 : Z) (c : collector)
  : collector :=
  if (count <? 1)%Z then c
  else if (channel =? data_channel1)%Z then
    mkCollector (Some (mkSample t data0)) (_current_ch2 c) (_current_coinc c) (data c)
  else if (channel =? data_channel2)%Z then
    mkCollector (_current_ch1 c) (Some (mkSample t data0)) (_current_coinc c) (data c)
  else if (channel =? data_coinc)%Z then
    mkCollector (_current_ch1 c) (_current_ch2 c) (Some (mkSample t data0)) (data c)
  else c.

(** [self.data[pos_name][...].append(v)] *)
Definition append_ch1 (pos_name : string) (v : option sample) (d : string -> measurement)
  : string -> measurement :=
  fun p => if String.eqb p pos_name
           then mkMeasurement (ch1 (d p) ++ [v]) (ch2 (d p)) (coinc (d p))
           else d p.
Definition append_ch2 (pos_name : string) (v : option sample) (d : string -> measurement)
  : string -> measurement :=
  fun p => if String.eqb p pos_name
           then mkMeasurement (ch1 (d p)) (ch2 (d p) ++ [v]) (coinc (d p))
           else d p.
Definition append_coinc (pos_name : string) (v : option sample) (d : string -> measurement)
  : string -> measurement :=
  fun p => if String.eqb p pos_name
           then mkMeasurement (ch1 (d p)) (ch2 (d p)) (coinc (d p) ++ [v])
           else d p.

Definition is_None {A} (o : option A) : bool :=
  match o with None => true | Some _ => false end.

(** What happens to a collector: the hardware delivers a count, or the
    acquisition loop of [measure_position pos_name] is scheduled.  When it is
    scheduled while its [while] condition holds it only sleeps; otherwise it
    runs the rest of one repetition of the [for] loop. *)
Inductive event : Type :=
| Callback (channel count index data0 : Z)
| Repetition (pos_name : string).

(** An interleaving, run from its [n]-th event on; [repetition] is the
    acquisition step of the class in use. *)
Fixpoint run_from (repetition : string -> collector -> collector)
    (n : nat) (trace : list event) (c : collector) : collector :=
  match trace with
  | [] => c
  | Callback channel count index data0 :: rest =>
      run_from repetition (S n) rest (data_callback n channel count index data0 c)
  | Repetition pos_name :: rest =>
      run_from repetition (S n) rest (repetition pos_name c)
  end.

Definition run_trace (repetition : string -> collector -> collector)
    (trace : list event) : collector :=
  run_from repetition 0 trace new_collector.

(** The slots and the series, by channel. *)
Inductive chan : Type := Ch1 | Ch2 | Coinc.

Definition slot (c : collector) (k : chan) : option sample :=
  match k with
  | Ch1 => _current_ch1 c
  | Ch2 => _current_ch2 c
  | Coinc => _current_coinc c
  end.

Definition series (m : measurement) (k : chan) : list (option sample) :=
  match k with
  | Ch1 => ch1 m
  | Ch2 => ch2 m
  | Coinc => coinc m
  end.

(** ** Motors *)

(** [str] of an integer. *)
Definition str_Z (z : Z) : string := NilZero.string_of_int (Z.to_int z).

(** [pos[i]] as a one-letter string. *)
Definition letter (pos : string) (i : nat) : result string :=
  match String.get i pos with
  | Some c => Ok (String c EmptyString)
  | None => Raise IndexError
  end.

(** [d[k]] outside the warning monad. *)
Definition dict_item {V} (d : dict V) (k : string) : result V :=
  match dict_find d k with Some v => Ok v | None => Raise (KeyError k) end.

Definition MOTOR_MAP : dict Z :=
  [("QWP1", 2%Z); ("Pol1", 3%Z); ("QWP2", 1%Z); ("Pol2", 4%Z)].

Record projection : Type := mkProjection { qwp : Q; pol : Q }.

(** [BaseQubit.projections], keyed by the letter. *)
Definition projections : dict projection :=
  [("H", mkProjection 90 0);
   ("V", mkProjection 90 90);
   ("P", mkProjection 135 45);
   ("M", mkProjection 135 135);
   ("R", mkProjection 135 90);
   ("L", mkProjection 135 0)].

(** [{MOTOR_MAP[c]: self._angle_to_steps(a) for c, a in angles.items()}];
    the motor numbers of [MOTOR_MAP] are distinct, so no entry overwrites
    another. *)
Fixpoint targets_of (angles : dict Q) : result (list (Z * Z)) :=
  match angles with
  | [] => Ok []
  | (c, a) :: rest =>
      match dict_item MOTOR_MAP c with
      | Raise e => Raise e
      | Ok motor_idx =>
          match targets_of rest with
          | Raise e => Raise e
          | Ok t => Ok ((motor_idx, _angle_to_steps a) :: t)
          end
      end
  end.

(** The driver object [hw] as the code uses it: which method names it has
    ([hasattr]) and what the position getters answer.  [get_motor idx k] is
    the answer of [get_motor{idx}_current_position()] when it is the [k]-th
    getter call made so far, [None] when that call raises. *)
Record hardware : Type := mkHardware {
  has_set_motor : Z -> bool;              (* set_motor{idx}_target_position *)
  has_set_motor_target_position : bool;
  has_get_motor : Z -> bool;              (* get_motor{idx}_current_position *)
  get_motor : Z -> nat -> option Z
}.

Inductive command : Type :=
| SetMotor (motor_idx steps : Z)              (* set_motor{idx}_target_position(steps) *)
| SetMotorTargetPosition (index steps : Z).   (* set_motor_target_position(index, steps) *)

(** The outside world of [_move_motors_to_targets]: how often the clock and
    the getters have been read, what was sent to the driver, what was
    printed (motor, final steps, degrees) and which warnings were emitted. *)
Record world : Type := mkWorld {
  time_calls : nat;
  reads : nat;
  commands : list command;
  printed : list (Z * Z * Q);
  warnings : list string
}.

Definition new_world : world := mkWorld 0 0 [] [] [].

Section MoveMotors.
Variable hw : hardware.
(** [clock n] is what the [n]-th call of [time.time()] returns. *)
Variable clock : nat -> Q.

Definition time_time (w : world) : Q * world :=
  (clock (time_calls w),
   mkWorld (S (time_calls w)) (reads w) (commands w) (printed w) (warnings w)).

(** One call of a position getter. *)
Definition read_position (motor_idx : Z) (w : world) : option Z * world :=
  (get_motor hw motor_idx (reads w),
   mkWorld (time_calls w) (S (reads w)) (commands w) (printed w) (warnings w)).

Definition send (cmd : command) (w : world) : world :=
  mkWorld (time_calls w) (reads w) (commands w ++ [cmd]) (printed w) (warnings w).

Definition print_final (motor_idx final : Z) (w : world) : world :=
  mkWorld (time_calls w) (reads w) (commands w)
          (printed w ++ [(motor_idx, final, inject_Z final / DEG_TO_STEP)])
          (warnings w).

Definition warnings_warn (msg : string) (w : world) : world :=
  mkWorld (time_calls w) (reads w) (commands w) (printed w) (warnings w ++ [msg]).

(** Step 1: send all targets. *)
Fixpoint send_targets (motor_targets : list (Z * Z)) (w : world) : result unit * world :=
  match motor_targets with
  | [] => (Ok tt, w)
  | (motor_idx, steps) :: rest =>
      if has_set_motor hw motor_idx then
        send_targets rest (send (SetMotor motor_idx steps) w)
      else if has_set_motor_target_position hw then
        send_targets rest (send (SetMotorTargetPosition (motor_idx - 1) steps) w)
      else (Raise (RuntimeError ("Cannot set motor " ++ str_Z motor_idx)%string), w)
  end.

(** [done] is kept as the list of the motors whose flag is [True]. *)
Definition is_done (done : list Z) (motor_idx : Z) : bool :=
  existsb (Z.eqb motor_idx) done.

(** [all(done.values())] *)
Definition all_done (motor_targets : list (Z * Z)) (done : list Z) : bool :=
  forallb (fun mt => is_done done (fst mt)) motor_targets.

(** The [for] loop inside the [while] loop: one poll of every motor that is
    not done yet. *)
Fixpoint poll (motor_targets : list (Z * Z)) (done : list Z) (w : world)
  : list Z * world :=
  match motor_targets with
  | [] => (done, w)
  | (motor_idx, target) :: rest =>
      if is_done done motor_idx then poll rest done w
      else if has_get_motor hw motor_idx then
        match read_position motor_idx w with
        | (Some pos, w') =>
            if (Z.abs (pos - target) <=? 1)%Z
            then poll rest (motor_idx :: done) w'
            else poll rest done w'
        | (None, w') => poll rest done w'        (* except: pass *)
        end
      else poll rest done w
  end.

(** Step 2: the [while] loop; [None] when the fuel runs out.  The
    [time.sleep(0.05)] at the end of the body changes nothing but the
    clock, see [sleeps]. *)
Fixpoint wait_loop (fuel : nat) (motor_targets : list (Z * Z)) (timeout start : Q)
    (done : list Z) (w : world) : option (list Z * world) :=
  match fuel with
  | O => None
  | S fuel' =>
      if all_done motor_targets done then Some (done, w)
      else
        let '(now, w1) := time_time w in
        if Qlt_le_dec (now - start) timeout then
          let '(done', w2) := poll motor_targets done w1 in
          wait_loop fuel' motor_targets timeout start done' w2
        else Some (done, w1)
  end.

(** Step 3: report final positions. *)
Fixpoint report (motor_targets : list (Z * Z)) (w : world) : world :=
  match motor_targets with
  | [] => w
  | (motor_idx, _) :: rest =>
      if has_get_motor hw motor_idx then
        match read_position motor_idx w with
        | (Some final, w') => report rest (print_final motor_idx final w')
        | (None, w') => report rest w'           (* except: pass *)
        end
      else report rest w
  end.

(** [BaseQubit._move_motors_to_targets], with the timeout resolved. *)
Definition _move_motors_to_targets (fuel : nat) (motor_targets : list (Z * Z))
    (timeout : Q) (w : world) : option (result unit * world) :=
  match send_targets motor_targets w with
  | (Raise e, w1) => Some (Raise e, w1)
  | (Ok _, w1) =>
      let '(start, w2) := time_time w1 in
      match wait_loop fuel motor_targets timeout start [] w2 with
      | None => None
      | Some (done, w3) =>
          let w4 := report motor_targets w3 in
          if negb (all_done motor_targets done)
          then Some (Ok tt, warnings_warn "Some motors timed out" w4)
          else Some (Ok tt, w4)
      end
  end.

(** What the clock does from its [n0]-th reading on, the one that sets
    [start]: it does not run backwards up to the first test of the [while]
    condition, and between two tests of the condition lies the
    [time.sleep(0.05)] of the loop body. *)
Definition sleeps (n0 : nat) : Prop :=
  clock n0 <= clock (S n0) /\
  forall n, (n0 < n)%nat -> clock n + (5 # 100) <= clock (S n).

(** The driver has a setter and a getter for every motor of the
    assignment, and its getters answer. *)
Definition drives (motor_targets : list (Z * Z)) : Prop :=
  forall motor_idx target, In (motor_idx, target) motor_targets ->
    (has_set_motor hw motor_idx = true \/ has_set_motor_target_position hw = true) /\
    has_get_motor hw motor_idx = true /\
    forall k, get_motor hw motor_idx k <> None.

(** The motor never reports a position within one unit of its target. *)
Definition never_settles (motor_idx target : Z) : Prop :=
  forall k pos, get_motor hw motor_idx k = Some pos -> (1 < Z.abs (pos - target))%Z.
End MoveMotors.

(** ** The data file read back by [calc_results]

    [pd.read_csv] yields rows; [calc_results] reads the column [Position]
    (through [str]) and one column of averages.  A cell of an average column
    is a number, or text when pandas could not read the column as numbers.
    This is the exact reading; cells that pandas reads as NaN are part of
    the binary64 reading, [Binary64.cell]. *)

Inductive cell : Type :=
| CNum (q : Q)
| CStr (s : string).

Record row : Type := mkRow {
  Position : string;      (* str(row["Position"]) *)
  Avg_ch1 : cell;
  Avg_coinc : cell
}.

Definition dataframe : Type := list row.

(** True division of Python floats. *)
Definition py_div (a b : Q) : M Q :=
  if Qeq_bool b 0 then raise ZeroDivisionError else ret (a / b).

Section ReadAverages.
(** Python's [float] applied to a string: [None] when it raises. *)
Variable py_float : string -> option Q.

Definition float_of (val : cell) : option Q :=
  match val with
  | CNum q => Some q
  | CStr s => py_float s
  end.

(** The loop over [df.iterrows()] that fills [pos_to_coinc], shared by
    both [calc_results]; [column] is [Avg_coinc] or [Avg_ch1]. *)
Definition pos_to_coinc (positions : list string) (column : row -> cell)
    (df : dataframe) : dict Q :=
  fold_left
    (fun d r =>
       let pos := strip (Position r) in
       if str_in pos positions then
         match float_of (column r) with
         | Some x => dict_set d pos x
         | None => dict_set d pos 0
         end
       else d)
    df [].
End ReadAverages.

(** ** Two-qubit tomography *)

Record stokes2 : Type := mkStokes2 {
  T00 : Q; TZZ : Q; TXX : Q; TYY : Q;
  TZ0 : Q; T0Z : Q; TX0 : Q; T0X : Q; TY0 : Q; T0Y : Q;
  TXZ : Q; TZX : Q; TXY : Q; TYX : Q; TZY : Q; TYZ : Q
}.

Module DoubleQubit.

Definition positions : list string :=
  ["HH"; "HV"; "VH"; "VV"; "PP"; "PM"; "MP"; "MM";
   "RR"; "RL"; "LR"; "LL"; "HP"; "HM"; "VP"; "VM";
   "HR"; "HL"; "VL"; "VR"; "PH"; "MH"; "PV"; "MV";
   "RH"; "LH"; "LV"; "RV"; "PR"; "PL"; "MR"; "ML";
   "RP"; "LP"; "RM"; "LM"]%string.

Definition required_components : list string := ["QWP1"; "Pol1"; "QWP2"; "Pol2"].

(** The dictionaries [angles] and [targets] of [set_components]. *)
Definition angles (pos : string) : result (dict Q) :=
  match letter pos 0 with Raise e => Raise e | Ok q1 =>
  match letter pos 1 with Raise e => Raise e | Ok q2 =>
  match dict_item projections q1 with Raise e => Raise e | Ok p1 =>
  match dict_item projections q2 with Raise e => Raise e | Ok p2 =>
    Ok [("QWP1", qwp p1); ("Pol1", pol p1); ("QWP2", qwp p2); ("Pol2", pol p2)]
  end end end end.

Definition targets (pos : string) : result (list (Z * Z)) :=
  match angles pos with Raise e => Raise e | Ok a => targets_of a end.

Definition set_components (hw : hardware) (clock : nat -> Q) (fuel : nat)
    (wait_time : Q) (pos : string) (w : world) : option (result unit * world) :=
  match targets pos with
  | Raise e => Some (Raise e, w)
  | Ok tg => _move_motors_to_targets hw clock fuel tg wait_time w
  end.

(** [measure_position], one scheduling of the body of
    [for _ in range(self.n_samples)]. *)
Definition repetition (pos_name : string) (c : collector) : collector :=
  if is_None (_current_ch1 c) || is_None (_current_ch2 c) || is_None (_current_coinc c)
  then c                                            (* time.sleep(0.01) *)
  else
    let d1 := append_ch1 pos_name (_current_ch1 c) (data c) in
    let d2 := append_ch2 pos_name (_current_ch2 c) d1 in
    let d3 := append_coinc pos_name (_current_coinc c) d2 in
    mkCollector None None None d3.

Definition groups : dict (list string) :=
  [("HV", ["HH"; "HV"; "VH"; "VV"]);
   ("PM", ["PP"; "PM"; "MP"; "MM"]);
   ("RL", ["RR"; "RL"; "LR"; "LL"]);
   ("HP", ["HP"; "HM"; "VP"; "VM"]);
   ("HR", ["HR"; "HL"; "VR"; "VL"]);
   ("PH", ["PH"; "MH"; "PV"; "MV"]);
   ("RH", ["RH"; "LH"; "LV"; "RV"]);
   ("PR", ["PR"; "PL"; "MR"; "ML"]);
   ("RP", ["RP"; "LP"; "RM"; "LM"])]%string.

(** [sum(C(o) for o in outcomes)] *)
Definition den_of (C : string -> Q) (outcomes : list string) : Q :=
  fold_left Qplus (map C outcomes) 0.

(** The loop [for _, outcomes in groups.items()] that fills [freq]. *)
Fixpoint freq_loop (C : string -> Q) (gs : dict (list string)) (freq : dict Q)
  : M (dict Q) :=
  match gs with
  | [] => ret freq
  | (_, outcomes) :: gs' =>
      (for_each outcomes
         (fun o => if Qeq_bool (C o) 0
                   then warn "No coincidence for position {o}"
                   else ret tt) ;;;
       let den := den_of C outcomes in
       if Qeq_bool den 0 then
         raise (ValueError ("No total coincidence count for basis "
                            ++ repr_list outcomes ++ ".")%string)
       else
         freq_loop C gs'
           (fold_left (fun fr o => dict_set fr (lower o) (C o / den)) outcomes freq))%py
  end.

(** The keys [freq[...]] is indexed with, in the order of their first use;
    a missing key raises [KeyError] at its first use. *)
Definition keys_used : list string :=
  ["hh"; "hv"; "vh"; "vv"; "pp"; "pm"; "mp"; "mm";
   "rr"; "rl"; "lr"; "ll"; "hp"; "hm"; "vp"; "vm";
   "hr"; "hl"; "vr"; "vl"; "ph"; "mh"; "pv"; "mv";
   "rh"; "lh"; "rv"; "lv"; "pr"; "pl"; "mr"; "ml";
   "rp"; "lp"; "rm"; "lm"]%string.

(** The sixteen parameters, as written in [calc_results]; [freq k] is
    [freq[k]]. *)
Definition stokes (freq : string -> Q) : stokes2 :=
  {| T00 := 1;
     TZZ := freq "hh" - freq "hv" - freq "vh" + freq "vv";
     TXX := freq "pp" - freq "pm" - freq "mp" + freq "mm";
     TYY := freq "rr" - freq "rl" - freq "lr" + freq "ll";
     TZ0 := (1 / 3) *
            ((freq "hp" + freq "hm" - freq "vp" - freq "vm") +
             (freq "hr" + freq "hl" - freq "vr" - freq "vl") +
             (freq "hh" + freq "hv" - freq "vh" - freq "vv"));
     T0Z := (1 / 3) *
            ((freq "ph" + freq "mh" - freq "pv" - freq "mv") +
             (freq "rh" + freq "lh" - freq "rv" - freq "lv") +
             (freq "hh" + freq "hv" - freq "vh" - freq "vv"));
     TX0 := (1 / 3) *
            ((freq "pp" + freq "pm" - freq "mp" - freq "mm") +
             (freq "pr" + freq "pl" - freq "mr" - freq "ml") +
             (freq "ph" + freq "pv" - freq "mh" - freq "mv"));
     T0X := (1 / 3) *
            ((freq "pp" + freq "pm" - freq "mp" - freq "mm") +
             (freq "rp" + freq "lp" - freq "rm" - freq "lm") +
             (freq "hp" + freq "vp" - freq "hm" - freq "vm"));
     TY0 := (1 / 3) *
            ((freq "rp" + freq "rm" - freq "lp" - freq "lm") +
             (freq "rr" + freq "rl" - freq "lr" - freq "ll") +
             (freq "rh" + freq "rv" - freq "lh" - freq "lv"));
     T0Y := (1 / 3) *
            ((freq "pr" + freq "mr" - freq "pl" - freq "ml") +
             (freq "rr" + freq "lr" - freq "rl" - freq "ll") +
             (freq "hr" + freq "vr" - freq "hl" - freq "vl"));
     TXZ := freq "hp" - freq "hm" - freq "vp" + freq "vm";
     TZX := freq "ph" - freq "mh" - freq "pv" + freq "mv";
     TXY := freq "hr" - freq "hl" - freq "vr" + freq "vl";
     TYX := freq "rh" - freq "lh" - freq "rv" + freq "lv";
     TZY := freq "rh" - freq "lh" - freq "lv" + freq "rv";
     TYZ := freq "hr" - freq "hl" - freq "vl" + freq "vr" |}.

(** [rho = (1.0/4.0) * np.array([...], dtype=complex)], row by row as in
    the source. *)
Definition assemble_rho (T : stokes2) : matrix :=
  let '(mkStokes2 T00 TZZ TXX TYY TZ0 T0Z TX0 T0X TY0 T0Y
                  TXZ TZX TXY TYX TZY TYZ) := T in
  mscale (1 / 4)
    [ [T00 + T0Z + TZ0 + TZZ;        T0X - Cj*T0Y - TZX - Cj*TZY;
       TX0 + TXZ - Cj*TY0 - Cj*TYZ;  TXX - Cj*TXY - Cj*TYX - TYY];
      [T0X + Cj*T0Y + TZX + Cj*TZY;  T00 - T0Z + TZ0 - TZZ;
       TXX + Cj*TXY - Cj*TYX + TYY;  TX0 - TXZ - Cj*TY0 + Cj*TYZ];
      [TX0 + TXZ + Cj*TY0 + Cj*TYZ;  TXX - Cj*TXY + Cj*TYX + TYY;
       T00 + T0Z - TZ0 - TZZ;        T0X - Cj*T0Y - TZX + Cj*TZY];
      [TXX + Cj*TXY + Cj*TYX - TYY;  TX0 - TXZ + Cj*TY0 - Cj*TYX;
       T0X + Cj*T0Y - TZX - Cj*TZY;  T00 - T0Z - TZ0 + TZZ] ]%C.

Section CalcResults.
Variable py_float : string -> option Q.

(** [C = lambda name: pos_to_coinc.get(name, 0.0)] *)
Definition C_of (df : dataframe) (name : string) : Q :=
  dict_get (pos_to_coinc py_float positions Avg_coinc df) name 0.

(** The frequencies, with the warnings and the error of the loop. *)
Definition frequencies (df : dataframe) : M (dict Q) :=
  freq_loop (C_of df) groups [].

Definition calc_results (df : dataframe) : M results :=
  (freq <- frequencies df ;;
   for_each keys_used (fun k => _ <- dict_index freq k ;; ret tt) ;;;
   let T := stokes (fun k => dict_get freq k 0) in
   ret (diagnostics (assemble_rho T)))%py.
End CalcResults.

End DoubleQubit.

(** ** Single-qubit tomography *)

Module SingleQubit.

Definition positions : list string := ["H"; "V"; "P"; "M"; "R"; "L"].

Definition required_components : list string := ["QWP1"; "Pol1"].

(** The dictionaries [angles] and [targets] of [set_components]. *)
Definition angles (pos : string) : result (dict Q) :=
  match letter pos 0 with Raise e => Raise e | Ok q1 =>
  match dict_item projections q1 with Raise e => Raise e | Ok p1 =>
    Ok [("QWP1", qwp p1); ("Pol1", pol p1)]
  end end.

Definition targets (pos : string) : result (list (Z * Z)) :=
  match angles pos with Raise e => Raise e | Ok a => targets_of a end.

Definition set_components (hw : hardware) (clock : nat -> Q) (fuel : nat)
    (wait_time : Q) (pos : string) (w : world) : option (result unit * world) :=
  match targets pos with
  | Raise e => Some (Raise e, w)
  | Ok tg => _move_motors_to_targets hw clock fuel tg wait_time w
  end.

(** [measure_position], one scheduling of the body of
    [for _ in range(self.n_samples)]: the loop waits for [_current_ch1]
    only, and the slot it resets is [_current_ch2]. *)
Definition repetition (pos_name : string) (c : collector) : collector :=
  if is_None (_current_ch1 c)
  then c                                            (* time.sleep(0.01) *)
  else
    mkCollector (_current_ch1 c) None (_current_coinc c)
                (append_ch1 pos_name (_current_ch1 c) (data c)).

(** The matrices under the comment [# Pauli matrices], as the source
    writes them. *)
Definition s_0 : matrix := [ [RtoC 1; RtoC 0]; [RtoC 0; RtoC 1] ].
Definition s_x : matrix := [ [RtoC 0; RtoC 1]; [RtoC 1; RtoC 0] ].
Definition s_y : matrix := [ [RtoC 1; (RtoC 0 - Cj)%C]; [Cj; RtoC 1] ].
Definition s_z : matrix := [ [RtoC 1; RtoC 0]; [RtoC 0; RtoC (-1)] ].

Definition T0 : Q := 1.

(** [TX], [TY] and [TZ], in the order the source computes them. *)
Definition stokes (C : string -> Q) : M (Q * Q * Q) :=
  (TX <- py_div (C "P" - C "M") (C "P" + C "M") ;;
   TY <- py_div (C "R" - C "L") (C "R" + C "L") ;;
   TZ <- py_div (C "H" - C "V") (C "H" + C "V") ;;
   ret (TX, TY, TZ))%py.

(** [rho = (1/2) * (T0 * s_0 + TX * s_x + TY * s_y + TZ * s_z)] *)
Definition assemble_rho (T : Q * Q * Q) : matrix :=
  let '(TX, TY, TZ) := T in
  mscale (1 / 2)
    (madd (madd (madd (mscale T0 s_0) (mscale TX s_x)) (mscale TY s_y))
          (mscale TZ s_z)).

Section CalcResults.
Variable py_float : string -> option Q.

Definition C_of (df : dataframe) (name : string) : Q :=
  dict_get (pos_to_coinc py_float positions Avg_ch1 df) name 0.

Definition calc_results (df : dataframe) : M results :=
  (T <- stokes (C_of df) ;;
   ret (diagnostics (assemble_rho T)))%py.
End CalcResults.

End SingleQubit.

(** ** The command line

    [cli_parse] and the loop of the main block that turns the parsed
    arguments into the variables of the experiment. *)

(** [s.split(sep)] for a separator of one character. *)
Fixpoint split_on (sep : ascii) (s : string) : list string :=
  match s with
  | EmptyString => [EmptyString]
  | String c s' =>
      if Ascii.eqb c sep then EmptyString :: split_on sep s'
      else match split_on sep s' with
           | piece :: rest => String c piece :: rest
           | [] => [String c EmptyString]
           end
  end.

(** The body of the loop of [cli_parse] for one argument.  [token[0]] always
    exists: [split] never returns an empty list. *)
Definition cli_step (tokens : dict string) (arg : string) : dict string :=
  match split_on "=" arg with
  | key :: val :: _ => dict_set tokens key val
  | [key] => dict_set tokens key "NAN"
  | [] => tokens
  end.

(** [cli_parse], as a function of [sys.argv]: the loop starts at index 1. *)
Definition cli_parse (argv : list string) : dict string :=
  fold_left cli_step (tl argv) [].

(** The text of an argument before its first [=], and the text after it. *)
Fixpoint before_eq (s : string) : string :=
  match s with
  | EmptyString => EmptyString
  | String c s' => if Ascii.eqb c "=" then EmptyString else String c (before_eq s')
  end.

Fixpoint after_eq (s : string) : option string :=
  match s with
  | EmptyString => None
  | String c s' => if Ascii.eqb c "=" then Some s' else after_eq s'
  end.

(** The variables of the experiment. *)
Record config : Type := mkConfig {
  n_samples : Z;
  wait_time : Z;
  file_name : string;
  n_sigma : Z;
  qubits : Z;
  online : bool
}.

(** Their values before the arguments are read. *)
Definition default_config : config :=
  mkConfig 100 5 "tomography_counts.csv" 2 2 true.

(** How the loop over the arguments ends: it runs through, it leaves the
    program with [os._exit(0)] after printing the help or the set-up, [int]
    raises [ValueError] for the value of an argument, or an argument is
    unknown and [NotImplementedError] is raised. *)
Inductive options_outcome : Type :=
| Configured (cfg : config)
| Exited
| IntValueError (key val : string)
| NotImplemented (key : string).

Section Options.
(** Python's [int] applied to a string: [None] when it raises
    [ValueError]. *)
Variable py_int : string -> option Z.

(** One turn of the loop [for i in range(len(args))] of the main block. *)
Definition option_step (cfg : config) (key val : string) : options_outcome :=
  if String.eqb key "--n_samples" || String.eqb key "-n" then
    match py_int val with
    | Some n => Configured (mkConfig n (wait_time cfg) (file_name cfg) (n_sigma cfg)
                                     (qubits cfg) (online cfg))
    | None => IntValueError key val
    end
  else if String.eqb key "--wait_time" || String.eqb key "-w" then
    match py_int val with
    | Some n => Configured (mkConfig (n_samples cfg) n (file_name cfg) (n_sigma cfg)
                                     (qubits cfg) (online cfg))
    | None => IntValueError key val
    end
  else if String.eqb key "--out" || String.eqb key "-o" then
    Configured (mkConfig (n_samples cfg) (wait_time cfg) (val ++ ".csv")%string
                         (n_sigma cfg) (qubits cfg) (online cfg))
  else if String.eqb key "--n_sigma" then
    match py_int val with
    | Some n => Configured (mkConfig (n_samples cfg) (wait_time cfg) (file_name cfg) n
                                     (qubits cfg) (online cfg))
    | None => IntValueError key val
    end
  else if String.eqb key "--qubits" || String.eqb key "-q" then
    match py_int val with
    | Some n => Configured (mkConfig (n_samples cfg) (wait_time cfg) (file_name cfg)
                                     (n_sigma cfg) n (online cfg))
    | None => IntValueError key val
    end
  else if String.eqb key "--help" || String.eqb key "-h" then Exited
  else if String.eqb key "--explain-setup" then Exited
  else if String.eqb key "--offline" then
    Configured (mkConfig (n_samples cfg) (wait_time cfg) (file_name cfg) (n_sigma cfg)
                         (qubits cfg) false)
  else NotImplemented key.

Fixpoint read_options (args : dict string) (cfg : config) : options_outcome :=
  match args with
  | [] => Configured cfg
  | (key, val) :: rest =>
      match option_step cfg key val with
      | Configured cfg' => read_options rest cfg'
      | stop => stop
      end
  end.

(** The main block up to the end of the loop over the arguments. *)
Definition main_options (argv : list string) : options_outcome :=
  read_options (cli_parse argv) default_config.
End Options.

(** The spellings the loop knows that set a variable, and those that leave
    the program. *)
Definition setting_options : list string :=
  ["--n_samples"; "-n"; "--wait_time"; "-w"; "--out"; "-o"; "--n_sigma";
   "--qubits"; "-q"; "--offline"].
Definition leaving_options : list string := ["--help"; "-h"; "--explain-setup"].

(** ** Averages written by [save_csv] and the time left printed by [run] *)

(** [sum(xs)] for a list of counts: [None] when an entry is [None]
    ([TypeError]). *)
Fixpoint py_sum (xs : list (option sample)) : option Z :=
  match xs with
  | [] => Some 0%Z
  | Some s :: rest => option_map (Z.add (value s)) (py_sum rest)
  | None :: rest => None
  end.

(** [sum(d[ch])/len(d[ch]) if d[ch] else 0], the average columns of
    [save_csv]. *)
Definition average (xs : list (option sample)) : option Q :=
  match xs with
  | [] => Some 0
  | _ => option_map (fun total => inject_Z total / inject_Z (Z.of_nat (List.length xs)))
                    (py_sum xs)
  end.

(** [int(x)] for a float: truncation towards zero. *)
Definition py_trunc (x : Q) : Z := Z.quot (Qnum x) (Z.pos (Qden x)).

(** The three numbers printed as [h:mm:ss]. *)
Definition hms (seconds : Z) : Z * Z * Z :=
  ((seconds / 3600)%Z, ((seconds mod 3600) / 60)%Z, (seconds mod 60)%Z).

(** [eta_seconds] in the loop of [BaseQubit.run], for the position of index
    [idx]; [elapsed_total] and [time_in_current] are the two differences of
    clock readings. *)
Definition eta_seconds (n_samples total_positions : Z) (idx : Z)
    (elapsed_total time_in_current : Q) : Z :=
  let estimated_seconds_per_position := inject_Z n_samples * (1 # 10) in
  let positions_done := (idx + 1)%Z in
  let avg_time_per_pos :=
    if (positions_done <=? 3)%Z then estimated_seconds_per_position
    else elapsed_total / inject_Z positions_done in
  let remaining_full_positions := (total_positions - positions_done)%Z in
  let remaining_in_current := avg_time_per_pos - time_in_current in
  let remaining_in_current :=
    if Qlt_le_dec remaining_in_current 0 then 0 else remaining_in_current in
  py_trunc (inject_Z remaining_full_positions * avg_time_per_pos + remaining_in_current).

(** ** Python floats as binary64 numbers

    The second reading of the floats, for the statements that depend on
    their values.  A finite float is the rational it denotes (the sign of a
    zero is not kept).  An operation computes the exact result and rounds
    it to the nearest number with a significand of 53 bits, ties to the
    even significand, with gradual underflow below [2^-1022], and to an
    infinity when the rounded result reaches [2^1024]. *)

Module Binary64.

Inductive float : Type :=
| Fin (q : Q)
| Inf (negative : bool)
| NaN.

(** The integer part of the binary logarithm of [|x|], for [x] not zero. *)
Definition ilog2 (x : Q) : Z :=
  let e := (Z.log2 (Z.abs (Qnum x)) - Z.log2 (Zpos (Qden x)))%Z in
  if Qle_bool (2 ^ e) (Qabs x) then e else (e - 1)%Z.

(** The spacing of the binary64 numbers around [x]; [2^-1074] below
    [2^-1022]. *)
Definition ulp (x : Q) : Q := 2 ^ (Z.max (ilog2 x) (-1022) - 52).

(** The multiple of [ulp x] nearest to [x], the even one of two. *)
Definition nearest (x : Q) : Q := inject_Z (py_round (x / ulp x)) * ulp x.

(** Rounding of an exact result. *)
Definition rnd (x : Q) : float :=
  if Qeq_bool x 0 then Fin 0
  else if Qle_bool (2 ^ 1024) (Qabs (nearest x)) then Inf (Qle_bool x 0)
  else Fin (nearest x).

(** The relative error of a rounding, [2^-53], and the absolute error of a
    rounding below [2^-1022], [2^-1075]. *)
Definition eps : Q := 1 # 9007199254740992.
Definition eta : Q := 2 ^ (-1075).

Definition is_negative (q : Q) : bool := negb (Qle_bool 0 q).

Definition opp (a : float) : float :=
  match a with
  | Fin x => Fin (- x)
  | Inf s => Inf (negb s)
  | NaN => NaN
  end.

Definition add (a b : float) : float :=
  match a, b with
  | NaN, _ | _, NaN => NaN
  | Fin x, Fin y => rnd (x + y)
  | Inf s, Inf t => if Bool.eqb s t then Inf s else NaN
  | Inf s, Fin _ | Fin _, Inf s => Inf s
  end.

Definition sub (a b : float) : float := add a (opp b).

Definition mul (a b : float) : float :=
  match a, b with
  | NaN, _ | _, NaN => NaN
  | Fin x, Fin y => rnd (x * y)
  | Inf s, Inf t => Inf (xorb s t)
  | Inf s, Fin y | Fin y, Inf s =>
      if Qeq_bool y 0 then NaN else Inf (xorb s (is_negative y))
  end.

(** The quotient of IEEE 754; Python gets here with a divisor that is not
    zero only. *)
Definition div (a b : float) : float :=
  match a, b with
  | NaN, _ | _, NaN => NaN
  | Inf _, Inf _ => NaN
  | Inf s, Fin y => Inf (xorb s (is_negative y))
  | Fin _, Inf _ => Fin 0
  | Fin x, Fin y =>
      if Qeq_bool y 0 then (if Qeq_bool x 0 then NaN else Inf (is_negative x))
      else rnd (x / y)
  end.

(** [a == b] *)
Definition eqb (a b : float) : bool :=
  match a, b with
  | Fin x, Fin y => Qeq_bool x y
  | Inf s, Inf t => Bool.eqb s t
  | _, _ => false
  end.

(** [a / b] *)
Definition truediv (a b : float) : M float :=
  if eqb b (Fin 0) then raise ZeroDivisionError else ret (div a b).

(** [float(z)] and the conversion of an integer operand, for an integer
    below [2^1024]. *)
Definition of_int (z : Z) : float := rnd (inject_Z z).

(** [round(x)] *)
Definition round (x : float) : result Z :=
  match x with
  | Fin q => Ok (py_round q)
  | Inf _ => Raise OverflowError
  | NaN => Raise (ValueError "cannot convert float NaN to integer")
  end.

(** [STEPS_PER_REV = 4800], [DEG_TO_STEP = STEPS_PER_REV / 360.0] *)
Definition STEPS_PER_REV : Z := 4800.
Definition DEG_TO_STEP : float := div (of_int STEPS_PER_REV) (Fin 360).

(** [BaseQubit._angle_to_steps]: [round(angle * DEG_TO_STEP)] *)
Definition _angle_to_steps (angle : float) : result Z :=
  round (mul angle DEG_TO_STEP).


(** A cell of a column of averages as [pd.read_csv] hands it over: a float
    (NaN for a cell that is empty or holds one of the markers of a missing
    value, such as [n/a], [NA] or [null]), an integer when the whole column
    holds integers, or text when the column holds text that is no
    number. *)
Inductive cell : Type :=
| CFloat (x : float)
| CInt (z : Z)
| CStr (s : string).

Record row : Type := mkRow {
  Position : string;      (* str(row["Position"]) *)
  Avg_ch1 : cell;
  Avg_coinc : cell
}.

Definition dataframe : Type := list row.

Section ReadAverages.
(** Python's [float] applied to a string: [None] when it raises. *)
Variable py_float : string -> option float.

(** [float(val)]: only text can make it raise. *)
Definition float_of (val : cell) : option float :=
  match val with
  | CFloat x => Some x
  | CInt z => Some (of_int z)
  | CStr s => py_float s
  end.

(** The loop over [df.iterrows()] that fills [pos_to_coinc]. *)
Definition pos_to_coinc (positions : list string) (column : row -> cell)
    (df : dataframe) : dict float :=
  fold_left
    (fun d r =>
       let pos := strip (Position r) in
       if str_in pos positions then
         match float_of (column r) with
         | Some x => dict_set d pos x
         | None => dict_set d pos (Fin 0)
         end
       else d)
    df [].
End ReadAverages.

End Binary64.

(** The frequencies of [DoubleQubit.calc_results] in binary64. *)
Module DoubleQubit64.
Import Binary64.

(** [sum(C(o) for o in outcomes)]: the additions from left to right,
    starting from the integer 0, each one rounded (CPython up to 3.11;
    later versions also carry a correction term for the rounding errors of
    a finite sum). *)
Definition den_of (C : string -> float) (outcomes : list string) : float :=
  fold_left add (map C outcomes) (of_int 0).

(** The loop [for _, outcomes in groups.items()] that fills [freq]. *)
Fixpoint freq_loop (C : string -> float) (gs : dict (list string)) (freq : dict float)
  : M (dict float) :=
  match gs with
  | [] => ret freq
  | (_, outcomes) :: gs' =>
      (for_each outcomes
         (fun o => if eqb (C o) (of_int 0)
                   then warn "No coincidence for position {o}"
                   else ret tt) ;;;
       let den := den_of C outcomes in
       if eqb den (of_int 0) then
         raise (ValueError ("No total coincidence count for basis "
                            ++ repr_list outcomes ++ ".")%string)
       else
         freq_loop C gs'
           (fold_left (fun fr o => dict_set fr (lower o) (div (C o) den)) outcomes freq))%py
  end.

Section CalcResults.
Variable py_float : string -> option float.

(** [C = lambda name: pos_to_coinc.get(name, 0.0)] *)
Definition C_of (df : dataframe) (name : string) : float :=
  dict_get (pos_to_coinc py_float DoubleQubit.positions Avg_coinc df) name (Fin 0).

(** [calc_results] up to the end of the loop over the groups: what it
    raises and warns comes from here; the rest is arithmetic on floats and
    [freq[...]] with keys the loop has stored. *)
Definition frequencies (df : dataframe) : M (dict float) :=
  freq_loop (C_of df) DoubleQubit.groups [].
End CalcResults.

End DoubleQubit64.

(** The parameters of [SingleQubit.calc_results] in binary64. *)
Module SingleQubit64.
Import Binary64.

(** [TX], [TY] and [TZ], in the order the source computes them. *)
Definition stokes (C : string -> float) : M (float * float * float) :=
  (TX <- truediv (sub (C "P") (C "M")) (add (C "P") (C "M")) ;;
   TY <- truediv (sub (C "R") (C "L")) (add (C "R") (C "L")) ;;
   TZ <- truediv (sub (C "H") (C "V")) (add (C "H") (C "V")) ;;
   ret (TX, TY, TZ))%py.

Section CalcResults.
Variable py_float : string -> option float.

Definition C_of (df : dataframe) (name : string) : float :=
  dict_get (pos_to_coinc py_float SingleQubit.positions Avg_ch1 df) name (Fin 0).

End CalcResults.

End SingleQubit64.

(** ** What the specification compares the code with

    These definitions follow the words of the specification, not the
    source: the standard Pauli matrices, the tensor product, the Pauli
    expansion of a two-qubit state and the correlation of two axes. *)

Module Spec.

Inductive axis : Type := A0 | AX | AY | AZ.

Definition sigma (a : axis) : matrix :=
  match a with
  | A0 => [ [RtoC 1; RtoC 0]; [RtoC 0; RtoC 1] ]
  | AX => [ [RtoC 0; RtoC 1]; [RtoC 1; RtoC 0] ]
  | AY => [ [RtoC 0; mkC 0 (-1)]; [mkC 0 1; RtoC 0] ]
  | AZ => [ [RtoC 1; RtoC 0]; [RtoC 0; RtoC (-1)] ]
  end.

(** The tensor (Kronecker) product. *)
Definition kron (a b : matrix) : matrix :=
  List.concat
    (map (fun arow =>
            map (fun brow => List.concat (map (fun x => map (Cmul x) brow) arow)) b)
         a).

(** The parameter [Tij] of a record of Stokes parameters: [i] is the axis
    of qubit 1, [j] the axis of qubit 2. *)
Definition coefficient (T : stokes2) (i j : axis) : Q :=
  match i, j with
  | A0, A0 => T00 T | A0, AX => T0X T | A0, AY => T0Y T | A0, AZ => T0Z T
  | AX, A0 => TX0 T | AX, AX => TXX T | AX, AY => TXY T | AX, AZ => TXZ T
  | AY, A0 => TY0 T | AY, AX => TYX T | AY, AY => TYY T | AY, AZ => TYZ T
  | AZ, A0 => TZ0 T | AZ, AX => TZX T | AZ, AY => TZY T | AZ, AZ => TZZ T
  end.

Definition axes : list axis := [A0; AX; AY; AZ].

Definition zeros (n : nat) : matrix := repeat (repeat (RtoC 0) n) n.

(** [(1/4) * sum over i, j of Tij (sigma_i (x) sigma_j)] *)
Definition pauli_sum (T : stokes2) : matrix :=
  mscale (1 / 4)
    (fold_left madd
       (flat_map (fun i => map (fun j => mscale (coefficient T i j)
                                            (kron (sigma i) (sigma j))) axes) axes)
       (zeros 4)).

(** [(1/2) (I + TX sigma_x + TY sigma_y + TZ sigma_z)] *)
Definition bloch (TX TY TZ : Q) : matrix :=
  mscale (1 / 2)
    (madd (madd (madd (sigma A0) (mscale TX (sigma AX))) (mscale TY (sigma AY)))
          (mscale TZ (sigma AZ))).

(** The two outcomes of measuring an axis, as lower-case setting letters:
    the outcome counted with sign [+] and the one counted with sign [-]. *)
Definition plus (a : axis) : string :=
  match a with AZ => "h" | AX => "p" | AY => "r" | A0 => EmptyString end.
Definition minus (a : axis) : string :=
  match a with AZ => "v" | AX => "m" | AY => "l" | A0 => EmptyString end.

(** [f(a+ b+) - f(a+ b-) - f(a- b+) + f(a- b-)]: axis [a] on qubit 1
    (first letter), axis [b] on qubit 2 (second letter). *)
Definition correlation (f : string -> Q) (a b : axis) : Q :=
  f (plus a ++ plus b)%string - f (plus a ++ minus b)%string
  - f (minus a ++ plus b)%string + f (minus a ++ minus b)%string.

End Spec.

(** ** Data files used as inputs below *)

(** A row of a two-qubit file and a row of a single-qubit file. *)
Definition row2 (pos : string) (avg_coinc : Q) : row :=
  mkRow pos (CNum 0) (CNum avg_coinc).
Definition row1 (pos : string) (avg_ch1 : Q) : row :=
  mkRow pos (CNum avg_ch1) (CNum 0).

(** A single-qubit file with one row per setting. *)
Definition table1 (h v p m r l : Q) : dataframe :=
  [row1 "H" h; row1 "V" v; row1 "P" p; row1 "M" m; row1 "R" r; row1 "L" l].

(** Counts proportional to H:1.0, V:0.0, P:0.5, M:0.5, R:0.5, L:0.5. *)
Definition pure_H_table (k : Q) : dataframe :=
  table1 (k * 1) (k * 0) (k * (1 # 2)) (k * (1 # 2)) (k * (1 # 2)) (k * (1 # 2)).

(** A two-qubit file: average [c pos] for every setting. *)
Definition table2 (c : string -> Q) : dataframe :=
  map (fun pos => row2 pos (c pos)) DoubleQubit.positions.

(** Every average is 2, except in the listed basis, where the averages are
    3, 1, 1, 3 in the order given. *)
Definition skewed (basis : list string) (pos : string) : Q :=
  match basis with
  | [a; b; c; d] =>
      if String.eqb pos a || String.eqb pos d then 3
      else if String.eqb pos b || String.eqb pos c then 1
      else 2
  | _ => 2
  end.

(** Every average is 2, except in the listed basis, where it is 0. *)
Definition zero_basis (basis : list string) (pos : string) : Q :=
  if str_in pos basis then 0 else 2.

(** A single-qubit file whose H and V averages are 0. *)
Definition zero_HV_table : dataframe := table1 0 0 1 1 1 1.

(** A driver whose motors all stay at position 0, and a clock that advances
    by the 0.05 s of the sleep between two readings. *)
Definition stuck_hardware : hardware :=
  mkHardware (fun _ => true) false (fun _ => true) (fun _ _ => Some 0%Z).
Definition ticking_clock (n : nat) : Q := inject_Z (Z.of_nat n) * (5 # 100).

(** A driver with the four motor ports of the quADD-ED and no
    [set_motor_target_position]; its motors all stay at position 0. *)
Definition four_motor_hardware : hardware :=
  mkHardware (fun idx => (1 <=? idx)%Z && (idx <=? 4)%Z) false
             (fun idx => (1 <=? idx)%Z && (idx <=? 4)%Z) (fun _ _ => Some 0%Z).

(** The targets of the setting HV. *)
Definition targets_HV : list (Z * Z) :=
  [(2, 1200); (3, 0); (1, 1200); (4, 1200)]%Z.

(** An interleaving in which all three channels deliver once and the loop of
    the position HH is scheduled once. *)
Definition one_sample_trace : list event :=
  [Callback 9 1 0 7; Callback 10 1 0 8; Callback 8 1 0 9; Repetition "HH"].

(** Every average is 2, except that of HH, which is 0. *)
Definition no_HH (pos : string) : Q := if String.eqb pos "HH" then 0 else 2.

(** A parameter record with [TZX = 1/2] and all other correlations 0. *)
Definition only_TZX : stokes2 := mkStokes2 1 0 0 0 0 0 0 0 0 0 0 (1 # 2) 0 0 0 0.

(** A stand-in for [int] on strings: optional sign and decimal digits. *)
Definition decimal_int (s : string) : option Z :=
  option_map Z.of_int (NilZero.int_of_string s).

(** A parser that accepts no text at all. *)
Definition no_text (s : string) : option Q := None.

(** A row of a two-qubit file and a row of a single-qubit file, in
    binary64. *)
Definition float_row2 (pos : string) (avg_coinc : Binary64.cell) : Binary64.row :=
  Binary64.mkRow pos (Binary64.CInt 0) avg_coinc.

(** A two-qubit file with the average [c pos] for every setting. *)
Definition float_table2 (c : string -> Binary64.float) : Binary64.dataframe :=
  map (fun pos => float_row2 pos (Binary64.CFloat (c pos))) DoubleQubit.positions.

(** The average 3 for HH and 1 for every other setting. *)
Definition more_HH (pos : string) : Binary64.float :=
  if String.eqb pos "HH" then Binary64.Fin 3 else Binary64.Fin 1.

(** The float 1e308. *)
Definition float_1e308 : Binary64.float := Binary64.of_int (10 ^ 308).

(** A stand-in for [float] on strings: whole numbers in decimal. *)
Definition decimal_float (s : string) : option Binary64.float :=
  option_map Binary64.of_int (decimal_int s).




(** ** Notions used in the statements and the proofs *)

(** The channel number a slot is written from. *)
Definition channel_of (k : chan) : Z :=
  match k with
  | Ch1 => data_channel1
  | Ch2 => data_channel2
  | Coinc => data_coinc
  end.

(** The tag [t] is nowhere in the collector: in no slot and in no series. *)
Definition absent (t : nat) (c : collector) : Prop :=
  (forall k s, slot c k = Some s -> tag s <> t) /\
  (forall k p s, In (Some s) (series (data c p) k) -> tag s <> t).

(** The command step 1 sends for one target. *)
Definition command_for (hw : hardware) (mt : Z * Z) : command :=
  if has_set_motor hw (fst mt) then SetMotor (fst mt) (snd mt)
  else SetMotorTargetPosition (fst mt - 1) (snd mt).

(** Every reading of the motor is within one unit of its target. *)
Definition always_settled (hw : hardware) (motor_idx target : Z) : Prop :=
  has_get_motor hw motor_idx = true /\
  forall k, exists pos, get_motor hw motor_idx k = Some pos /\
                        (Z.abs (pos - target) <= 1)%Z.

(** The driver can be told every target of the assignment. *)
Definition can_set (hw : hardware) (motor_targets : list (Z * Z)) : Prop :=
  forall motor_idx target, In (motor_idx, target) motor_targets ->
    has_set_motor hw motor_idx = true \/ has_set_motor_target_position hw = true.

(** What a step of [_move_motors_to_targets] after step 1 leaves alone. *)
Definition same_commands (w w' : world) : Prop := commands w' = commands w.

(** Two records of parameters are equal as rationals, field by field. *)
Definition stokes2_eq (T T' : stokes2) : Prop :=
  T00 T == T00 T' /\ TZZ T == TZZ T' /\ TXX T == TXX T' /\ TYY T == TYY T' /\
  TZ0 T == TZ0 T' /\ T0Z T == T0Z T' /\ TX0 T == TX0 T' /\ T0X T == T0X T' /\
  TY0 T == TY0 T' /\ T0Y T == T0Y T' /\ TXZ T == TXZ T' /\ TZX T == TZX T' /\
  TXY T == TXY T' /\ TYX T == TYX T' /\ TZY T == TZY T' /\ TYZ T == TYZ T'.

(** The value [cli_parse] stores for an argument: the text between its first
    and its second [=], or ["NAN"] when it has no [=]. *)
Definition arg_value (arg : string) : string :=
  match after_eq arg with
  | None => "NAN"
  | Some rest => before_eq rest
  end.

(** The string contains the character [=]. *)
Definition has_eq (s : string) : bool :=
  existsb (Ascii.eqb "=") (list_ascii_of_string s).

(** A loop only moves what the slots hold into the series. *)
Definition moves_slots (repetition : string -> collector -> collector) : Prop :=
  forall pos_name c,
    (forall k s, slot (repetition pos_name c) k = Some s -> slot c k = Some s) /\
    (forall k p s, In (Some s) (series (data (repetition pos_name c) p) k) ->
                   In (Some s) (series (data c p) k) \/ slot c k = Some s).

(** How often the loop of [measure_position pos_name] is scheduled in a
    trace. *)
Fixpoint scheduled (pos_name : string) (trace : list event) : nat :=
  match trace with
  | [] => O
  | Repetition p :: rest =>
      if String.eqb p pos_name then S (scheduled pos_name rest)
      else scheduled pos_name rest
  | Callback _ _ _ _ :: rest => scheduled pos_name rest
  end.

(** The invariant of the latch after [n] events: stored tags are older
    than [n], what was appended is a delivered count, a count still in a
    slot has not been appended, and no count was appended twice. *)
Record latch_inv (n : nat) (c : collector) : Prop := mkLatchInv {
  inv_slot : forall k s, slot c k = Some s -> (tag s < n)%nat;
  inv_data : forall k p x, In x (series (data c p) k) ->
               exists s, x = Some s /\ (tag s < n)%nat;
  inv_fresh : forall k p s s', slot c k = Some s ->
               In (Some s') (series (data c p) k) -> tag s <> tag s';
  inv_once : forall k p1 p2 i j s s',
               nth_error (series (data c p1) k) i = Some (Some s) ->
               nth_error (series (data c p2) k) j = Some (Some s') ->
               tag s = tag s' -> p1 = p2 /\ i = j
}.

(** The parts of the world a step leaves alone. *)
Definition same_output (w w' : world) : Prop :=
  printed w' = printed w /\ warnings w' = warnings w.

(** What the loop stores when no denominator is zero: for every group, in
    order, [val outcomes o] under the key [lower o]. *)
Definition fill (val : list string -> string -> Q) (gs : dict (list string))
    (freq : dict Q) : dict Q :=
  fold_left
    (fun fr g => fold_left (fun fr o => dict_set fr (lower o) (val (snd g) o)) (snd g) fr)
    gs freq.

Definition frequency (C : string -> Q) (outcomes : list string) (o : string) : Q :=
  C o / DoubleQubit.den_of C outcomes.

(** The floating tolerance of the specification, 1e-9. *)
Definition tolerance : Q := 1 # 1000000000.
(** Indices of a 4 x 4 matrix. *)
Definition in_range (i j : nat) : Prop := (i < 4)%nat /\ (j < 4)%nat.
(** The binary64 numbers among the rationals. *)
Definition binary64 (q : Q) : Prop :=
  exists m e : Z,
    (Z.abs m < 2 ^ 53)%Z /\ (-1074 <= e <= 971)%Z /\ q == inject_Z m * 2 ^ e.

(** The value of a finite float (0 for the others). *)
Definition finite_value (x : Binary64.float) : Q :=
  match x with
  | Binary64.Fin q => q
  | _ => 0
  end.

(** The exact sum of the values [F o] over the members of a group. *)
Definition exact_sum (F : string -> Binary64.float) (outcomes : list string) : Q :=
  fold_left Qplus (map (fun o => finite_value (F o)) outcomes) 0.

(** The bound on the totals under which no group sum overflows, 1e307. *)
Definition largest_total : Q := inject_Z (10 ^ 307).

(** What the binary64 loop stores when no denominator is zero. *)
Definition fill64 (val : list string -> string -> Binary64.float)
    (gs : dict (list string)) (freq : dict Binary64.float) : dict Binary64.float :=
  fold_left
    (fun fr g => fold_left (fun fr o => dict_set fr (lower o) (val (snd g) o)) (snd g) fr)
    gs freq.

Definition frequency64 (C : string -> Binary64.float) (outcomes : list string)
    (o : string) : Binary64.float :=
  Binary64.div (C o) (DoubleQubit64.den_of C outcomes).



(** The multiples of the smallest positive binary64 number. *)
Definition grid (q : Q) : Prop := exists k : Z, q == inject_Z k * 2 ^ (-1074).

(** * Proofs *)

(** ** Rounding lemmas *)

Lemma py_round_cases (x : Q) :
  let f := Qfloor x in
  let r := x - inject_Z f in
  (r < 1 # 2 /\ py_round x = f) \/
  (1 # 2 < r /\ py_round x = (f + 1)%Z) \/
  (r == 1 # 2 /\ Z.even f = true /\ py_round x = f) \/
  (r == 1 # 2 /\ Z.even f = false /\ py_round x = (f + 1)%Z).
Proof.
  cbv zeta. unfold py_round.
  destruct (Qcompare_spec (x - inject_Z (Qfloor x)) (1 # 2)) as [E | L | G].
  - destruct (Z.even (Qfloor x)) eqn:Ev; [right; right; left | right; right; right]; auto.
  - left; auto.
  - right; left; auto.
Qed.

Lemma floor_bounds (x : Q) :
  inject_Z (Qfloor x) <= x /\ x < inject_Z (Qfloor x) + 1.
Proof.
  split; [apply Qfloor_le |].
  generalize (Qlt_floor x). rewrite inject_Z_plus. auto.
Qed.

Lemma py_round_half (x : Q) : Qabs (inject_Z (py_round x) - x) <= 1 # 2.
Proof.
  destruct (floor_bounds x) as [Hlo Hhi].
  apply Qabs_Qle_condition.
  destruct (py_round_cases x) as [[H E] | [[H E] | [[H [_ E]] | [H [_ E]]]]];
    rewrite E; try (rewrite inject_Z_plus; change (inject_Z 1) with 1);
    split; lra.
Qed.

Lemma py_round_mono (x y : Q) : x <= y -> (py_round x <= py_round y)%Z.
Proof.
  intros Hxy.
  assert (Hf : (Qfloor x <= Qfloor y)%Z) by (apply Qfloor_resp_le; exact Hxy).
  destruct (floor_bounds x) as [Hxl Hxh], (floor_bounds y) as [Hyl Hyh].
  destruct (Z.eq_dec (Qfloor x) (Qfloor y)) as [Eq | Ne].
  - destruct (py_round_cases x) as [[H E] | [[H E] | [[H [Ev E]] | [H [Ev E]]]]];
    destruct (py_round_cases y) as [[H' E'] | [[H' E'] | [[H' [Ev' E']] | [H' [Ev' E']]]]];
      rewrite E, E'; rewrite <- ?Eq in *; try lia; try congruence;
      exfalso; lra.
  - assert (Hlt : (Qfloor x + 1 <= Qfloor y)%Z) by lia.
    destruct (py_round_cases x) as [[_ E] | [[_ E] | [[_ [_ E]] | [_ [_ E]]]]];
    destruct (py_round_cases y) as [[_ E'] | [[_ E'] | [[_ [_ E']] | [_ [_ E']]]]];
      rewrite E, E'; lia.
Qed.

Lemma py_round_comp (x y : Q) : x == y -> py_round x = py_round y.
Proof.
  intros E. apply Z.le_antisymm; apply py_round_mono; rewrite E; apply Qle_refl.
Qed.

Lemma py_round_integer (z : Z) : py_round (inject_Z z) = z.
Proof.
  destruct (py_round_cases (inject_Z z)) as [[H E] | [[H E] | [[H [_ E]] | [H [_ E]]]]];
    rewrite Qfloor_Z in *; try exact E;
    exfalso; revert H; unfold Qminus; rewrite Qplus_opp_r; vm_compute; congruence.
Qed.

(** [py_round x] is the integer nearest to [x], the even one of the two
    when [x] lies half way. *)
Lemma py_round_spec (x : Q) :
  Qabs (inject_Z (py_round x) - x) < 1 # 2 \/
  (Qabs (inject_Z (py_round x) - x) == 1 # 2 /\ Z.even (py_round x) = true).
Proof.
  destruct (floor_bounds x) as [Hlo Hhi].
  destruct (py_round_cases x) as [[H E] | [[H E] | [[H [Ev E]] | [H [Ev E]]]]];
    rewrite E; try (rewrite inject_Z_plus; change (inject_Z 1) with 1).
  - left. apply Qabs_case; intros; lra.
  - left. apply Qabs_case; intros; lra.
  - right. split; [apply Qabs_case; intros; lra | exact Ev].
  - right. split; [apply Qabs_case; intros; lra |].
    rewrite Z.even_add, Ev. reflexivity.
Qed.

Lemma Qabs_inject_Z (z : Z) : Qabs (inject_Z z) = inject_Z (Z.abs z).
Proof. reflexivity. Qed.

Lemma py_round_unique (x : Q) (m : Z) :
  Qabs (inject_Z m - x) < 1 # 2 \/
  (Qabs (inject_Z m - x) == 1 # 2 /\ Z.even m = true) ->
  py_round x = m.
Proof.
  intros Hm. pose proof (py_round_spec x) as Hp. set (p := py_round x) in *.
  assert (D : Qabs (inject_Z p - inject_Z m) <= Qabs (inject_Z p - x) + Qabs (inject_Z m - x)).
  { assert (E : inject_Z p - inject_Z m == (inject_Z p - x) + - (inject_Z m - x)) by ring.
    rewrite E. eapply Qle_trans; [apply Qabs_triangle |]. rewrite Qabs_opp. apply Qle_refl. }
  destruct (Z.eq_dec p m) as [E | N]; [exact E | exfalso].
  assert (One : 1 <= Qabs (inject_Z p - inject_Z m)).
  { unfold Qminus. rewrite <- inject_Z_opp, <- inject_Z_plus, Qabs_inject_Z.
    change 1 with (inject_Z 1). rewrite <- Zle_Qle. lia. }
  destruct Hm as [Hm | [Hm Em]]; destruct Hp as [Hp | [Hp Ep]]; try lra.
  assert (Two : Qabs (inject_Z p - inject_Z m) <= 1) by lra.
  unfold Qminus in Two. rewrite <- inject_Z_opp, <- inject_Z_plus, Qabs_inject_Z in Two.
  change 1 with (inject_Z 1) in Two. rewrite <- Zle_Qle in Two.
  unfold Qminus in One. rewrite <- inject_Z_opp, <- inject_Z_plus, Qabs_inject_Z in One.
  change 1 with (inject_Z 1) in One. rewrite <- Zle_Qle in One.
  assert (Od : Z.even (p + - m) = false).
  { destruct (Z.abs_eq_or_opp (p + - m)) as [A | A].
    - assert (p + - m = 1)%Z by lia. rewrite H. reflexivity.
    - assert (p + - m = -1)%Z by lia. rewrite H. reflexivity. }
  rewrite Z.even_add, Z.even_opp, Ep, Em in Od. discriminate.
Qed.

Lemma py_round_opp (x : Q) : py_round (- x) = (- py_round x)%Z.
Proof.
  apply py_round_unique.
  assert (E : inject_Z (- py_round x) - - x == - (inject_Z (py_round x) - x)).
  { rewrite inject_Z_opp. ring. }
  rewrite E, Qabs_opp, Z.even_opp. apply py_round_spec.
Qed.


(** ** The channel latch *)

(** C1: in the single-qubit loop a count delivered once is appended by two
    consecutive repetitions: the slot the loop reads, [_current_ch1], is
    still full after the first repetition. *)
Theorem single_qubit_appends_sample_twice :
  let c1 := run_trace SingleQubit.repetition
              [Callback 9 1 0 7; Repetition "H"] in
  let c2 := run_trace SingleQubit.repetition
              [Callback 9 1 0 7; Repetition "H"; Repetition "H"] in
  slot c1 Ch1 = Some (mkSample 0 7) /\
  series (data c1 "H") Ch1 = [Some (mkSample 0 7)] /\
  series (data c2 "H") Ch1 = [Some (mkSample 0 7); Some (mkSample 0 7)].
Proof. repeat split. Qed.

(** The two-qubit loop, for comparison, keeps the latch discipline. *)

Lemma latch_inv_new : latch_inv 0 new_collector.
Proof.
  split; intros.
  - destruct k; discriminate.
  - destruct k; contradiction.
  - destruct k; discriminate.
  - destruct k, i; discriminate.
Qed.

Lemma latch_inv_weaken n c : latch_inv n c -> latch_inv (S n) c.
Proof.
  intros [I1 I2 I3 I4]. split; auto.
  - intros k s H. apply I1 in H. lia.
  - intros k p x H. destruct (I2 k p x H) as [s [E L]]. exists s. split; [exact E | lia].
Qed.

Lemma callback_cases n channel count index data0 c :
  let c' := data_callback n channel count index data0 c in
  data c' = data c /\
  forall k, slot c' k = slot c k \/ slot c' k = Some (mkSample n data0).
Proof.
  cbv zeta. unfold data_callback.
  destruct (count <? 1)%Z; [split; auto |].
  destruct (channel =? data_channel1)%Z; [split; [reflexivity | intros []; simpl; auto] |].
  destruct (channel =? data_channel2)%Z; [split; [reflexivity | intros []; simpl; auto] |].
  destruct (channel =? data_coinc)%Z; split; try reflexivity; intros []; simpl; auto.
Qed.

Lemma latch_inv_callback n channel count index data0 c :
  latch_inv n c -> latch_inv (S n) (data_callback n channel count index data0 c).
Proof.
  intros [I1 I2 I3 I4].
  destruct (callback_cases n channel count index data0 c) as [D S].
  split.
  - intros k s H. destruct (S k) as [E | E]; rewrite E in H.
    + apply I1 in H. lia.
    + inversion H; subst; simpl; lia.
  - intros k p x H. rewrite D in H. destruct (I2 k p x H) as [s [E L]].
    exists s. split; [exact E | lia].
  - intros k p s s' H H'. rewrite D in H'.
    destruct (S k) as [E | E]; rewrite E in H.
    + eapply I3; eauto.
    + inversion H; subst; simpl.
      destruct (I2 k p _ H') as [s0 [E0 L0]]. inversion E0; subst. lia.
  - intros k p1 p2 i j s s'. rewrite D. apply I4.
Qed.

Lemma double_repetition_cases pos_name c :
  let c' := DoubleQubit.repetition pos_name c in
  c' = c \/
  ((forall k, slot c k <> None) /\
   (forall k, slot c' k = None) /\
   (forall k p, series (data c' p) k =
                if String.eqb p pos_name
                then series (data c p) k ++ [slot c k]
                else series (data c p) k)).
Proof.
  cbv zeta. unfold DoubleQubit.repetition.
  destruct (_current_ch1 c) as [a |] eqn:E1; [| left; reflexivity].
  destruct (_current_ch2 c) as [b |] eqn:E2; [| left; reflexivity].
  destruct (_current_coinc c) as [d |] eqn:E3; [| left; reflexivity].
  right. simpl. repeat split.
  - intros []; simpl; congruence.
  - intros []; reflexivity.
  - intros [] p; simpl; unfold append_coinc, append_ch2, append_ch1; simpl;
      destruct (String.eqb p pos_name); simpl; congruence.
Qed.

Lemma nth_error_snoc {A} (l : list A) (x y : A) (i : nat) :
  nth_error (l ++ [x]) i = Some y ->
  nth_error l i = Some y \/ (i = List.length l /\ y = x).
Proof.
  intros H. destruct (Nat.lt_ge_cases i (List.length l)) as [L | G].
  - left. rewrite nth_error_app1 in H; assumption.
  - right. rewrite nth_error_app2 in H by assumption.
    destruct (i - List.length l)%nat as [| m] eqn:E.
    + simpl in H. inversion H. split; [lia | reflexivity].
    + simpl in H. destruct m; discriminate.
Qed.

Lemma latch_inv_double_repetition n pos_name c :
  latch_inv n c -> latch_inv (S n) (DoubleQubit.repetition pos_name c).
Proof.
  intros I.
  destruct (double_repetition_cases pos_name c) as [E | [Full [Empty Ser]]].
  { rewrite E. apply latch_inv_weaken. exact I. }
  destruct I as [I1 I2 I3 I4].
  assert (Old : forall k p i s,
             nth_error (series (data (DoubleQubit.repetition pos_name c) p) k) i
               = Some (Some s) ->
             nth_error (series (data c p) k) i = Some (Some s) \/
             (p = pos_name /\ i = List.length (series (data c pos_name) k)
              /\ slot c k = Some s)).
  { intros k p i s H. rewrite Ser in H.
    destruct (String.eqb p pos_name) eqn:Ep; [| left; exact H].
    apply String.eqb_eq in Ep. subst p.
    apply nth_error_snoc in H. destruct H as [H | [Hi Hs]]; [left; exact H |].
    right. repeat split; congruence. }
  split.
  - intros k s H. rewrite Empty in H. discriminate.
  - intros k p x H. rewrite Ser in H.
    assert (Hx : In x (series (data c p) k) \/ x = slot c k).
    { destruct (String.eqb p pos_name); [| left; exact H].
      apply in_app_or in H. destruct H as [H | [H | []]]; auto. }
    destruct Hx as [Hx | Hx].
    + destruct (I2 k p x Hx) as [s [E L]]. exists s. split; [exact E | lia].
    + destruct (slot c k) as [s |] eqn:Es; [| exfalso; apply (Full k); exact Es].
      exists s. split; [exact Hx |]. apply I1 in Es. lia.
  - intros k p s s' H. rewrite Empty in H. discriminate.
  - intros k p1 p2 i j s s' H1 H2 T.
    apply Old in H1. apply Old in H2.
    destruct H1 as [H1 | [P1 [L1 S1]]], H2 as [H2 | [P2 [L2 S2]]].
    + eapply I4; eauto.
    + exfalso. apply nth_error_In in H1.
      apply (I3 k p1 s' s S2 H1). congruence.
    + exfalso. apply nth_error_In in H2.
      apply (I3 k p2 s s' S1 H2). congruence.
    + split; congruence.
Qed.

Lemma latch_inv_run n trace c :
  latch_inv n c ->
  latch_inv (n + List.length trace) (run_from DoubleQubit.repetition n trace c).
Proof.
  revert n c. induction trace as [| e rest IH]; intros n c I; simpl.
  - rewrite Nat.add_0_r. exact I.
  - replace (n + S (List.length rest))%nat with (S n + List.length rest)%nat by lia.
    destruct e as [channel count index data0 | pos_name]; apply IH.
    + apply latch_inv_callback. exact I.
    + apply latch_inv_double_repetition. exact I.
Qed.

(** X1: in every interleaving of deliveries and repetitions of the two-qubit
    loop, what is appended is a delivered count (never an empty slot), and
    no delivery is appended twice on its channel. *)
Lemma double_qubit_latch_discipline (trace : list event) (k : chan) :
  let c := run_trace DoubleQubit.repetition trace in
  (forall p x, In x (series (data c p) k) -> x <> None) /\
  (forall p1 p2 i j s s',
      nth_error (series (data c p1) k) i = Some (Some s) ->
      nth_error (series (data c p2) k) j = Some (Some s') ->
      tag s = tag s' -> p1 = p2 /\ i = j).
Proof.
  cbv zeta. unfold run_trace.
  destruct (latch_inv_run 0 trace new_collector latch_inv_new) as [_ I2 _ I4].
  split.
  - intros p x H. destruct (I2 k p x H) as [s [E _]]. congruence.
  - apply I4.
Qed.

(** ** Moving the motors *)

Section MoveMotorsProofs.
Variable hw : hardware.
Variable clock : nat -> Q.

Lemma send_targets_ok (motor_targets : list (Z * Z)) : forall w,
  (forall motor_idx target, In (motor_idx, target) motor_targets ->
     has_set_motor hw motor_idx = true \/ has_set_motor_target_position hw = true) ->
  exists w', send_targets hw motor_targets w = (Ok tt, w') /\
             time_calls w' = time_calls w /\ same_output w w'.
Proof.
  induction motor_targets as [| [m t] rest IH]; intros w H; simpl.
  - exists w. repeat split.
  - assert (Hrest : forall motor_idx target, In (motor_idx, target) rest ->
              has_set_motor hw motor_idx = true \/
              has_set_motor_target_position hw = true)
      by (intros; eapply H; right; eassumption).
    destruct (H m t (or_introl eq_refl)) as [E | E].
    + rewrite E. destruct (IH (send (SetMotor m t) w) Hrest) as [w' [R [T [P W]]]].
      exists w'. repeat split; assumption.
    + destruct (has_set_motor hw m).
      * destruct (IH (send (SetMotor m t) w) Hrest) as [w' [R [T [P W]]]].
        exists w'. repeat split; assumption.
      * rewrite E.
        destruct (IH (send (SetMotorTargetPosition (m - 1) t) w) Hrest)
          as [w' [R [T [P W]]]].
        exists w'. repeat split; assumption.
Qed.

Lemma is_done_cons (m m0 : Z) (done : list Z) :
  is_done (m0 :: done) m = (m =? m0)%Z || is_done done m.
Proof. reflexivity. Qed.

Lemma poll_spec (motor_targets : list (Z * Z)) : forall done w done' w',
  poll hw motor_targets done w = (done', w') ->
  time_calls w' = time_calls w /\ same_output w w' /\
  forall m, (forall t, In (m, t) motor_targets -> never_settles hw m t) ->
            is_done done m = false -> is_done done' m = false.
Proof.
  induction motor_targets as [| [m0 t0] rest IH]; intros done w done' w' H; simpl in H.
  - inversion H; subst. repeat split; auto.
  - assert (Step : forall d w1,
              time_calls w1 = time_calls w -> same_output w w1 ->
              (forall m, (forall t, In (m, t) ((m0, t0) :: rest) -> never_settles hw m t) ->
                         is_done done m = false -> is_done d m = false) ->
              poll hw rest d w1 = (done', w') ->
              time_calls w' = time_calls w /\ same_output w w' /\
              forall m, (forall t, In (m, t) ((m0, t0) :: rest) -> never_settles hw m t) ->
                        is_done done m = false -> is_done done' m = false).
    { intros d w1 T [P W] D R. destruct (IH _ _ _ _ R) as [T' [[P' W'] D']].
      repeat split; try congruence.
      intros m N Hd. apply D'; [intros t Ht; apply N; right; exact Ht |].
      apply D; assumption. }
    destruct (is_done done m0) eqn:Ed.
    { eapply (Step done w); auto; repeat split. }
    destruct (has_get_motor hw m0).
    2:{ eapply (Step done w); auto; repeat split. }
    unfold read_position in H.
    destruct (get_motor hw m0 (reads w)) as [pos |] eqn:Eg.
    2:{ eapply (Step done); [ | | | exact H]; auto; repeat split. }
    destruct (Z.abs (pos - t0) <=? 1)%Z eqn:Ea.
    2:{ eapply (Step done); [ | | | exact H]; auto; repeat split. }
    eapply (Step (m0 :: done)); [ | | | exact H]; auto; try (repeat split).
    intros m N Hd. rewrite is_done_cons. rewrite Hd, orb_false_r.
    apply Z.eqb_neq. intros ->.
    specialize (N t0 (or_introl eq_refl) _ _ Eg).
    apply Z.leb_le in Ea. lia.
Qed.

Lemma wait_loop_spec (motor_targets : list (Z * Z)) (timeout start : Q) :
  forall f done w,
    (forall n, (time_calls w <= n)%nat -> clock n + (5 # 100) <= clock (S n)) ->
    timeout - (clock (time_calls w) - start) <= (5 # 100) * inject_Z (Z.of_nat f) ->
    exists done' w',
      wait_loop hw clock (S f) motor_targets timeout start done w = Some (done', w') /\
      same_output w w' /\
      forall m, (forall t, In (m, t) motor_targets -> never_settles hw m t) ->
                is_done done m = false -> is_done done' m = false.
Proof.
  induction f as [| f IH]; intros done w Sl B.
  - simpl. destruct (all_done motor_targets done).
    + exists done, w. repeat split; auto.
    + destruct (Qlt_le_dec (clock (time_calls w) - start) timeout) as [L | G].
      * exfalso. change (inject_Z (Z.of_nat 0)) with 0 in B. lra.
      * eexists done, _. repeat split; auto.
  - cbn [wait_loop]. destruct (all_done motor_targets done).
    + exists done, w. repeat split; auto.
    + cbn [time_time].
      destruct (Qlt_le_dec (clock (time_calls w) - start) timeout) as [L | G].
      * destruct (poll hw motor_targets done
                    (mkWorld (S (time_calls w)) (reads w) (commands w)
                             (printed w) (warnings w))) as [d2 w2] eqn:Ep.
        destruct (poll_spec _ _ _ _ _ Ep) as [T [[P W] D]]. simpl in T, P, W.
        destruct (IH d2 w2) as [done' [w' [R [[P' W'] D']]]].
        { intros n Hn. apply Sl. lia. }
        { rewrite T. specialize (Sl (time_calls w) (Nat.le_refl _)).
          rewrite Nat2Z.inj_succ, <- Z.add_1_r, inject_Z_plus in B.
          change (inject_Z 1) with 1 in B. lra. }
        exists done', w'. split; [exact R |].
        split; [split; congruence |].
        intros m N Hd. apply D'; auto.
      * eexists done, _. repeat split; auto.
Qed.

Lemma all_done_false (motor_targets : list (Z * Z)) (done : list Z) (m : Z) :
  In m (map fst motor_targets) -> is_done done m = false ->
  all_done motor_targets done = false.
Proof.
  intros Hin Hd. unfold all_done.
  destruct (forallb _ motor_targets) eqn:E; [| reflexivity].
  rewrite forallb_forall in E.
  apply in_map_iff in Hin. destruct Hin as [[m' t] [Em Hin]]. simpl in Em. subst m'.
  specialize (E _ Hin). simpl in E. congruence.
Qed.

Lemma report_spec (motor_targets : list (Z * Z)) : forall w,
  (forall motor_idx target, In (motor_idx, target) motor_targets ->
     has_get_motor hw motor_idx = true /\
     forall k, get_motor hw motor_idx k <> None) ->
  exists finals,
    printed (report hw motor_targets w) = printed w ++ finals /\
    map (fun r => fst (fst r)) finals = map fst motor_targets /\
    warnings (report hw motor_targets w) = warnings w.
Proof.
  induction motor_targets as [| [m t] rest IH]; intros w H; simpl.
  - exists []. rewrite app_nil_r. repeat split.
  - destruct (H m t (or_introl eq_refl)) as [Eg An]. rewrite Eg.
    unfold read_position.
    destruct (get_motor hw m (reads w)) as [final |] eqn:Ef;
      [| exfalso; exact (An _ Ef)].
    set (w1 := print_final m final _).
    destruct (IH w1) as [finals [P [Mp W]]].
    { intros mi ti Hin. apply (H mi ti). right. exact Hin. }
    exists ((m, final, inject_Z final / DEG_TO_STEP) :: finals).
    rewrite P, W. subst w1. simpl. rewrite <- app_assoc. simpl.
    repeat split. f_equal. exact Mp.
Qed.

(** C7, amended: when the driver has a setter and an answering getter for
    every motor of the assignment, a motor that never comes within one unit
    of its target makes [_move_motors_to_targets] neither hang nor raise:
    with enough fuel it returns normally, having printed a final position
    for every motor of the assignment and emitted the warning, and nothing
    else. *)
Theorem move_motors_timeout_only_warns (motor_targets : list (Z * Z))
    (timeout : Q) (w : world) :
  motor_targets <> [] ->
  0 < timeout ->
  sleeps clock (time_calls w) ->
  drives hw motor_targets ->
  (exists m, In m (map fst motor_targets) /\
             forall t, In (m, t) motor_targets -> never_settles hw m t) ->
  exists N, forall fuel, (N <= fuel)%nat ->
    exists w' finals,
      _move_motors_to_targets hw clock fuel motor_targets timeout w = Some (Ok tt, w') /\
      warnings w' = warnings w ++ ["Some motors timed out"] /\
      printed w' = printed w ++ finals /\
      map (fun r => fst (fst r)) finals = map fst motor_targets.
Proof.
  intros _ Tpos [Mono Sl] Dr [m [Hm Nv]].
  exists (S (Z.to_nat (Qceiling (timeout * 20)))).
  intros fuel Hfuel. destruct fuel as [| f]; [lia |].
  unfold _move_motors_to_targets.
  destruct (send_targets_ok motor_targets w) as [w1 [R1 [T1 [P1 W1]]]].
  { intros mi t Hin. apply (Dr mi t Hin). }
  rewrite R1. cbn [time_time]. rewrite T1.
  set (w2 := mkWorld _ _ _ _ _).
  destruct (wait_loop_spec motor_targets timeout (clock (time_calls w)) f [] w2)
    as [done [w3 [R3 [[P3 W3] D3]]]].
  { subst w2. cbn [time_calls]. intros n Hn. apply Sl. lia. }
  { subst w2. cbn [time_calls].
    assert (Hc : timeout * 20 <= inject_Z (Z.of_nat f)).
    { eapply Qle_trans; [apply Qle_ceiling |].
      rewrite <- Zle_Qle. lia. }
    lra. }
  rewrite R3.
  assert (Hnd : is_done done m = false) by (apply D3; [exact Nv | reflexivity]).
  rewrite (all_done_false _ _ _ Hm Hnd). cbn [negb].
  destruct (report_spec motor_targets w3) as [finals [P4 [M4 W4]]].
  { intros mi t Hin. destruct (Dr mi t Hin) as [_ [G A]]. split; assumption. }
  eexists _, finals. split; [reflexivity |].
  subst w2. cbn [warnings_warn warnings printed] in *.
  repeat split; congruence.
Qed.
End MoveMotorsProofs.

(** ** The effect monad *)

Lemma bind_ok {A B} (m : M A) (k : A -> M B) w a w' :
  m w = (Ok a, w') -> bind m k w = k a w'.
Proof. intros H. unfold bind. rewrite H. reflexivity. Qed.

Lemma bind_raise {A B} (m : M A) (k : A -> M B) w e w' :
  m w = (Raise e, w') -> bind m k w = (Raise e, w').
Proof. intros H. unfold bind. rewrite H. reflexivity. Qed.

(** A loop that only warns returns, and keeps the warnings it found. *)
Lemma for_each_warns (P : string -> bool) (msg : string) (xs : list string) : forall w,
  exists extra,
    for_each xs (fun o => if P o then warn msg else ret tt) w = (Ok tt, w ++ extra) /\
    (forall x, In x extra -> x = msg) /\
    ((exists o, In o xs /\ P o = true) -> In msg extra).
Proof.
  induction xs as [| x xs IH]; intros w; cbn [for_each].
  - exists []. rewrite app_nil_r. repeat split; [intros ? [] | intros [o [[] _]]].
  - destruct (P x) eqn:Ex.
    + destruct (IH (w ++ [msg])) as [extra [R [All Some_]]].
      exists (msg :: extra).
      rewrite (bind_ok _ _ w tt (w ++ [msg])) by reflexivity.
      cbv beta. rewrite R, <- app_assoc.
      repeat split.
      * intros y [<- | Hy]; auto.
      * intros _. left. reflexivity.
    + destruct (IH w) as [extra [R [All Some_]]].
      exists extra. rewrite (bind_ok _ _ w tt w) by reflexivity.
      cbv beta. rewrite R. repeat split; [exact All |].
      intros [o [[<- | Ho] Po]]; [congruence |]. apply Some_. eauto.
Qed.

(** ** Dictionaries *)

Lemma dict_find_set {V} (d : dict V) (k k' : string) (v : V) :
  dict_find (dict_set d k v) k' =
  if String.eqb k k' then Some v else dict_find d k'.
Proof.
  induction d as [| [k0 v0] d IH]; simpl.
  - reflexivity.
  - destruct (String.eqb k0 k) eqn:E0; simpl.
    + apply String.eqb_eq in E0. subst k0.
      destruct (String.eqb k k'); reflexivity.
    + rewrite IH. destruct (String.eqb k0 k') eqn:E1; [| reflexivity].
      apply String.eqb_eq in E1. subst k'.
      rewrite String.eqb_sym, E0. reflexivity.
Qed.

(** ** The frequencies of the two-qubit reconstruction *)

Lemma freq_loop_cases (C : string -> Q) (gs : dict (list string)) : forall freq w,
  exists extra,
    (forall x, In x extra -> x = "No coincidence for position {o}") /\
    ((DoubleQubit.freq_loop C gs freq w = (Ok (fill (frequency C) gs freq), w ++ extra) /\
      (forall g outcomes, In (g, outcomes) gs -> ~ DoubleQubit.den_of C outcomes == 0) /\
      ((exists g outcomes o, In (g, outcomes) gs /\ In o outcomes /\ C o == 0) ->
       In "No coincidence for position {o}" extra))
     \/
     (exists msg,
        DoubleQubit.freq_loop C gs freq w = (Raise (ValueError msg), w ++ extra) /\
        exists g outcomes, In (g, outcomes) gs /\ DoubleQubit.den_of C outcomes == 0)).
Proof.
  induction gs as [| [g outcomes] gs IH]; intros freq w.
  - exists []. split; [intros ? [] |]. left. rewrite app_nil_r.
    repeat split; [intros ? ? [] | intros [? [? [? [[] _]]]]].
  - cbn [DoubleQubit.freq_loop].
    destruct (for_each_warns (fun o => Qeq_bool (C o) 0)
                "No coincidence for position {o}" outcomes w) as [e1 [R1 [All1 Some1]]].
    rewrite (bind_ok _ _ _ _ _ R1).
    destruct (Qeq_bool (DoubleQubit.den_of C outcomes) 0) eqn:Ed.
    + exists e1. split; [exact All1 |]. right. eexists. split; [reflexivity |].
      exists g, outcomes. split; [left; reflexivity | apply Qeq_bool_iff; exact Ed].
    + destruct (IH (fold_left (fun fr o => dict_set fr (lower o)
                                  (C o / DoubleQubit.den_of C outcomes)) outcomes freq)
                   (w ++ e1)) as [e2 [All2 [[R2 [Nz Some2]] | [msg [R2 [g' [o' [Hin Hz]]]]]]]];
        exists (e1 ++ e2); (split; [intros x Hx; apply in_app_or in Hx; destruct Hx; auto |]).
      * left. rewrite app_assoc. split; [exact R2 |]. split.
        -- intros g0 o0 [E | Hin]; [| eapply Nz; exact Hin].
           inversion E; subst. intros Hz. apply Qeq_bool_iff in Hz. congruence.
        -- intros [g0 [o0 [o [[E | Hin] [Ho Hz]]]]]; apply in_or_app.
           ++ inversion E; subst. left. apply Some1. exists o.
              split; [exact Ho | apply Qeq_bool_iff; exact Hz].
           ++ right. apply Some2. eauto 6.
      * right. exists msg. rewrite app_assoc. split; [exact R2 |].
        exists g', o'. split; [right; exact Hin | exact Hz].
Qed.

Lemma fill_lookup (val : list string -> string -> Q) g outcomes o :
  In (g, outcomes) DoubleQubit.groups -> In o outcomes ->
  dict_find (fill val DoubleQubit.groups []) (lower o) = Some (val outcomes o).
Proof.
  unfold DoubleQubit.groups. intros Hg Ho. simpl in Hg.
  repeat (destruct Hg as [Hg | Hg];
          [inversion Hg; subst; simpl in Ho;
           repeat (destruct Ho as [Ho | Ho]; [subst; reflexivity |]);
           contradiction |]).
  contradiction.
Qed.

Lemma keys_used_present (val : list string -> string -> Q) w :
  for_each DoubleQubit.keys_used
    (fun k => bind (dict_index (fill val DoubleQubit.groups []) k) (fun _ => ret tt)) w
  = (Ok tt, w).
Proof. reflexivity. Qed.

Lemma groups_have_four g outcomes :
  In (g, outcomes) DoubleQubit.groups -> exists a b c d, outcomes = [a; b; c; d].
Proof.
  unfold DoubleQubit.groups. intros Hg. simpl in Hg.
  repeat (destruct Hg as [Hg | Hg]; [inversion Hg; subst; eauto |]).
  contradiction.
Qed.

Lemma double_calc_cases (py_float : string -> option Q) (df : dataframe) :
  let C := DoubleQubit.C_of py_float df in
  let freq := fill (frequency C) DoubleQubit.groups [] in
  exists extra,
    (DoubleQubit.frequencies py_float df [] = (Ok freq, extra) /\
     DoubleQubit.calc_results py_float df [] =
       (Ok (diagnostics (DoubleQubit.assemble_rho
                           (DoubleQubit.stokes (fun k => dict_get freq k 0)))), extra) /\
     (forall g outcomes, In (g, outcomes) DoubleQubit.groups ->
                         ~ DoubleQubit.den_of C outcomes == 0) /\
     ((exists g outcomes o,
          In (g, outcomes) DoubleQubit.groups /\ In o outcomes /\ C o == 0) ->
      In "No coincidence for position {o}" extra))
    \/
    (exists msg,
       DoubleQubit.frequencies py_float df [] = (Raise (ValueError msg), extra) /\
       DoubleQubit.calc_results py_float df [] = (Raise (ValueError msg), extra) /\
       exists g outcomes, In (g, outcomes) DoubleQubit.groups /\
                          DoubleQubit.den_of C outcomes == 0).
Proof.
  cbv zeta. unfold DoubleQubit.calc_results, DoubleQubit.frequencies.
  destruct (freq_loop_cases (DoubleQubit.C_of py_float df) DoubleQubit.groups [] [])
    as [extra [_ [[R [Nz Wn]] | [msg [R Z]]]]]; rewrite app_nil_l in R; exists extra.
  - left. split; [exact R |]. split; [| split; assumption].
    rewrite (bind_ok _ _ _ _ _ R).
    rewrite (bind_ok _ _ _ _ _ (keys_used_present _ extra)). reflexivity.
  - right. exists msg. split; [exact R |]. split; [| exact Z].
    rewrite (bind_raise _ _ _ _ _ R). reflexivity.
Qed.

(** ** The single-qubit parameters *)

Lemma py_div_cases (a b : Q) (w : list string) :
  (b == 0 /\ py_div a b w = (Raise ZeroDivisionError, w)) \/
  (~ b == 0 /\ py_div a b w = (Ok (a / b), w)).
Proof.
  unfold py_div. destruct (Qeq_bool b 0) eqn:E.
  - left. split; [apply Qeq_bool_iff; exact E | reflexivity].
  - right. split; [| reflexivity]. intros H. apply Qeq_bool_iff in H. congruence.
Qed.

Lemma single_stokes_cases (C : string -> Q) (w : list string) :
  ((C "P" + C "M" == 0 \/ C "R" + C "L" == 0 \/ C "H" + C "V" == 0) /\
   SingleQubit.stokes C w = (Raise ZeroDivisionError, w))
  \/
  (~ C "P" + C "M" == 0 /\ ~ C "R" + C "L" == 0 /\ ~ C "H" + C "V" == 0 /\
   SingleQubit.stokes C w =
     (Ok ((C "P" - C "M") / (C "P" + C "M"),
          (C "R" - C "L") / (C "R" + C "L"),
          (C "H" - C "V") / (C "H" + C "V")), w)).
Proof.
  unfold SingleQubit.stokes.
  destruct (py_div_cases (C "P" - C "M") (C "P" + C "M") w) as [[Z1 R1] | [N1 R1]].
  { left. split; [auto |]. rewrite (bind_raise _ _ _ _ _ R1). reflexivity. }
  rewrite (bind_ok _ _ _ _ _ R1).
  destruct (py_div_cases (C "R" - C "L") (C "R" + C "L") w) as [[Z2 R2] | [N2 R2]].
  { left. split; [auto |]. rewrite (bind_raise _ _ _ _ _ R2). reflexivity. }
  rewrite (bind_ok _ _ _ _ _ R2).
  destruct (py_div_cases (C "H" - C "V") (C "H" + C "V") w) as [[Z3 R3] | [N3 R3]].
  { left. split; [auto |]. rewrite (bind_raise _ _ _ _ _ R3). reflexivity. }
  rewrite (bind_ok _ _ _ _ _ R3).
  right. repeat split; assumption.
Qed.

Lemma single_calc_cases (py_float : string -> option Q) (df : dataframe) :
  let C := SingleQubit.C_of py_float df in
  ((C "P" + C "M" == 0 \/ C "R" + C "L" == 0 \/ C "H" + C "V" == 0) /\
   SingleQubit.calc_results py_float df [] = (Raise ZeroDivisionError, []))
  \/
  (~ C "P" + C "M" == 0 /\ ~ C "R" + C "L" == 0 /\ ~ C "H" + C "V" == 0 /\
   SingleQubit.calc_results py_float df [] =
     (Ok (diagnostics (SingleQubit.assemble_rho
            ((C "P" - C "M") / (C "P" + C "M"),
             (C "R" - C "L") / (C "R" + C "L"),
             (C "H" - C "V") / (C "H" + C "V")))), [])).
Proof.
  cbv zeta. unfold SingleQubit.calc_results.
  destruct (single_stokes_cases (SingleQubit.C_of py_float df) [])
    as [[Z R] | [N1 [N2 [N3 R]]]].
  - left. split; [exact Z |]. rewrite (bind_raise _ _ _ _ _ R). reflexivity.
  - right. repeat split; try assumption. rewrite (bind_ok _ _ _ _ _ R). reflexivity.
Qed.

(** ** Zero denominators *)

Lemma zero_denominator_cases (py_float : string -> option Q) (df : dataframe) :
  (forall g outcomes,
      In (g, outcomes) DoubleQubit.groups ->
      DoubleQubit.den_of (DoubleQubit.C_of py_float df) outcomes == 0 ->
      exists msg, raised (DoubleQubit.calc_results py_float df) = Some (ValueError msg)) /\
  (forall a b,
      In (a, b) [("P", "M"); ("R", "L"); ("H", "V")] ->
      SingleQubit.C_of py_float df a + SingleQubit.C_of py_float df b == 0 ->
      raised (SingleQubit.calc_results py_float df) = Some ZeroDivisionError).
Proof.
  split.
  - intros g outcomes Hg Hz. unfold raised.
    destruct (double_calc_cases py_float df)
      as [extra [[_ [_ [Nz _]]] | [msg [_ [R _]]]]].
    + exfalso. exact (Nz g outcomes Hg Hz).
    + rewrite R. exists msg. reflexivity.
  - intros a b Hab Hz. unfold raised.
    destruct (single_calc_cases py_float df) as [[_ R] | [N1 [N2 [N3 _]]]].
    + rewrite R. reflexivity.
    + exfalso. simpl in Hab.
      destruct Hab as [E | [E | [E | []]]]; inversion E; subst; auto.
Qed.

Lemma raised_not_returned {A} (m : M A) (e : exn) :
  raised m = Some e -> returns m = None.
Proof.
  unfold raised, returns. destruct (fst (m [])); [discriminate | reflexivity].
Qed.

(** C3: a group whose denominator is zero makes the reconstruction raise
    instead of returning a density matrix: [ValueError] in the two-qubit
    variant, for each of the nine groups, and [ZeroDivisionError] in the
    single-qubit variant, for each of the three pairs. *)
Theorem zero_denominator_aborts (py_float : string -> option Q) (df : dataframe) :
  (forall g outcomes,
      In (g, outcomes) DoubleQubit.groups ->
      DoubleQubit.den_of (DoubleQubit.C_of py_float df) outcomes == 0 ->
      returns (DoubleQubit.calc_results py_float df) = None /\
      exists msg, raised (DoubleQubit.calc_results py_float df) = Some (ValueError msg)) /\
  (forall a b,
      In (a, b) [("P", "M"); ("R", "L"); ("H", "V")] ->
      SingleQubit.C_of py_float df a + SingleQubit.C_of py_float df b == 0 ->
      returns (SingleQubit.calc_results py_float df) = None /\
      raised (SingleQubit.calc_results py_float df) = Some ZeroDivisionError).
Proof.
  destruct (zero_denominator_cases py_float df) as [D S].
  split.
  - intros g outcomes Hg Hz. destruct (D g outcomes Hg Hz) as [msg R].
    split; [apply (raised_not_returned _ _ R) | exists msg; exact R].
  - intros a b Hab Hz. pose proof (S a b Hab Hz) as R.
    split; [apply (raised_not_returned _ _ R) | exact R].
Qed.

(** ** The settings of the groups *)

Lemma str_in_In (k : string) (names : list string) :
  str_in k names = true -> In k names.
Proof.
  unfold str_in. intros H. apply existsb_exists in H. destruct H as [x [Hx E]].
  apply String.eqb_eq in E. subst x. exact Hx.
Qed.


Lemma members_are_positions g outcomes o :
  In (g, outcomes) DoubleQubit.groups -> In o outcomes -> In o DoubleQubit.positions.
Proof.
  intros Hg Ho.
  assert (A : forallb (fun gr => forallb (fun x => str_in x DoubleQubit.positions) (snd gr))
                DoubleQubit.groups = true) by reflexivity.
  rewrite forallb_forall in A. specialize (A _ Hg). simpl in A.
  rewrite forallb_forall in A. apply str_in_In. apply A. exact Ho.
Qed.

(** ** Symbolic evaluation of array expressions *)

(** Unfold the array operations down to rational arithmetic, which is left
    for [ring] and [field]. *)
Ltac unfold_arrays :=
  cbv - [Qplus Qmult Qminus Qopp Qdiv Qinv Qeq Qmax Qle Qlt].

Lemma Qmax_zero (a b : Q) : a == 0 -> b == 0 -> Qmax a b == 0.
Proof.
  intros Ha Hb. destruct (Q.max_spec a b) as [[_ E] | [_ E]]; rewrite E; assumption.
Qed.

Lemma table1_C (py_float : string -> option Q) (h v p m r l : Q) :
  let C := SingleQubit.C_of py_float (table1 h v p m r l) in
  C "H" = h /\ C "V" = v /\ C "P" = p /\ C "M" = m /\ C "R" = r /\ C "L" = l.
Proof. repeat split. Qed.

(** The matrix the single-qubit code assembles is Hermitian whatever the
    parameters; its trace is [1 + TY] and its purity as below. *)
Lemma single_diagnostics (TX TY TZ : Q) :
  let r := diagnostics (SingleQubit.assemble_rho (TX, TY, TZ)) in
  hermiticity2 r == 0 /\
  (res_trace r == RtoC (1 + TY))%C /\
  purity r == (1 / 4) * ((1 + TY + TZ) * (1 + TY + TZ) + 2 * (TX * TX + TY * TY)
                         + (1 + TY - TZ) * (1 + TY - TZ)).
Proof.
  cbv zeta. split; [| split].
  - unfold_arrays. repeat apply Qmax_zero; field.
  - unfold_arrays. split; field.
  - unfold_arrays. field.
Qed.

(** ** The pure state |H> *)

(** C9: for counts proportional to H:1, V:0, P:1/2, M:1/2, R:1/2, L:1/2 the
    single-qubit reconstruction computes TZ = 1, TX = 0 and TY = 0 and
    returns a state of purity 1, hermiticity defect 0 and trace 1. *)
Theorem pure_H_reconstruction (py_float : string -> option Q) (k : Q) :
  0 < k ->
  exists TX TY TZ r,
    returns (SingleQubit.stokes (SingleQubit.C_of py_float (pure_H_table k)))
      = Some (TX, TY, TZ) /\
    TZ == 1 /\ TX == 0 /\ TY == 0 /\
    returns (SingleQubit.calc_results py_float (pure_H_table k)) = Some r /\
    purity r == 1 /\ hermiticity2 r == 0 /\ (res_trace r == RtoC 1)%C.
Proof.
  intros Hk. unfold pure_H_table.
  set (df := table1 _ _ _ _ _ _).
  destruct (table1_C py_float (k * 1) (k * 0) (k * (1 # 2)) (k * (1 # 2))
                     (k * (1 # 2)) (k * (1 # 2))) as [EH [EV [EP [EM [ER EL]]]]].
  fold df in EH, EV, EP, EM, ER, EL.
  destruct (single_stokes_cases (SingleQubit.C_of py_float df) [])
    as [[Z _] | [N1 [N2 [N3 RS]]]];
    [exfalso; rewrite EH, EV, EP, EM, ER, EL in Z; destruct Z as [Z | [Z | Z]]; lra |].
  destruct (single_calc_cases py_float df) as [[Z _] | [_ [_ [_ RC]]]];
    [exfalso; destruct Z as [Z | [Z | Z]]; auto |].
  do 3 eexists. eexists.
  split; [unfold returns; rewrite RS; reflexivity |].
  assert (TZ1 : (SingleQubit.C_of py_float df "H" - SingleQubit.C_of py_float df "V")
                / (SingleQubit.C_of py_float df "H" + SingleQubit.C_of py_float df "V")
                == 1).
  { rewrite EH, EV in *. field. lra. }
  assert (TX0 : (SingleQubit.C_of py_float df "P" - SingleQubit.C_of py_float df "M")
                / (SingleQubit.C_of py_float df "P" + SingleQubit.C_of py_float df "M")
                == 0).
  { rewrite EP, EM in *. field. lra. }
  assert (TY0 : (SingleQubit.C_of py_float df "R" - SingleQubit.C_of py_float df "L")
                / (SingleQubit.C_of py_float df "R" + SingleQubit.C_of py_float df "L")
                == 0).
  { rewrite ER, EL in *. field. lra. }
  split; [exact TZ1 |]. split; [exact TX0 |]. split; [exact TY0 |].
  split; [unfold returns; rewrite RC; reflexivity |].
  destruct (single_diagnostics
              ((SingleQubit.C_of py_float df "P" - SingleQubit.C_of py_float df "M")
               / (SingleQubit.C_of py_float df "P" + SingleQubit.C_of py_float df "M"))
              ((SingleQubit.C_of py_float df "R" - SingleQubit.C_of py_float df "L")
               / (SingleQubit.C_of py_float df "R" + SingleQubit.C_of py_float df "L"))
              ((SingleQubit.C_of py_float df "H" - SingleQubit.C_of py_float df "V")
               / (SingleQubit.C_of py_float df "H" + SingleQubit.C_of py_float df "V")))
    as [Hh [[Htr Hti] Hp]].
  split; [| split; [exact Hh | split]].
  - rewrite Hp, TZ1, TX0, TY0. reflexivity.
  - rewrite Htr. cbn [re RtoC]. rewrite TY0. reflexivity.
  - rewrite Hti. reflexivity.
Qed.

(** ** The single-qubit matrix against the Bloch form *)

(** What the code assembles differs from [(1/2)(I + TX sx + TY sy + TZ sz)]
    by [TY/2] on the diagonal: the matrix [s_y] of the source has ones where
    the Pauli matrix has zeros. *)
Lemma single_rho_vs_bloch (TX TY TZ : Q) :
  let code := SingleQubit.assemble_rho (TX, TY, TZ) in
  let spec := Spec.bloch TX TY TZ in
  (entry code 0 0 == entry spec 0 0 + RtoC (TY / 2))%C /\
  (entry code 0 1 == entry spec 0 1)%C /\
  (entry code 1 0 == entry spec 1 0)%C /\
  (entry code 1 1 == entry spec 1 1 + RtoC (TY / 2))%C.
Proof. cbv zeta. repeat split; unfold_arrays; field. Qed.

(** C2: on the file H:1, V:1, P:1, M:1, R:3, L:1 (all pair sums nonzero) the
    parameters are the stated quotients, TX = 0, TY = 1/2, TZ = 0, but the
    returned matrix is not [(1/2)(I + TX sx + TY sy + TZ sz)]: its upper
    left entry is 3/4 where the Bloch form has 1/2, and its trace is 3/2. *)
Theorem single_qubit_rho_is_not_the_bloch_matrix :
  let df := table1 1 1 1 1 3 1 in
  exists TX TY TZ r,
    returns (SingleQubit.stokes (SingleQubit.C_of no_text df)) = Some (TX, TY, TZ) /\
    TX == 0 /\ TY == 1 # 2 /\ TZ == 0 /\
    returns (SingleQubit.calc_results no_text df) = Some r /\
    (entry (rho r) 0 0 == RtoC (3 # 4))%C /\
    (entry (Spec.bloch TX TY TZ) 0 0 == RtoC (1 # 2))%C /\
    (res_trace r == RtoC (3 # 2))%C.
Proof.
  cbv zeta. do 4 eexists.
  split; [reflexivity |].
  split; [reflexivity |]. split; [reflexivity |]. split; [reflexivity |].
  split; [reflexivity |].
  repeat split; vm_compute; reflexivity.
Qed.

(** ** The two-qubit matrix against the Pauli expansion *)

(** X13: the matrix of the source agrees with the Pauli expansion except in two
    entries: row 0, column 1 has [- TZX] for [+ TZX], and row 3, column 1 has
    [TYX] for [TYZ]. *)
Lemma assemble_rho_vs_pauli_sum (T : stokes2) :
  let code := DoubleQubit.assemble_rho T in
  let spec := Spec.pauli_sum T in
  (forall i j, in_range i j -> (i, j) <> (0, 1)%nat -> (i, j) <> (3, 1)%nat ->
               (entry code i j == entry spec i j)%C) /\
  (entry code 0 1 == entry spec 0 1 - RtoC (TZX T / 2))%C /\
  (entry code 3 1 == entry spec 3 1 + Cj * RtoC ((TYZ T - TYX T) / 4))%C.
Proof.
  cbv zeta. destruct T. split; [| split].
  - intros i j [Hi Hj] N01 N31.
    destruct i as [| [| [| [| i]]]]; try lia;
    destruct j as [| [| [| [| j]]]]; try lia;
      try (exfalso; apply N01; reflexivity);
      try (exfalso; apply N31; reflexivity);
      unfold_arrays; split; field.
  - unfold_arrays. split; field.
  - unfold_arrays. split; field.
Qed.

(** The Pauli expansion itself is Hermitian for all real parameters. *)
Lemma pauli_sum_hermitian (T : stokes2) (i j : nat) :
  in_range i j ->
  (entry (conjT (Spec.pauli_sum T)) i j == entry (Spec.pauli_sum T) i j)%C.
Proof.
  destruct T. intros [Hi Hj].
  destruct i as [| [| [| [| i]]]]; try lia;
  destruct j as [| [| [| [| j]]]]; try lia;
    unfold_arrays; split; field.
Qed.

(** C5: on a file whose averages are 2 everywhere except PH:3, MH:1, PV:1,
    MV:3, the matrix returned by the two-qubit reconstruction is not the
    Pauli expansion of its own parameters and is not Hermitian: entry (0,1)
    is -1/8, entry (1,0) is 1/8, the expansion has 1/8 at (0,1), and the
    squared hermiticity defect is 1/16. *)
Theorem two_qubit_rho_is_not_hermitian :
  let df := table2 (skewed ["PH"; "MH"; "PV"; "MV"]) in
  exists freq r,
    returns (DoubleQubit.frequencies no_text df) = Some freq /\
    returns (DoubleQubit.calc_results no_text df) = Some r /\
    let T := DoubleQubit.stokes (fun k => dict_get freq k 0) in
    rho r = DoubleQubit.assemble_rho T /\
    TZX T == 1 # 2 /\
    (entry (rho r) 0 1 == RtoC (- (1 # 8)))%C /\
    (entry (rho r) 1 0 == RtoC (1 # 8))%C /\
    (entry (Spec.pauli_sum T) 0 1 == RtoC (1 # 8))%C /\
    hermiticity2 r == 1 # 16.
Proof.
  cbv zeta. do 2 eexists.
  split; [vm_compute; reflexivity |].
  split; [vm_compute; reflexivity |].
  split; [vm_compute; reflexivity |].
  repeat split; vm_compute; reflexivity.
Qed.

(** ** The correlation parameters *)

(** X14: which correlations the six mixed parameters of the source are: [TXZ] and
    [TZX] are exchanged, [TXY] and [TYX] hold the Z-Y and the Y-Z
    correlation, and [TZY] and [TYZ] are no correlations at all but the
    marginals of qubit 1 in the RH basis and of qubit 2 in the HR basis. *)
Lemma stokes_correlations (f : string -> Q) :
  let T := DoubleQubit.stokes f in
  TZZ T == Spec.correlation f Spec.AZ Spec.AZ /\
  TXX T == Spec.correlation f Spec.AX Spec.AX /\
  TYY T == Spec.correlation f Spec.AY Spec.AY /\
  TXZ T == Spec.correlation f Spec.AZ Spec.AX /\
  TZX T == Spec.correlation f Spec.AX Spec.AZ /\
  TXY T == Spec.correlation f Spec.AZ Spec.AY /\
  TYX T == Spec.correlation f Spec.AY Spec.AZ /\
  TZY T == f "rh" + f "rv" - f "lh" - f "lv" /\
  TYZ T == f "hr" + f "vr" - f "hl" - f "vl".
Proof.
  cbv zeta. unfold Spec.correlation. cbn - [Qplus Qminus Qeq].
  repeat split; ring.
Qed.

(** C6: on a file whose averages are 2 everywhere except HR:3, HL:1, VR:1,
    VL:3, the signed sum f(HR) - f(HL) - f(VR) + f(VL) is 1/2 but the
    parameter TZY of the source is 0; with RH:3, RV:1, LH:1, LV:3 instead,
    f(RH) - f(RV) - f(LH) + f(LV) is 1/2 but the parameter TYZ is 0. *)
Theorem code_TZY_TYZ_are_not_the_correlations :
  (exists freq,
      returns (DoubleQubit.frequencies no_text
                 (table2 (skewed ["HR"; "HL"; "VR"; "VL"]))) = Some freq /\
      let f := fun k => dict_get freq k 0 in
      f "hr" - f "hl" - f "vr" + f "vl" == 1 # 2 /\
      Spec.correlation f Spec.AZ Spec.AY == 1 # 2 /\
      TZY (DoubleQubit.stokes f) == 0) /\
  (exists freq,
      returns (DoubleQubit.frequencies no_text
                 (table2 (skewed ["RH"; "RV"; "LH"; "LV"]))) = Some freq /\
      let f := fun k => dict_get freq k 0 in
      f "rh" - f "rv" - f "lh" + f "lv" == 1 # 2 /\
      Spec.correlation f Spec.AY Spec.AZ == 1 # 2 /\
      TYZ (DoubleQubit.stokes f) == 0).
Proof.
  split; eexists; (split; [vm_compute; reflexivity |]);
    cbv zeta; repeat split; vm_compute; reflexivity.
Qed.

(** ** Binary64 arithmetic *)

Section Binary64Arithmetic.
Import Binary64.

(** Powers of two. *)
Lemma pow2_pos (e : Z) : 0 < 2 ^ e.
Proof. apply Qpower_0_lt. reflexivity. Qed.

Lemma pow2_add (a b : Z) : 2 ^ (a + b) == 2 ^ a * 2 ^ b.
Proof. apply Qpower_plus. discriminate. Qed.

Lemma pow2_le (a b : Z) : (a <= b)%Z -> 2 ^ a <= 2 ^ b.
Proof. intros H. apply Qpower_le_compat_l; [exact H | discriminate]. Qed.

Lemma pow2_lt (a b : Z) : (a < b)%Z -> 2 ^ a < 2 ^ b.
Proof. intros H. apply Qpower_lt_compat_l; [exact H | reflexivity]. Qed.

Lemma pow2_lt_inv (a b : Z) : 2 ^ a < 2 ^ b -> (a < b)%Z.
Proof. intros H. apply (Qpower_lt_compat_l_inv 2); [exact H | reflexivity]. Qed.

Lemma pow2_Z (k : Z) : (0 <= k)%Z -> inject_Z (2 ^ k) == 2 ^ k.
Proof. intros H. rewrite Zpower_Qpower by exact H. reflexivity. Qed.

Lemma log2_bounds (n : Z) : (0 < n)%Z ->
  2 ^ (Z.log2 n) <= inject_Z n /\ inject_Z n < 2 ^ (Z.log2 n + 1).
Proof.
  intros H. destruct (Z.log2_spec n H) as [L U].
  pose proof (Z.log2_nonneg n) as P.
  split.
  - rewrite <- pow2_Z by exact P. rewrite <- Zle_Qle. exact L.
  - rewrite <- pow2_Z by lia. rewrite <- Zlt_Qlt. rewrite <- Z.add_1_r in U. exact U.
Qed.

Lemma Qabs_frac (x : Q) : Qabs x * inject_Z (Zpos (Qden x)) == inject_Z (Z.abs (Qnum x)).
Proof.
  destruct x as [n d]. unfold Qabs, Qeq, inject_Z, Qmult. simpl. lia.
Qed.

Lemma ilog2_spec (x : Q) : ~ x == 0 ->
  2 ^ (ilog2 x) <= Qabs x /\ Qabs x < 2 ^ (ilog2 x + 1).
Proof.
  intros Nz.
  assert (Hn : (0 < Z.abs (Qnum x))%Z).
  { destruct x as [n d]. unfold Qeq in Nz. simpl in *. lia. }
  destruct (log2_bounds _ Hn) as [Ln Un].
  destruct (log2_bounds (Zpos (Qden x)) eq_refl) as [Ld Ud].
  pose proof (Qabs_frac x) as F.
  set (X := Qabs x) in *. set (a := Z.log2 (Z.abs (Qnum x))) in *.
  set (b := Z.log2 (Zpos (Qden x))) in *.
  set (N := inject_Z (Z.abs (Qnum x))) in *. set (D := inject_Z (Zpos (Qden x))) in *.
  assert (Hup : X < 2 ^ (a - b + 1)).
  { replace (a - b + 1)%Z with ((a + 1) + (- b))%Z by lia.
    rewrite pow2_add, Qpower_opp.
    pose proof (pow2_pos b) as Pb. pose proof (pow2_pos (a + 1)) as Pa.
    apply Qlt_shift_div_l; [exact Pb |].
    assert (0 <= X) by apply Qabs_nonneg.
    nra. }
  assert (Hlo : 2 ^ (a - b - 1) <= X).
  { replace (a - b - 1)%Z with (a + (- (b + 1)))%Z by lia.
    rewrite pow2_add, Qpower_opp.
    pose proof (pow2_pos (b + 1)) as Pb. pose proof (pow2_pos a) as Pa.
    apply Qle_shift_div_r; [exact Pb |].
    assert (0 <= X) by apply Qabs_nonneg.
    nra. }
  unfold ilog2. fold a b X.
  destruct (Qle_bool (2 ^ (a - b)) X) eqn:T.
  - apply Qle_bool_iff in T. split; assumption.
  - assert (T' : X < 2 ^ (a - b)).
    { apply Qnot_le_lt. intros C. apply Qle_bool_iff in C. congruence. }
    replace (a - b - 1 + 1)%Z with (a - b)%Z by lia. split; assumption.
Qed.

Lemma ulp_pos (x : Q) : 0 < ulp x.
Proof. apply pow2_pos. Qed.

Lemma nearest_error (x : Q) : Qabs (nearest x - x) <= ulp x * (1 # 2).
Proof.
  unfold nearest. pose proof (ulp_pos x) as P. set (u := ulp x) in *.
  pose proof (py_round_half (x / u)) as H.
  assert (E : inject_Z (py_round (x / u)) * u - x == (inject_Z (py_round (x / u)) - x / u) * u).
  { field. lra. }
  rewrite E, Qabs_Qmult, (Qabs_pos u) by lra.
  rewrite (Qmult_comm u). apply Qmult_le_compat_r; lra.
Qed.

Lemma eps_pow : eps == 2 ^ (-53).
Proof. reflexivity. Qed.

Lemma ulp_normal (x : Q) : ~ x == 0 -> 2 ^ (-1022) <= Qabs x ->
  ulp x * (1 # 2) <= Qabs x * eps.
Proof.
  intros Nz H. destruct (ilog2_spec x Nz) as [L U].
  assert (E : (-1022 <= ilog2 x)%Z).
  { assert (2 ^ (-1022) < 2 ^ (ilog2 x + 1)) by (eapply Qle_lt_trans; eassumption).
    apply pow2_lt_inv in H0. lia. }
  unfold ulp. rewrite Z.max_l by exact E.
  replace (ilog2 x - 52)%Z with (ilog2 x + (-52))%Z by lia.
  rewrite pow2_add. change (2 ^ (-52)) with (1 # 4503599627370496).
  unfold eps. pose proof (pow2_pos (ilog2 x)). lra.
Qed.

Lemma ulp_any (x : Q) : ~ x == 0 -> ulp x * (1 # 2) <= Qabs x * eps + eta.
Proof.
  intros Nz. destruct (Qlt_le_dec (Qabs x) (2 ^ (-1022))) as [S | N].
  - destruct (ilog2_spec x Nz) as [L U].
    assert (E : (ilog2 x < -1022)%Z).
    { apply pow2_lt_inv. eapply Qle_lt_trans; eassumption. }
    unfold ulp. rewrite Z.max_r by lia.
    assert (Ee : 2 ^ (-1022 - 52) * (1 # 2) == eta).
    { unfold eta. change (-1022 - 52)%Z with (-1075 + 1)%Z. rewrite pow2_add.
      change (2 ^ 1) with 2. field. }
    rewrite Ee. pose proof (Qabs_nonneg x). unfold eps.
    assert (0 <= Qabs x * (1 # 9007199254740992)) by lra. lra.
  - pose proof (ulp_normal x Nz N). assert (0 < eta) by apply pow2_pos. lra.
Qed.

Lemma nearest_sign (x : Q) : (0 <= x -> 0 <= nearest x) /\ (x <= 0 -> nearest x <= 0).
Proof.
  unfold nearest. pose proof (ulp_pos x) as P. set (u := ulp x) in *.
  split; intros H.
  - assert (0 <= x / u) by (apply Qle_shift_div_l; lra).
    pose proof (py_round_mono 0 (x / u) H0) as M. change (py_round 0) with 0%Z in M.
    rewrite Zle_Qle in M. change (inject_Z 0) with 0 in M. nra.
  - assert (x / u <= 0) by (apply Qle_shift_div_r; lra).
    pose proof (py_round_mono (x / u) 0 H0) as M. change (py_round 0) with 0%Z in M.
    rewrite Zle_Qle in M. change (inject_Z 0) with 0 in M. nra.
Qed.

Lemma rnd_fin (x : Q) : Qabs x <= 2 ^ 1023 ->
  exists y, rnd x = Fin y /\
    Qabs (y - x) <= Qabs x * eps + eta /\
    (2 ^ (-1022) <= Qabs x -> Qabs (y - x) <= Qabs x * eps) /\
    (0 <= x -> 0 <= y) /\ (x <= 0 -> y <= 0) /\ (x == 0 -> y == 0).
Proof.
  intros B. unfold rnd. destruct (Qeq_bool x 0) eqn:Hz.
  - apply Qeq_bool_iff in Hz. exists 0. split; [reflexivity |].
    assert (E : 0 - x == 0) by lra. rewrite E. change (Qabs 0) with 0.
    pose proof (Qabs_nonneg x). assert (0 < eta) by apply pow2_pos. unfold eps.
    repeat split; intros; lra.
  - assert (Nz : ~ x == 0).
    { intros C. apply Qeq_bool_iff in C. congruence. }
    pose proof (nearest_error x) as E. pose proof (ulp_any x Nz) as A.
    destruct (nearest_sign x) as [S1 S2].
    assert (F : Qle_bool (2 ^ 1024) (Qabs (nearest x)) = false).
    { destruct (Qle_bool (2 ^ 1024) (Qabs (nearest x))) eqn:T; [| reflexivity].
      exfalso. apply Qle_bool_iff in T.
      assert (Qabs (nearest x) <= Qabs x + Qabs (nearest x - x)).
      { assert (Eq : nearest x == x + (nearest x - x)) by ring.
        rewrite Eq at 1. apply Qabs_triangle. }
      assert (E1024 : 2 ^ 1024 == 2 * 2 ^ 1023).
      { change 1024%Z with (1 + 1023)%Z. rewrite pow2_add. reflexivity. }
      assert (eta <= 1) by (vm_compute; discriminate).
      assert (1000 <= 2 ^ 1023) by (vm_compute; discriminate).
      unfold eps in A. lra. }
    rewrite F. exists (nearest x). split; [reflexivity |].
    split; [lra |]. split; [| split; [exact S1 | split; [exact S2 | intros C; contradiction]]].
    intros N. pose proof (ulp_normal x Nz N). lra.
Qed.

Lemma ilog2_unique (x : Q) (e : Z) :
  2 ^ e <= Qabs x -> Qabs x < 2 ^ (e + 1) -> ilog2 x = e.
Proof.
  intros L U.
  assert (Nz : ~ x == 0).
  { intros C. rewrite C in L. change (Qabs 0) with 0 in L.
    pose proof (pow2_pos e). lra. }
  destruct (ilog2_spec x Nz) as [L' U'].
  assert (A : (e < ilog2 x + 1)%Z).
  { apply pow2_lt_inv. eapply Qle_lt_trans; eassumption. }
  assert (B : (ilog2 x < e + 1)%Z).
  { apply pow2_lt_inv. eapply Qle_lt_trans; eassumption. }
  lia.
Qed.

Lemma ilog2_comp (x x' : Q) : x == x' -> ~ x == 0 -> ilog2 x = ilog2 x'.
Proof.
  intros E Nz. symmetry. destruct (ilog2_spec x Nz) as [L U].
  apply ilog2_unique; rewrite <- E; assumption.
Qed.

Lemma rnd_comp (x x' : Q) : x == x' -> rnd x = rnd x'.
Proof.
  intros E. unfold rnd.
  assert (Hz : Qeq_bool x 0 = Qeq_bool x' 0).
  { destruct (Qeq_bool x 0) eqn:A; destruct (Qeq_bool x' 0) eqn:B; try reflexivity.
    - apply Qeq_bool_iff in A. rewrite E in A. apply Qeq_bool_iff in A. congruence.
    - apply Qeq_bool_iff in B. rewrite <- E in B. apply Qeq_bool_iff in B. congruence. }
  rewrite <- Hz. destruct (Qeq_bool x 0) eqn:A; [reflexivity |].
  assert (Nz : ~ x == 0).
  { intros C. apply Qeq_bool_iff in C. congruence. }
  assert (N : nearest x = nearest x').
  { unfold nearest, ulp. rewrite <- (ilog2_comp x x' E Nz).
    set (u := 2 ^ (Z.max (ilog2 x) (-1022) - 52)).
    assert (Eu : x / u == x' / u) by (rewrite E; reflexivity).
    rewrite (py_round_comp _ _ Eu). reflexivity. }
  rewrite <- N.
  assert (S : Qle_bool x 0 = Qle_bool x' 0).
  { destruct (Qle_bool x 0) eqn:P; destruct (Qle_bool x' 0) eqn:P'; try reflexivity.
    - apply Qle_bool_iff in P. rewrite E in P. apply Qle_bool_iff in P. congruence.
    - apply Qle_bool_iff in P'. rewrite <- E in P'. apply Qle_bool_iff in P'. congruence. }
  rewrite S. reflexivity.
Qed.

Lemma ilog2_opp (x : Q) : ~ x == 0 -> ilog2 (- x) = ilog2 x.
Proof.
  intros Nz. destruct (ilog2_spec x Nz) as [L U].
  apply ilog2_unique; rewrite Qabs_opp; assumption.
Qed.

Lemma nearest_zero (x : Q) : x == 0 -> nearest x == 0.
Proof.
  intros E. unfold nearest. pose proof (ulp_pos x) as P. set (u := ulp x) in *.
  rewrite (py_round_comp (x / u) 0).
  - change (py_round 0) with 0%Z. change (inject_Z 0) with 0. ring.
  - rewrite E. field. lra.
Qed.

Lemma nearest_opp (x : Q) : nearest (- x) == - nearest x.
Proof.
  destruct (Qeq_dec x 0) as [Hz | Nz].
  - rewrite (nearest_zero x Hz). rewrite (nearest_zero (- x)) by (rewrite Hz; reflexivity).
    reflexivity.
  - unfold nearest, ulp. rewrite (ilog2_opp x Nz).
    set (u := 2 ^ (Z.max (ilog2 x) (-1022) - 52)).
    assert (P : 0 < u) by apply pow2_pos.
    rewrite (py_round_comp (- x / u) (- (x / u))) by (field; lra).
    rewrite py_round_opp, inject_Z_opp. ring.
Qed.

Lemma nearest_mono_pos (x x' : Q) : 0 < x -> x <= x' -> nearest x <= nearest x'.
Proof.
  intros Px Le.
  assert (Nz : ~ x == 0) by lra. assert (Nz' : ~ x' == 0) by lra.
  destruct (ilog2_spec x Nz) as [L U]. destruct (ilog2_spec x' Nz') as [L' U'].
  rewrite Qabs_pos in L, U by lra. rewrite Qabs_pos in L', U' by lra.
  assert (I : (ilog2 x <= ilog2 x')%Z).
  { assert (2 ^ ilog2 x < 2 ^ (ilog2 x' + 1)) by lra. apply pow2_lt_inv in H. lia. }
  unfold nearest, ulp.
  set (e := Z.max (ilog2 x) (-1022)). set (e' := Z.max (ilog2 x') (-1022)).
  assert (Pu : 0 < 2 ^ (e - 52)) by apply pow2_pos.
  assert (Pu' : 0 < 2 ^ (e' - 52)) by apply pow2_pos.
  destruct (Z.eq_dec e e') as [Eq | Ne].
  - rewrite <- Eq. apply Qmult_le_compat_r; [| lra].
    rewrite <- Zle_Qle. apply py_round_mono.
    apply Qmult_le_compat_r; [exact Le |]. apply Qlt_le_weak, Qinv_lt_0_compat. exact Pu.
  - assert (Lt : (e < e')%Z) by lia.
    assert (Ee' : e' = ilog2 x') by lia.
    assert (Ux : x < 2 ^ (e + 1)).
    { eapply Qlt_le_trans; [exact U |]. apply pow2_le. lia. }
    (* nearest x <= 2 ^ (e + 1) *)
    assert (A : inject_Z (py_round (x / 2 ^ (e - 52))) * 2 ^ (e - 52) <= 2 ^ (e + 1)).
    { assert (S : x / 2 ^ (e - 52) <= inject_Z (2 ^ 53)).
      { apply Qle_shift_div_r; [exact Pu |].
        rewrite pow2_Z by lia. rewrite <- pow2_add.
        replace (53 + (e - 52))%Z with (e + 1)%Z by lia. lra. }
      apply py_round_mono in S. rewrite py_round_integer in S.
      rewrite Zle_Qle in S. rewrite pow2_Z in S by lia.
      replace (e + 1)%Z with (53 + (e - 52))%Z by lia. rewrite pow2_add.
      apply Qmult_le_compat_r; [exact S | lra]. }
    assert (B : 2 ^ e' <= inject_Z (py_round (x' / 2 ^ (e' - 52))) * 2 ^ (e' - 52)).
    { assert (S : inject_Z (2 ^ 52) <= x' / 2 ^ (e' - 52)).
      { apply Qle_shift_div_l; [exact Pu' |].
        rewrite pow2_Z by lia. rewrite <- pow2_add.
        replace (52 + (e' - 52))%Z with e' by lia. rewrite Ee'. exact L'. }
      apply py_round_mono in S. rewrite py_round_integer in S.
      rewrite Zle_Qle in S. rewrite pow2_Z in S by lia.
      replace e' with (52 + (e' - 52))%Z at 1 by lia. rewrite pow2_add.
      apply Qmult_le_compat_r; [exact S | lra]. }
    assert (C : 2 ^ (e + 1) <= 2 ^ e') by (apply pow2_le; lia).
    lra.
Qed.

Lemma nearest_mono (x x' : Q) : x <= x' -> nearest x <= nearest x'.
Proof.
  intros Le. destruct (Qlt_le_dec 0 x) as [P | N].
  - apply nearest_mono_pos; assumption.
  - destruct (Qlt_le_dec x' 0) as [P' | N'].
    + assert (H : nearest (- x') <= nearest (- x)) by (apply nearest_mono_pos; lra).
      rewrite !nearest_opp in H. lra.
    + destruct (nearest_sign x) as [_ S]. destruct (nearest_sign x') as [S' _].
      specialize (S N). specialize (S' N'). lra.
Qed.

Lemma rnd_value (x y : Q) : rnd x = Fin y -> y == nearest x.
Proof.
  unfold rnd. destruct (Qeq_bool x 0) eqn:Hz.
  - intros E. inversion E; subst. apply Qeq_bool_iff in Hz.
    symmetry. apply nearest_zero. exact Hz.
  - destruct (Qle_bool (2 ^ 1024) (Qabs (nearest x))); intros E; inversion E; subst.
    reflexivity.
Qed.

Lemma rnd_mono (x x' y y' : Q) : x <= x' -> rnd x = Fin y -> rnd x' = Fin y' -> y <= y'.
Proof.
  intros Le E E'. rewrite (rnd_value _ _ E), (rnd_value _ _ E').
  apply nearest_mono. exact Le.
Qed.

Lemma grid_plus (a b : Q) : grid a -> grid b -> grid (a + b).
Proof.
  intros [k E] [l F]. exists (k + l)%Z. rewrite inject_Z_plus, E, F. ring.
Qed.

Lemma grid_zero : grid 0.
Proof. exists 0%Z. reflexivity. Qed.

Lemma nearest_grid (x : Q) : grid (nearest x).
Proof.
  unfold nearest, ulp. set (e := Z.max (ilog2 x) (-1022)).
  exists (py_round (x / 2 ^ (e - 52)) * 2 ^ (e + 1022))%Z.
  rewrite inject_Z_mult, pow2_Z by lia.
  replace (e - 52)%Z with ((e + 1022) + (-1074))%Z at 2 by lia.
  rewrite pow2_add. ring.
Qed.

Lemma nearest_subnormal (x : Q) : grid x -> Qabs x < 2 ^ (-1022) -> nearest x == x.
Proof.
  intros [k E] S. destruct (Qeq_dec x 0) as [Hz | Nz].
  - rewrite Hz at 2. apply nearest_zero. exact Hz.
  - destruct (ilog2_spec x Nz) as [L U].
    assert (I : (ilog2 x < -1022)%Z).
    { apply pow2_lt_inv. eapply Qle_lt_trans; eassumption. }
    unfold nearest, ulp. rewrite Z.max_r by lia.
    change (-1022 - 52)%Z with (-1074)%Z.
    rewrite (py_round_comp (x / 2 ^ (-1074)) (inject_Z k)).
    + rewrite py_round_integer. symmetry. exact E.
    + rewrite E. pose proof (pow2_pos (-1074)). field. lra.
Qed.

(** Rounding a finite grid value: the error is relative. *)
Lemma rnd_fin_grid (x : Q) : grid x -> Qabs x <= 2 ^ 1023 ->
  exists y, rnd x = Fin y /\ Qabs (y - x) <= Qabs x * eps /\ grid y /\
            (0 <= x -> 0 <= y) /\ (x == 0 -> y == 0).
Proof.
  intros G B. destruct (rnd_fin x B) as [y [E [_ [R [S [_ Hz]]]]]].
  exists y. split; [exact E |].
  pose proof (rnd_value _ _ E) as V.
  split; [| split; [| split; assumption]].
  - destruct (Qlt_le_dec (Qabs x) (2 ^ (-1022))) as [Sub | Nor].
    + rewrite V, (nearest_subnormal x G Sub).
      assert (Ez : x - x == 0) by ring. rewrite Ez. change (Qabs 0) with 0.
      pose proof (Qabs_nonneg x). unfold eps. lra.
    + apply R. exact Nor.
  - destruct (nearest_grid x) as [k Ek]. exists k. rewrite V. exact Ek.
Qed.

End Binary64Arithmetic.

(** ** The conversion of an angle in binary64 *)

Section AngleToSteps64.
Import Binary64.

Lemma rnd_error (x y : Q) : rnd x = Fin y -> Qabs (y - x) <= Qabs x * eps + eta.
Proof.
  intros E. pose proof (rnd_value _ _ E) as V.
  destruct (Qeq_dec x 0) as [Hz | Nz].
  - rewrite V, (nearest_zero x Hz), Hz. change (Qabs (0 - 0)) with 0.
    change (Qabs 0) with 0. assert (0 < eta) by apply pow2_pos. lra.
  - rewrite V. eapply Qle_trans; [apply nearest_error | apply ulp_any; exact Nz].
Qed.

Lemma eta_small : 0 < eta /\ eta <= 1 # 1000000000000.
Proof. split; [apply pow2_pos | vm_compute; discriminate]. Qed.

(** [DEG_TO_STEP] is the float 13.333333333333334. *)
Lemma DEG_TO_STEP_value :
  exists d, DEG_TO_STEP = Fin d /\ d == 7505999378950827 # 562949953421312.
Proof.
  eexists. split; [vm_compute; reflexivity | vm_compute; reflexivity].
Qed.

Lemma round_rnd (x : Q) (steps : Z) :
  round (rnd x) = Ok steps -> exists y, rnd x = Fin y /\ steps = py_round y.
Proof.
  destruct (rnd x) as [y | s |]; simpl; intros E; inversion E; subst.
  exists y. split; reflexivity.
Qed.

(** C8, amended: in binary64 an angle of at most 1e14 degrees in absolute
    value is converted to a step count within one device unit of
    [angle * 4800 / 360]; wherever the conversion returns it is monotonic;
    and equal angles give equal results. *)
Theorem angle_to_steps_within_unit_in_range (angle angle' : Q) :
  (Qabs angle <= 100000000000000 ->
   exists steps,
     _angle_to_steps (Fin angle) = Ok steps /\
     Qabs (inject_Z steps - angle * (4800 / 360)) <= 1) /\
  (forall steps steps',
     angle <= angle' ->
     _angle_to_steps (Fin angle) = Ok steps ->
     _angle_to_steps (Fin angle') = Ok steps' ->
     (steps <= steps')%Z) /\
  (angle == angle' -> _angle_to_steps (Fin angle) = _angle_to_steps (Fin angle')).
Proof.
  destruct DEG_TO_STEP_value as [d [Ed Vd]].
  unfold _angle_to_steps. rewrite Ed. cbn [mul].
  split; [| split].
  - intros B.
    assert (Ex : angle * d == angle * (7505999378950827 # 562949953421312))
      by (rewrite Vd; reflexivity).
    rewrite (rnd_comp _ _ Ex).
    set (D := 7505999378950827 # 562949953421312) in *.
    assert (Ax : Qabs (angle * D) == Qabs angle * D).
    { rewrite Qabs_Qmult. reflexivity. }
    pose proof (Qabs_nonneg angle) as A0.
    pose proof (Qle_Qabs angle) as A1.
    assert (A2 : - angle <= Qabs angle) by (rewrite <- Qabs_opp; apply Qle_Qabs).
    assert (R : Qabs (angle * D) <= 2 ^ 1023).
    { rewrite Ax. assert (10000000000000000 <= 2 ^ 1023) by (vm_compute; discriminate).
      unfold D. lra. }
    destruct (rnd_fin _ R) as [y [Ey [Err _]]].
    rewrite Ey. cbn [round]. exists (py_round y). split; [reflexivity |].
    rewrite Ax in Err. apply Qabs_Qle_condition in Err. destruct Err as [E1 E2].
    pose proof (py_round_half y) as H. apply Qabs_Qle_condition in H. destruct H as [H1 H2].
    destruct eta_small as [P0 P1].
    change (4800 / 360) with (4800 # 360).
    apply Qabs_Qle_condition. unfold D, eps in *. split; lra.
  - intros steps steps' Le E E'.
    apply round_rnd in E. destruct E as [y [Ey Es]].
    apply round_rnd in E'. destruct E' as [y' [Ey' Es']]. subst.
    apply py_round_mono. eapply rnd_mono; [| exact Ey | exact Ey'].
    apply Qmult_le_compat_r; [exact Le |]. rewrite Vd. discriminate.
  - intros E. rewrite (rnd_comp (angle * d) (angle' * d)) by (rewrite E; reflexivity).
    reflexivity.
Qed.

End AngleToSteps64.

(** On the four angles of [projections] the two readings of
    [_angle_to_steps] give the same steps. *)
Lemma readings_agree_on_the_projections (a : Z) :
  In a [0; 45; 90; 135]%Z ->
  Binary64._angle_to_steps (Binary64.of_int a) = Ok (_angle_to_steps (inject_Z a)).
Proof.
  intros H. simpl in H.
  repeat (destruct H as [H | H]; [subst a; vm_compute; reflexivity |]).
  contradiction.
Qed.

(** ** The frequencies in binary64 *)

Section Frequencies64.
Import Binary64.

Lemma binary64_grid (q : Q) : binary64 q -> grid q.
Proof.
  intros [m [e [_ [[He _] E]]]]. exists (m * 2 ^ (e + 1074))%Z.
  rewrite inject_Z_mult, pow2_Z by lia. rewrite E.
  replace e with ((e + 1074) + (-1074))%Z at 1 by lia. rewrite pow2_add. ring.
Qed.

(** One addition of the sum of a group. *)
Lemma add_step (s c : Q) :
  grid s -> grid c -> 0 <= s -> 0 <= c -> s + c <= 2 ^ 1023 ->
  exists s', add (Fin s) (Fin c) = Fin s' /\ grid s' /\
             (s + c) * (1 - eps) <= s' /\ s' <= (s + c) * (1 + eps).
Proof.
  intros Gs Gc Ps Pc B. cbn [add].
  assert (A : Qabs (s + c) == s + c) by (apply Qabs_pos; lra).
  assert (R : Qabs (s + c) <= 2 ^ 1023) by (rewrite A; exact B).
  destruct (rnd_fin_grid (s + c) (grid_plus _ _ Gs Gc) R) as [y [E [Err [G _]]]].
  exists y. split; [exact E |]. split; [exact G |].
  rewrite A in Err. apply Qabs_Qle_condition in Err. unfold eps in *. lra.
Qed.

Lemma largest_total_fits : 5 * largest_total <= 2 ^ 1023.
Proof. vm_compute. discriminate. Qed.

(** The sum of a group of four totals. *)
Lemma den_of_four (C : string -> float) (a b c d : string) (ca cb cc cd : Q) :
  C a = Fin ca -> C b = Fin cb -> C c = Fin cc -> C d = Fin cd ->
  binary64 ca -> binary64 cb -> binary64 cc -> binary64 cd ->
  0 <= ca <= largest_total -> 0 <= cb <= largest_total ->
  0 <= cc <= largest_total -> 0 <= cd <= largest_total ->
  exists den,
    DoubleQubit64.den_of C [a; b; c; d] = Fin den /\
    (ca + cb + cc + cd) * (1 - (1 # 1000000000000000)) <= den /\
    den <= (ca + cb + cc + cd) * (1 + (1 # 1000000000000000)).
Proof.
  intros Ea Eb Ec Ed Ba Bb Bc Bd Ra Rb Rc Rd.
  unfold DoubleQubit64.den_of. cbn [map fold_left]. rewrite Ea, Eb, Ec, Ed.
  change (of_int 0) with (Fin 0).
  assert (Fits : forall x, x <= 5 * largest_total -> x <= 2 ^ 1023).
  { intros x Hx. eapply Qle_trans; [exact Hx | exact largest_total_fits]. }
  set (L := largest_total) in *.
  apply binary64_grid in Ba, Bb, Bc, Bd.
  destruct Ra as [Pa Ua], Rb as [Pb Ub], Rc as [Pc Uc], Rd as [Pd Ud].
  destruct (add_step 0 ca grid_zero Ba (Qle_refl 0) Pa) as [s1 [E1 [G1 [L1 U1]]]];
    [apply Fits; lra |].
  unfold eps in L1, U1.
  assert (P1 : 0 <= s1) by lra.
  destruct (add_step s1 cb G1 Bb P1 Pb) as [s2 [E2 [G2 [L2 U2]]]];
    [apply Fits; lra |].
  unfold eps in L2, U2.
  assert (P2 : 0 <= s2) by lra.
  destruct (add_step s2 cc G2 Bc P2 Pc) as [s3 [E3 [G3 [L3 U3]]]];
    [apply Fits; lra |].
  unfold eps in L3, U3.
  assert (P3 : 0 <= s3) by lra.
  destruct (add_step s3 cd G3 Bd P3 Pd) as [s4 [E4 [G4 [L4 U4]]]];
    [apply Fits; lra |].
  unfold eps in L4, U4.
  rewrite E1, E2, E3, E4. exists s4. split; [reflexivity |]. split; lra.
Qed.

(** One frequency. *)
Lemma div_step (c den : Q) :
  0 <= c -> 0 < den -> c <= 2 * den ->
  exists f, div (Fin c) (Fin den) = Fin f /\ 0 <= f /\
            c / den * (1 - eps) - eta <= f /\ f <= c / den * (1 + eps) + eta.
Proof.
  intros Pc Pd B. cbn [div].
  assert (Nz : Qeq_bool den 0 = false).
  { destruct (Qeq_bool den 0) eqn:E; [| reflexivity].
    apply Qeq_bool_iff in E. lra. }
  rewrite Nz.
  assert (Q0 : 0 <= c / den) by (apply Qle_shift_div_l; lra).
  assert (Q2 : c / den <= 2) by (apply Qle_shift_div_r; lra).
  assert (A : Qabs (c / den) == c / den) by (apply Qabs_pos; exact Q0).
  assert (R : Qabs (c / den) <= 2 ^ 1023).
  { rewrite A. assert (2 <= 2 ^ 1023) by (vm_compute; discriminate). lra. }
  destruct (rnd_fin (c / den) R) as [f [E [Err [_ [S _]]]]].
  exists f. split; [exact E |]. split; [apply S; exact Q0 |].
  rewrite A in Err. apply Qabs_Qle_condition in Err. lra.
Qed.

Lemma freq_loop64_cases (C : string -> float) (gs : dict (list string)) : forall freq w,
  exists extra,
    (forall x, In x extra -> x = "No coincidence for position {o}") /\
    ((DoubleQubit64.freq_loop C gs freq w = (Ok (fill64 (frequency64 C) gs freq), w ++ extra) /\
      (forall g outcomes, In (g, outcomes) gs ->
                          eqb (DoubleQubit64.den_of C outcomes) (Fin 0) = false) /\
      ((exists g outcomes o, In (g, outcomes) gs /\ In o outcomes /\ eqb (C o) (Fin 0) = true) ->
       In "No coincidence for position {o}" extra))
     \/
     (exists msg,
        DoubleQubit64.freq_loop C gs freq w = (Raise (ValueError msg), w ++ extra) /\
        exists g outcomes, In (g, outcomes) gs /\
                           eqb (DoubleQubit64.den_of C outcomes) (Fin 0) = true)).
Proof.
  induction gs as [| [g outcomes] gs IH]; intros freq w.
  - exists []. split; [intros ? [] |]. left. rewrite app_nil_r.
    repeat split; [intros ? ? [] | intros [? [? [? [[] _]]]]].
  - cbn [DoubleQubit64.freq_loop]. change (of_int 0) with (Fin 0).
    destruct (for_each_warns (fun o => eqb (C o) (Fin 0))
                "No coincidence for position {o}" outcomes w) as [e1 [R1 [All1 Some1]]].
    rewrite (bind_ok _ _ _ _ _ R1).
    destruct (eqb (DoubleQubit64.den_of C outcomes) (Fin 0)) eqn:Ed.
    + exists e1. split; [exact All1 |]. right. eexists. split; [reflexivity |].
      exists g, outcomes. split; [left; reflexivity | exact Ed].
    + destruct (IH (fold_left (fun fr o => dict_set fr (lower o)
                                  (div (C o) (DoubleQubit64.den_of C outcomes))) outcomes freq)
                   (w ++ e1)) as [e2 [All2 [[R2 [Nz Some2]] | [msg [R2 [g' [o' [Hin Hz]]]]]]]];
        exists (e1 ++ e2); (split; [intros x Hx; apply in_app_or in Hx; destruct Hx; auto |]).
      * left. rewrite app_assoc. split; [exact R2 |]. split.
        -- intros g0 o0 [E | Hin]; [| eapply Nz; exact Hin].
           inversion E; subst. exact Ed.
        -- intros [g0 [o0 [o [[E | Hin] [Ho Hz]]]]]; apply in_or_app.
           ++ inversion E; subst. left. apply Some1. exists o. split; assumption.
           ++ right. apply Some2. eauto 6.
      * right. exists msg. rewrite app_assoc. split; [exact R2 |].
        exists g', o'. split; [right; exact Hin | exact Hz].
Qed.

Lemma fill64_lookup (val : list string -> string -> float) g outcomes o :
  In (g, outcomes) DoubleQubit.groups -> In o outcomes ->
  dict_find (fill64 val DoubleQubit.groups []) (lower o) = Some (val outcomes o).
Proof.
  unfold DoubleQubit.groups. intros Hg Ho. simpl in Hg.
  repeat (destruct Hg as [Hg | Hg];
          [inversion Hg; subst; simpl in Ho;
           repeat (destruct Ho as [Ho | Ho]; [subst; reflexivity |]);
           contradiction |]).
  contradiction.
Qed.

(** The four frequencies of a group whose totals are in range. *)
Lemma group_of_four (C : string -> float) (a b c d : string) :
  (forall o, In o [a; b; c; d] ->
     exists x, C o = Fin x /\ binary64 x /\ 0 <= x /\ x <= largest_total) ->
  0 < exact_sum C [a; b; c; d] ->
  eqb (DoubleQubit64.den_of C [a; b; c; d]) (Fin 0) = false /\
  exists fa fb fc fd,
    frequency64 C [a; b; c; d] a = Fin fa /\ frequency64 C [a; b; c; d] b = Fin fb /\
    frequency64 C [a; b; c; d] c = Fin fc /\ frequency64 C [a; b; c; d] d = Fin fd /\
    Qabs (0 + fa + fb + fc + fd - 1) <= tolerance.
Proof.
  intros H S.
  destruct (H a) as [ca [Ea [Ba [Pa Ua]]]]; [simpl; tauto |].
  destruct (H b) as [cb [Eb [Bb [Pb Ub]]]]; [simpl; tauto |].
  destruct (H c) as [cc [Ec [Bc [Pc Uc]]]]; [simpl; tauto |].
  destruct (H d) as [cd [Ed [Bd [Pd Ud]]]]; [simpl; tauto |].
  unfold exact_sum in S. cbn [map fold_left] in S. rewrite Ea, Eb, Ec, Ed in S.
  cbn [finite_value] in S.
  destruct (den_of_four C a b c d ca cb cc cd Ea Eb Ec Ed Ba Bb Bc Bd)
    as [den [Eden [Lden Uden]]]; try (split; assumption).
  assert (Pden : 0 < den) by lra.
  split.
  { rewrite Eden. cbn [eqb]. destruct (Qeq_bool den 0) eqn:E; [| reflexivity].
    apply Qeq_bool_iff in E. lra. }
  unfold frequency64. rewrite Eden, Ea, Eb, Ec, Ed.
  destruct (div_step ca den Pa Pden) as [fa [Fa [Na [La Ha]]]]; [lra |].
  destruct (div_step cb den Pb Pden) as [fb [Fb [Nb [Lb Hb]]]]; [lra |].
  destruct (div_step cc den Pc Pden) as [fc [Fc [Nc [Lc Hc]]]]; [lra |].
  destruct (div_step cd den Pd Pden) as [fd [Fd [Nd [Ld Hd]]]]; [lra |].
  exists fa, fb, fc, fd. repeat (split; [assumption |]).
  set (r := (ca + cb + cc + cd) / den).
  assert (Er : ca / den + cb / den + cc / den + cd / den == r) by (unfold r; field; lra).
  assert (R1 : r <= 1 + (2 # 1000000000000000)).
  { unfold r. apply Qle_shift_div_r; [exact Pden | lra]. }
  assert (R2 : 1 - (2 # 1000000000000000) <= r).
  { unfold r. apply Qle_shift_div_l; [exact Pden | lra]. }
  destruct eta_small as [E0 E1].
  unfold tolerance. apply Qabs_Qle_condition. unfold eps in *. split; lra.
Qed.

(** C4, amended: when every raw total is a binary64 number between 0 and
    1e307 and every group has a positive sum, the loop returns the frequencies, every
    member of a group has the frequency [C(o) / den] of the source, a
    finite float, and the four frequencies of each group sum to 1 within
    1e-9. *)
Theorem group_frequencies_sum_to_one_in_range (py_float : string -> option float)
    (df : dataframe) :
  let C := DoubleQubit64.C_of py_float df in
  (forall pos, In pos DoubleQubit.positions ->
     exists c, C pos = Fin c /\ binary64 c /\ 0 <= c /\ c <= largest_total) ->
  (forall g outcomes, In (g, outcomes) DoubleQubit.groups -> 0 < exact_sum C outcomes) ->
  exists freq,
    returns (DoubleQubit64.frequencies py_float df) = Some freq /\
    forall g outcomes, In (g, outcomes) DoubleQubit.groups ->
      (forall o, In o outcomes ->
         exists f, dict_find freq (lower o) = Some (Fin f) /\
                   Fin f = div (C o) (DoubleQubit64.den_of C outcomes)) /\
      Qabs (exact_sum (fun o => dict_get freq (lower o) NaN) outcomes - 1) <= tolerance.
Proof.
  cbv zeta. intros Hc Hs.
  set (C := DoubleQubit64.C_of py_float df) in *.
  assert (G : forall g outcomes, In (g, outcomes) DoubleQubit.groups ->
            exists a b c d, outcomes = [a; b; c; d] /\
              eqb (DoubleQubit64.den_of C outcomes) (Fin 0) = false /\
              exists fa fb fc fd,
                frequency64 C outcomes a = Fin fa /\ frequency64 C outcomes b = Fin fb /\
                frequency64 C outcomes c = Fin fc /\ frequency64 C outcomes d = Fin fd /\
                Qabs (0 + fa + fb + fc + fd - 1) <= tolerance).
  { intros g outcomes Hg. destruct (groups_have_four g outcomes Hg) as [a [b [c [d E]]]].
    exists a, b, c, d. split; [exact E |]. subst outcomes.
    apply group_of_four.
    - intros o Ho. apply Hc. eapply members_are_positions; eassumption.
    - apply (Hs g). exact Hg. }
  exists (fill64 (frequency64 C) DoubleQubit.groups []).
  destruct (freq_loop64_cases C DoubleQubit.groups [] [])
    as [extra [_ [[R _] | [msg [_ [g [outcomes [Hg Hz]]]]]]]].
  - split.
    + unfold returns, DoubleQubit64.frequencies. fold C. rewrite R. reflexivity.
    + intros g outcomes Hg.
      destruct (G g outcomes Hg) as [a [b [c [d [E [_ [fa [fb [fc [fd [Fa [Fb [Fc [Fd S]]]]]]]]]]]]]].
      assert (Lk : forall o, In o outcomes ->
                 dict_find (fill64 (frequency64 C) DoubleQubit.groups []) (lower o)
                 = Some (frequency64 C outcomes o)).
      { intros o Ho. eapply fill64_lookup; eassumption. }
      split.
      * intros o Ho. rewrite (Lk o Ho). subst outcomes.
        destruct Ho as [Ho | [Ho | [Ho | [Ho | []]]]]; subst o;
          [exists fa | exists fb | exists fc | exists fd];
          (split; [f_equal; assumption | symmetry; assumption]).
      * unfold exact_sum, dict_get. subst outcomes. cbn [map fold_left].
        rewrite !Lk by (simpl; tauto). rewrite Fa, Fb, Fc, Fd. cbn [finite_value]. exact S.
  - exfalso. destruct (G g outcomes Hg) as [_ [_ [_ [_ [_ [Nz _]]]]]]. congruence.
Qed.

End Frequencies64.

(** ** Settings without a usable value, in binary64 *)

Section Missing64.
Import Binary64.









End Missing64.

(** ** The theorems at concrete inputs *)

Lemma targets_HV_from_code : DoubleQubit.targets "HV" = Ok targets_HV.
Proof. reflexivity. Qed.

Lemma ticking_clock_sleeps (n0 : nat) : sleeps ticking_clock n0.
Proof.
  assert (A : forall n, ticking_clock n + (5 # 100) <= ticking_clock (S n)).
  { intros n. unfold ticking_clock.
    rewrite Nat2Z.inj_succ, <- Z.add_1_r, inject_Z_plus.
    change (inject_Z 1) with 1. lra. }
  split; [specialize (A n0); lra | intros n _; apply A].
Defined.

Lemma move_motors_witness :
  exists N, forall fuel, (N <= fuel)%nat ->
    exists w' finals,
      _move_motors_to_targets stuck_hardware ticking_clock fuel targets_HV 1 new_world
        = Some (Ok tt, w') /\
      warnings w' = warnings new_world ++ ["Some motors timed out"] /\
      printed w' = printed new_world ++ finals /\
      map (fun r => fst (fst r)) finals = map fst targets_HV.
Proof.
  apply (move_motors_timeout_only_warns stuck_hardware ticking_clock targets_HV 1 new_world).
  - discriminate.
  - reflexivity.
  - exact (ticking_clock_sleeps 0).
  - intros m t _. simpl. repeat split; auto. intros k. discriminate.
  - exists 2%Z. split; [left; reflexivity |].
    intros t [H | [H | [H | [H | []]]]]; inversion H; subst.
    intros k pos E. inversion E; subst. simpl. lia.
Defined.

(** C7 as stated fails: for a motor the driver has no setter for, the guard
    of step 1 raises [RuntimeError], whatever the timeout. *)
Lemma move_motors_unknown_motor_raises :
  [(7, 100)]%Z <> [] /\
  0 < 1 /\
  sleeps ticking_clock (time_calls new_world) /\
  never_settles four_motor_hardware 7 100 /\
  forall fuel,
    _move_motors_to_targets four_motor_hardware ticking_clock fuel [(7, 100)]%Z 1 new_world
    = Some (Raise (RuntimeError "Cannot set motor 7"), new_world).
Proof.
  split; [discriminate |]. split; [reflexivity |]. split; [| split].
  - exact (ticking_clock_sleeps 0).
  - intros k pos E. inversion E; subst. simpl. lia.
  - intros fuel. reflexivity.
Qed.

Lemma zero_denominator_witness :
  (returns (DoubleQubit.calc_results no_text
              (table2 (zero_basis ["HH"; "HV"; "VH"; "VV"]))) = None /\
   exists msg,
     raised (DoubleQubit.calc_results no_text
               (table2 (zero_basis ["HH"; "HV"; "VH"; "VV"]))) = Some (ValueError msg)) /\
  (returns (SingleQubit.calc_results no_text zero_HV_table) = None /\
   raised (SingleQubit.calc_results no_text zero_HV_table) = Some ZeroDivisionError).
Proof.
  split.
  - apply (proj1 (zero_denominator_aborts no_text
                    (table2 (zero_basis ["HH"; "HV"; "VH"; "VV"])))
                 "HV" ["HH"; "HV"; "VH"; "VV"]).
    + left. reflexivity.
    + vm_compute. reflexivity.
  - apply (proj2 (zero_denominator_aborts no_text zero_HV_table) "H" "V").
    + right. right. left. reflexivity.
    + vm_compute. reflexivity.
Defined.

Lemma pure_H_witness :
  exists TX TY TZ r,
    returns (SingleQubit.stokes (SingleQubit.C_of no_text (pure_H_table 1)))
      = Some (TX, TY, TZ) /\
    TZ == 1 /\ TX == 0 /\ TY == 0 /\
    returns (SingleQubit.calc_results no_text (pure_H_table 1)) = Some r /\
    purity r == 1 /\ hermiticity2 r == 0 /\ (res_trace r == RtoC 1)%C.
Proof.
  apply (pure_H_reconstruction no_text 1). reflexivity.
Defined.

Section Witnesses64.
Import Binary64.

Lemma angle_to_steps_in_range_witness :
  (exists steps,
     _angle_to_steps (Fin 90) = Ok steps /\
     Qabs (inject_Z steps - 90 * (4800 / 360)) <= 1) /\
  (1200 <= 1800)%Z /\
  _angle_to_steps (Fin 90) = _angle_to_steps (Fin (180 # 2)).
Proof.
  destruct (angle_to_steps_within_unit_in_range 90 135) as [H1 [H2 _]].
  destruct (angle_to_steps_within_unit_in_range 90 (180 # 2)) as [_ [_ H3]].
  split; [apply H1; vm_compute; discriminate |]. split.
  - apply H2; [vm_compute; discriminate | vm_compute; reflexivity | vm_compute; reflexivity].
  - apply H3. reflexivity.
Defined.

(** C8 as stated fails: 1e17 is a binary64 number, and the steps computed
    for an angle of 1e17 degrees are more than 170 device units away from
    [angle * 4800 / 360]. *)
Lemma angle_to_steps_off_at_1e17 :
  binary64 100000000000000000 /\
  _angle_to_steps (Fin 100000000000000000) = Ok 1333333333333333504%Z /\
  170 < Qabs (inject_Z 1333333333333333504 - 100000000000000000 * (4800 / 360)).
Proof.
  split; [| split].
  - exists 762939453125%Z, 17%Z. split; [reflexivity |].
    split; [split; discriminate | reflexivity].
  - vm_compute. reflexivity.
  - vm_compute. reflexivity.
Qed.

Lemma float_table2_C (py_float : string -> option float) (c : string -> float)
    (pos : string) :
  In pos DoubleQubit.positions ->
  DoubleQubit64.C_of py_float (float_table2 c) pos = c pos.
Proof.
  intros H. unfold DoubleQubit.positions in H. simpl in H.
  repeat (destruct H as [H | H]; [subst pos; reflexivity |]).
  contradiction.
Qed.

Lemma more_HH_in_range (pos : string) :
  exists c, more_HH pos = Fin c /\ binary64 c /\ 0 <= c /\ c <= largest_total.
Proof.
  unfold more_HH. destruct (String.eqb pos "HH").
  - exists 3. split; [reflexivity |]. split.
    + exists 3%Z, 0%Z. split; [reflexivity |]. split; [split; discriminate | reflexivity].
    + split; vm_compute; discriminate.
  - exists 1. split; [reflexivity |]. split.
    + exists 1%Z, 0%Z. split; [reflexivity |]. split; [split; discriminate | reflexivity].
    + split; vm_compute; discriminate.
Qed.

Lemma group_frequencies_in_range_witness :
  exists freq,
    returns (DoubleQubit64.frequencies decimal_float (float_table2 more_HH)) = Some freq /\
    forall g outcomes, In (g, outcomes) DoubleQubit.groups ->
      (forall o, In o outcomes ->
         exists f, dict_find freq (lower o) = Some (Fin f) /\
                   Fin f = div (DoubleQubit64.C_of decimal_float (float_table2 more_HH) o)
                               (DoubleQubit64.den_of
                                  (DoubleQubit64.C_of decimal_float (float_table2 more_HH))
                                  outcomes)) /\
      Qabs (exact_sum (fun o => dict_get freq (lower o) NaN) outcomes - 1) <= tolerance.
Proof.
  apply (group_frequencies_sum_to_one_in_range decimal_float (float_table2 more_HH)).
  - intros pos H. rewrite (float_table2_C _ _ _ H). apply more_HH_in_range.
  - intros g outcomes H. unfold DoubleQubit.groups in H. simpl in H.
    repeat (destruct H as [H | H]; [inversion H; subst; vm_compute; reflexivity |]).
    contradiction.
Defined.

(** C4 as stated fails: when every raw total is the float 1e308, the totals
    are not negative and every group has a positive sum, but the sum the
    code computes is infinite, every frequency is 0.0, and the four
    frequencies of a group sum to 0. *)
Lemma group_frequencies_overflow :
  let C := DoubleQubit64.C_of decimal_float (float_table2 (fun _ => float_1e308)) in
  (forall pos, In pos DoubleQubit.positions ->
     exists c, C pos = Fin c /\ binary64 c /\ 0 <= c) /\
  (forall g outcomes, In (g, outcomes) DoubleQubit.groups -> 0 < exact_sum C outcomes) /\
  exists freq,
    returns (DoubleQubit64.frequencies decimal_float (float_table2 (fun _ => float_1e308)))
      = Some freq /\
    forall g outcomes, In (g, outcomes) DoubleQubit.groups ->
      DoubleQubit64.den_of C outcomes = Inf false /\
      (forall o, In o outcomes -> dict_find freq (lower o) = Some (Fin 0)) /\
      exact_sum (fun o => dict_get freq (lower o) NaN) outcomes == 0 /\
      ~ Qabs (exact_sum (fun o => dict_get freq (lower o) NaN) outcomes - 1) <= tolerance.
Proof.
  cbv zeta. split; [| split].
  - intros pos H. rewrite (float_table2_C _ _ _ H).
    eexists. split; [vm_compute; reflexivity |]. split.
    + exists (py_round (inject_Z (10 ^ 308) / 2 ^ 971)), 971%Z.
      split; [vm_compute; reflexivity |]. split; [split; discriminate |].
      vm_compute. reflexivity.
    + vm_compute. discriminate.
  - intros g outcomes H. unfold DoubleQubit.groups in H. simpl in H.
    repeat (destruct H as [H | H]; [inversion H; subst; vm_compute; reflexivity |]).
    contradiction.
  - eexists. split; [vm_compute; reflexivity |].
    intros g outcomes H. unfold DoubleQubit.groups in H. simpl in H.
    repeat (destruct H as [H | H];
            [inversion H; subst; split; [vm_compute; reflexivity |];
             split; [intros o Ho; simpl in Ho;
                     repeat (destruct Ho as [Ho | Ho]; [subst o; vm_compute; reflexivity |]);
                     contradiction |];
             split; [vm_compute; reflexivity | vm_compute; intros C; apply C; reflexivity] |]).
    contradiction.
Qed.


End Witnesses64.

(** * Further properties of the code *)

(** ** The data callback and the acquisition loops *)

(** X2: a delivery with [count >= 1] on one of the three registered channels
    fills the slot of that channel and no other; a delivery with [count < 1]
    or on any other channel changes nothing; no delivery touches the
    acquired series. *)
Theorem data_callback_frame (n : nat) (channel count index data0 : Z) (c : collector) :
  let c' := data_callback n channel count index data0 c in
  data c' = data c /\
  (forall k, channel_of k <> channel -> slot c' k = slot c k) /\
  (forall k, channel_of k = channel -> (1 <= count)%Z ->
             slot c' k = Some (mkSample n data0)) /\
  ((count < 1)%Z -> c' = c) /\
  ((forall k, channel_of k <> channel) -> c' = c).
Proof.
  cbv zeta. unfold data_callback.
  destruct (count <? 1)%Z eqn:Ec.
  { apply Z.ltb_lt in Ec. repeat split; auto. intros; lia. }
  apply Z.ltb_ge in Ec.
  destruct (channel =? data_channel1)%Z eqn:E1;
    [apply Z.eqb_eq in E1; subst channel |
     apply Z.eqb_neq in E1;
     destruct (channel =? data_channel2)%Z eqn:E2;
       [apply Z.eqb_eq in E2; subst channel |
        apply Z.eqb_neq in E2;
        destruct (channel =? data_coinc)%Z eqn:E3;
          [apply Z.eqb_eq in E3; subst channel | apply Z.eqb_neq in E3]]];
    (split; [reflexivity |]);
    (split; [intros [] H; simpl in *; congruence |]);
    (split; [intros [] H; simpl in *; try reflexivity; try congruence;
             vm_compute in H; discriminate |]);
    (split; [intros; lia |]);
    intros H; try reflexivity;
    first [ exfalso; apply (H Ch1); reflexivity
          | exfalso; apply (H Ch2); reflexivity
          | exfalso; apply (H Coinc); reflexivity ].
Qed.

Lemma data_callback_frame_witness :
  slot (data_callback 0 9 1 0 7 new_collector) Ch1 = Some (mkSample 0 7) /\
  slot (data_callback 0 9 1 0 7 new_collector) Ch2 = None /\
  data_callback 0 9 0 0 7 new_collector = new_collector /\
  data_callback 0 11 1 0 7 new_collector = new_collector.
Proof.
  destruct (data_callback_frame 0 9 1 0 7 new_collector) as [_ [F [S _]]].
  destruct (data_callback_frame 0 9 0 0 7 new_collector) as [_ [_ [_ [L _]]]].
  destruct (data_callback_frame 0 11 1 0 7 new_collector) as [_ [_ [_ [_ U]]]].
  split; [apply S; [reflexivity | lia] |].
  split; [rewrite F; [reflexivity | discriminate] |].
  split; [apply L; lia |].
  apply U. intros []; discriminate.
Defined.

Lemma single_repetition_cases pos_name c :
  let c' := SingleQubit.repetition pos_name c in
  c' = c \/
  (slot c Ch1 <> None /\
   slot c' Ch1 = slot c Ch1 /\ slot c' Ch2 = None /\ slot c' Coinc = slot c Coinc /\
   (forall p, series (data c' p) Ch1 =
              if String.eqb p pos_name
              then series (data c p) Ch1 ++ [slot c Ch1]
              else series (data c p) Ch1) /\
   (forall p, series (data c' p) Ch2 = series (data c p) Ch2) /\
   (forall p, series (data c' p) Coinc = series (data c p) Coinc)).
Proof.
  cbv zeta. unfold SingleQubit.repetition.
  destruct (_current_ch1 c) as [a |] eqn:E1; [| left; reflexivity].
  right. simpl. rewrite E1. repeat split; try congruence;
    intros p; unfold append_ch1; simpl; destruct (String.eqb p pos_name); reflexivity.
Qed.

Lemma double_moves_slots : moves_slots DoubleQubit.repetition.
Proof.
  intros pos_name c.
  destruct (double_repetition_cases pos_name c) as [E | [_ [Empty Ser]]].
  { rewrite E. split; auto. }
  split.
  - intros k s H. rewrite Empty in H. discriminate.
  - intros k p s H. rewrite Ser in H.
    destruct (String.eqb p pos_name); [| left; exact H].
    apply in_app_or in H. destruct H as [H | [H | []]]; [left; exact H | right; auto].
Qed.

Lemma single_moves_slots : moves_slots SingleQubit.repetition.
Proof.
  intros pos_name c.
  destruct (single_repetition_cases pos_name c)
    as [E | [_ [S1 [S2 [S3 [D1 [D2 D3]]]]]]].
  { rewrite E. split; auto. }
  split.
  - intros [] s H; [rewrite S1 in H | rewrite S2 in H | rewrite S3 in H];
      congruence.
  - intros [] p s H; [rewrite D1 in H | rewrite D2 in H | rewrite D3 in H];
      try (left; exact H).
    destruct (String.eqb p pos_name); [| left; exact H].
    apply in_app_or in H. destruct H as [H | [H | []]]; [left; exact H | right; auto].
Qed.

Lemma absent_run (repetition : string -> collector -> collector) (t : nat) :
  moves_slots repetition ->
  forall trace n c, (t < n)%nat -> absent t c ->
                    absent t (run_from repetition n trace c).
Proof.
  intros Mv tr. induction tr as [| e rest IH]; intros n c Hn A; simpl.
  - exact A.
  - destruct e as [channel count index data0 | pos_name]; apply IH; try lia.
    + destruct A as [As Ad].
      destruct (callback_cases n channel count index data0 c) as [D S].
      split.
      * intros k s H. destruct (S k) as [E | E]; rewrite E in H.
        -- eapply As; eauto.
        -- inversion H; subst. simpl. lia.
      * intros k p s H. rewrite D in H. eapply Ad; eauto.
    + destruct A as [As Ad]. destruct (Mv pos_name c) as [Ms Md].
      split.
      * intros k s H. apply Ms in H. eapply As; eauto.
      * intros k p s H. apply Md in H. destruct H as [H | H].
        -- eapply Ad; eauto.
        -- eapply As; eauto.
Qed.

Lemma run_from_app repetition (t1 t2 : list event) : forall n c,
  run_from repetition n (t1 ++ t2) c =
  run_from repetition (n + List.length t1) t2 (run_from repetition n t1 c).
Proof.
  induction t1 as [| e t1 IH]; intros n c; simpl.
  - rewrite Nat.add_0_r. reflexivity.
  - replace (n + S (List.length t1))%nat with (S n + List.length t1)%nat by lia.
    destruct e; apply IH.
Qed.

(** Tags stay below the number of events, whatever the loop. *)
Lemma tags_bounded (repetition : string -> collector -> collector) :
  moves_slots repetition ->
  forall trace n c,
    (forall t, (n <= t)%nat -> absent t c) ->
    forall t, (n + List.length trace <= t)%nat ->
              absent t (run_from repetition n trace c).
Proof.
  intros Mv tr. induction tr as [| e rest IH]; intros n c A t Ht; simpl in *.
  - apply A. lia.
  - destruct e as [channel count index data0 | pos_name];
      apply (IH (S n)); try lia; intros t' Ht'.
    + destruct (A t') as [As Ad]; [lia |].
      destruct (callback_cases n channel count index data0 c) as [D S].
      split.
      * intros k s H. destruct (S k) as [E | E]; rewrite E in H.
        -- eapply As; eauto.
        -- inversion H; subst. simpl. lia.
      * intros k p s H. rewrite D in H. eapply Ad; eauto.
    + destruct (A t') as [As Ad]; [lia |]. destruct (Mv pos_name c) as [Ms Md].
      split.
      * intros k s H. apply Ms in H. eapply As; eauto.
      * intros k p s H. apply Md in H. destruct H as [H | H].
        -- eapply Ad; eauto.
        -- eapply As; eauto.
Qed.

Lemma absent_new (t : nat) : absent t new_collector.
Proof.
  split; [intros [] s H; discriminate | intros [] p s H; simpl in H; contradiction].
Qed.

(** X3: the latch keeps the last value only.  When two deliveries arrive on
    the same channel with no repetition of the loop between them, the first
    one is lost: in neither loop does it ever reach a series, whatever
    happens afterwards. *)
Theorem overwritten_delivery_is_never_recorded
    (before after : list event) (k : chan) (count1 index1 data1 count2 index2 data2 : Z) :
  (1 <= count2)%Z ->
  forall repetition,
    repetition = DoubleQubit.repetition \/ repetition = SingleQubit.repetition ->
    let trace := before
                 ++ [Callback (channel_of k) count1 index1 data1;
                     Callback (channel_of k) count2 index2 data2]
                 ++ after in
    absent (List.length before) (run_trace repetition trace).
Proof.
  intros Hc repetition Hr. cbv zeta. unfold run_trace.
  assert (Mv : moves_slots repetition)
    by (destruct Hr; subst; [apply double_moves_slots | apply single_moves_slots]).
  rewrite run_from_app. simpl.
  set (n := List.length before).
  set (c := run_from repetition 0 before new_collector).
  assert (A : absent n c).
  { apply (tags_bounded repetition Mv before 0 new_collector);
      [intros; apply absent_new | lia]. }
  apply absent_run; [exact Mv | lia |].
  destruct A as [As Ad].
  destruct (data_callback_frame n (channel_of k) count1 index1 data1 c)
    as [D1 [F1 _]].
  destruct (data_callback_frame (S n) (channel_of k) count2 index2 data2
              (data_callback n (channel_of k) count1 index1 data1 c))
    as [D2 [F2 [S2 _]]].
  split.
  - intros k' s H.
    destruct (Z.eq_dec (channel_of k') (channel_of k)) as [E | N].
    + rewrite (S2 k' E Hc) in H. inversion H; subst. simpl. lia.
    + rewrite (F2 k' N), (F1 k' N) in H. eapply As; eauto.
  - intros k' p s H. rewrite D2, D1 in H. eapply Ad; eauto.
Qed.

Lemma overwritten_delivery_witness :
  absent 0 (run_trace DoubleQubit.repetition
              ([] ++ [Callback (channel_of Ch1) 1 0 5; Callback (channel_of Ch1) 1 1 6]
                  ++ [Callback 10 1 0 1; Callback 8 1 0 2; Repetition "HH"])).
Proof.
  apply (overwritten_delivery_is_never_recorded [] _ Ch1 1 0 5 1 1 6).
  - lia.
  - left. reflexivity.
Defined.

Lemma double_lengths_run (tr : list event) : forall n c p,
  let c' := run_from DoubleQubit.repetition n tr c in
  (forall k, List.length (series (data c' p) k)
             <= List.length (series (data c p) k) + scheduled p tr)%nat /\
  ((forall k k', List.length (series (data c p) k) = List.length (series (data c p) k')) ->
   forall k k', List.length (series (data c' p) k) = List.length (series (data c' p) k')).
Proof.
  induction tr as [| e rest IH]; intros n c p; cbv zeta; simpl.
  - split; [intros; lia | auto].
  - destruct e as [channel count index data0 | pos_name].
    + destruct (callback_cases n channel count index data0 c) as [D _].
      destruct (IH (S n) (data_callback n channel count index data0 c) p) as [B E].
      rewrite D in B, E. split; assumption.
    + destruct (IH (S n) (DoubleQubit.repetition pos_name c) p) as [B E].
      destruct (double_repetition_cases pos_name c) as [Same | [_ [_ Ser]]].
      { rewrite Same in *. split; [| exact E].
        intros k. specialize (B k). destruct (String.eqb pos_name p); lia. }
      assert (L : forall k, List.length (series (data (DoubleQubit.repetition pos_name c) p) k)
                            = (List.length (series (data c p) k)
                               + if String.eqb p pos_name then 1 else 0)%nat).
      { intros k. rewrite Ser. destruct (String.eqb p pos_name).
        - rewrite length_app. reflexivity.
        - lia. }
      split.
      * intros k. specialize (B k). rewrite L in B.
        rewrite (String.eqb_sym pos_name p). destruct (String.eqb p pos_name); lia.
      * intros H. apply E. intros k k'. rewrite !L, (H k k'). reflexivity.
Qed.

(** X4: in every interleaving of deliveries and repetitions of the two-qubit
    loop, the series ch1, ch2 and coinc of a position have the same length,
    which is at most the number of times the loop was scheduled for that
    position. *)
Theorem double_qubit_series_stay_aligned (tr : list event) (p : string) (k k' : chan) :
  let c := run_trace DoubleQubit.repetition tr in
  List.length (series (data c p) k) = List.length (series (data c p) k') /\
  (List.length (series (data c p) k) <= scheduled p tr)%nat.
Proof.
  cbv zeta. unfold run_trace.
  destruct (double_lengths_run tr 0 new_collector p) as [B E]. split.
  - apply E. intros [] []; reflexivity.
  - specialize (B k). destruct k; simpl in B |- *; exact B.
Qed.

Lemma single_only_ch1_run (tr : list event) : forall n c p,
  let c' := run_from SingleQubit.repetition n tr c in
  (series (data c p) Ch2 = [] -> series (data c' p) Ch2 = []) /\
  (series (data c p) Coinc = [] -> series (data c' p) Coinc = []) /\
  ((forall x, In x (series (data c p) Ch1) -> x <> None) ->
   forall x, In x (series (data c' p) Ch1) -> x <> None).
Proof.
  induction tr as [| e rest IH]; intros n c p; cbv zeta; simpl.
  - auto.
  - destruct e as [channel count index data0 | pos_name].
    + destruct (callback_cases n channel count index data0 c) as [D _].
      destruct (IH (S n) (data_callback n channel count index data0 c) p) as [A [B N]].
      rewrite D in A, B, N. auto.
    + destruct (IH (S n) (SingleQubit.repetition pos_name c) p) as [A [B N]].
      destruct (single_repetition_cases pos_name c)
        as [Same | [Full [_ [_ [_ [D1 [D2 D3]]]]]]].
      { rewrite Same in *. auto. }
      rewrite D2 in A. rewrite D3 in B. rewrite D1 in N.
      split; [exact A | split; [exact B |]].
      intros H. apply N. intros x Hx.
      destruct (String.eqb p pos_name); [| apply H; exact Hx].
      apply in_app_or in Hx. destruct Hx as [Hx | [Hx | []]]; [apply H; exact Hx |].
      subst x. exact Full.
Qed.

(** X5: in every interleaving of deliveries and repetitions of the
    single-qubit loop, the series ch2 and coinc of every position stay empty
    and nothing but a delivered count is appended to ch1. *)
Theorem single_qubit_records_only_ch1 (tr : list event) (p : string) :
  let c := run_trace SingleQubit.repetition tr in
  series (data c p) Ch2 = [] /\
  series (data c p) Coinc = [] /\
  forall x, In x (series (data c p) Ch1) -> x <> None.
Proof.
  cbv zeta. unfold run_trace.
  destruct (single_only_ch1_run tr 0 new_collector p) as [A [B N]].
  split; [apply A; reflexivity | split; [apply B; reflexivity |]].
  apply N. intros x [].
Qed.

(** ** More on moving the motors *)

Section MoveMotorsMore.
Variable hw : hardware.
Variable clock : nat -> Q.

Lemma send_targets_commands (motor_targets : list (Z * Z)) : forall w,
  can_set hw motor_targets ->
  exists w', send_targets hw motor_targets w = (Ok tt, w') /\
             commands w' = commands w ++ map (command_for hw) motor_targets /\
             time_calls w' = time_calls w /\ reads w' = reads w /\
             same_output w w'.
Proof.
  unfold can_set, command_for.
  induction motor_targets as [| [m t] rest IH]; intros w H; simpl.
  - exists w. rewrite app_nil_r. repeat split.
  - assert (Hrest : forall motor_idx target, In (motor_idx, target) rest ->
              has_set_motor hw motor_idx = true \/
              has_set_motor_target_position hw = true)
      by (intros; eapply H; right; eassumption).
    destruct (has_set_motor hw m) eqn:Em.
    + destruct (IH (send (SetMotor m t) w) Hrest) as [w' [R [Cm [T [Rd [P W]]]]]].
      exists w'. rewrite R, Cm. simpl. rewrite <- app_assoc.
      repeat split; assumption.
    + destruct (H m t (or_introl eq_refl)) as [E | E]; [congruence |]. rewrite E.
      destruct (IH (send (SetMotorTargetPosition (m - 1) t) w) Hrest)
        as [w' [R [Cm [T [Rd [P W]]]]]].
      exists w'. rewrite R, Cm. simpl. rewrite <- app_assoc.
      repeat split; assumption.
Qed.

Lemma poll_commands (motor_targets : list (Z * Z)) : forall done w,
  same_commands w (snd (poll hw motor_targets done w)) /\
  (reads w <= reads (snd (poll hw motor_targets done w))
   <= reads w + List.length motor_targets)%nat.
Proof.
  unfold same_commands.
  induction motor_targets as [| [m t] rest IH]; intros done w; simpl.
  - split; [reflexivity | lia].
  - destruct (is_done done m).
    { destruct (IH done w) as [A B]. split; [exact A | lia]. }
    destruct (has_get_motor hw m).
    2:{ destruct (IH done w) as [A B]. split; [exact A | lia]. }
    unfold read_position.
    destruct (get_motor hw m (reads w)) as [pos |];
      [destruct (Z.abs (pos - t) <=? 1)%Z |];
      match goal with
      | |- context [poll hw rest ?d ?w1] =>
          destruct (IH d w1) as [A B]; simpl in A, B; split; [exact A | lia]
      end.
Qed.

Lemma wait_loop_commands (motor_targets : list (Z * Z)) (timeout start : Q) :
  forall fuel done w done' w',
    wait_loop hw clock fuel motor_targets timeout start done w = Some (done', w') ->
    same_commands w w' /\ same_output w w'.
Proof.
  unfold same_commands, same_output.
  induction fuel as [| f IH]; intros done w done' w' H; simpl in H; [discriminate |].
  destruct (all_done motor_targets done); [inversion H; subst; auto |].
  destruct (Qlt_le_dec (clock (time_calls w) - start) timeout).
  - destruct (poll hw motor_targets done _) as [d2 w2] eqn:Ep.
    destruct (poll_spec hw _ _ _ _ _ Ep) as [_ [[P W] _]].
    pose proof (proj1 (poll_commands motor_targets done
                         (mkWorld (S (time_calls w)) (reads w) (commands w)
                                  (printed w) (warnings w)))) as Cm.
    rewrite Ep in Cm. unfold same_commands in Cm. simpl in Cm, P, W.
    destruct (IH _ _ _ _ H) as [Cm' [P' W']].
    repeat split; congruence.
  - inversion H; subst. simpl. auto.
Qed.

Lemma report_commands (motor_targets : list (Z * Z)) : forall w,
  same_commands w (report hw motor_targets w) /\
  warnings (report hw motor_targets w) = warnings w.
Proof.
  unfold same_commands.
  induction motor_targets as [| [m t] rest IH]; intros w; simpl.
  - auto.
  - destruct (has_get_motor hw m); [| apply IH].
    unfold read_position. destruct (get_motor hw m (reads w)) as [final |];
      match goal with
      | |- context [report hw rest ?w1] => destruct (IH w1) as [A B]; simpl in A, B; auto
      end.
Qed.

Lemma report_times (motor_targets : list (Z * Z)) : forall w,
  time_calls (report hw motor_targets w) = time_calls w /\
  (reads (report hw motor_targets w) <= reads w + List.length motor_targets)%nat.
Proof.
  induction motor_targets as [| [m t] rest IH]; intros w; simpl.
  - split; [reflexivity | lia].
  - destruct (has_get_motor hw m); [| destruct (IH w); split; [assumption | lia]].
    unfold read_position. destruct (get_motor hw m (reads w)) as [final |];
      match goal with
      | |- context [report hw rest ?w1] =>
          destruct (IH w1) as [A B]; simpl in A, B; split; [exact A | lia]
      end.
Qed.

(** X6: whenever [_move_motors_to_targets] returns normally, it has sent the
    driver exactly one command per target, in the order of the assignment
    and before anything else: [set_motor{idx}_target_position(steps)] when
    the driver has that method, and else [set_motor_target_position] with
    the motor number lowered by one. *)
Theorem targets_are_sent_in_order (fuel : nat) (motor_targets : list (Z * Z))
    (timeout : Q) (w w' : world) :
  _move_motors_to_targets hw clock fuel motor_targets timeout w = Some (Ok tt, w') ->
  commands w' = commands w ++ map (command_for hw) motor_targets.
Proof.
  unfold _move_motors_to_targets. intros H.
  destruct (send_targets hw motor_targets w) as [[[] | e] w1] eqn:Es;
    [| inversion H].
  assert (Cm : commands w1 = commands w ++ map (command_for hw) motor_targets).
  { clear H. revert w w1 Es. unfold command_for.
    induction motor_targets as [| [m t] rest IH]; intros w w1 Es; simpl in Es.
    - inversion Es; subst. rewrite app_nil_r. reflexivity.
    - destruct (has_set_motor hw m) eqn:Em.
      + apply IH in Es. rewrite Es. simpl. rewrite Em, <- app_assoc. reflexivity.
      + destruct (has_set_motor_target_position hw); [| discriminate].
        apply IH in Es. rewrite Es. simpl. rewrite Em, <- app_assoc. reflexivity. }
  cbn [time_time] in H.
  destruct (wait_loop hw clock fuel motor_targets timeout (clock (time_calls w1)) []
              _) as [[done w3] |] eqn:Ew; [| discriminate].
  destruct (wait_loop_commands _ _ _ _ _ _ _ _ Ew) as [C3 _].
  unfold same_commands in C3. simpl in C3.
  destruct (report_commands motor_targets w3) as [C4 _]. unfold same_commands in C4.
  destruct (negb (all_done motor_targets done)); inversion H; subst; simpl; congruence.
Qed.

(** X7: when the driver has neither setter for some motor of the
    assignment, [_move_motors_to_targets] raises [RuntimeError] naming that
    motor; the targets listed before it have already been sent, and no
    position is read, nothing is printed and no warning is emitted. *)
Theorem unknown_motor_raises_after_partial_send (fuel : nat)
    (before after : list (Z * Z)) (motor_idx target : Z) (timeout : Q) (w : world) :
  can_set hw before ->
  has_set_motor hw motor_idx = false ->
  has_set_motor_target_position hw = false ->
  exists w',
    _move_motors_to_targets hw clock fuel (before ++ (motor_idx, target) :: after) timeout w
      = Some (Raise (RuntimeError ("Cannot set motor " ++ str_Z motor_idx)%string), w') /\
    commands w' = commands w ++ map (command_for hw) before /\
    reads w' = reads w /\ time_calls w' = time_calls w /\
    printed w' = printed w /\ warnings w' = warnings w.
Proof.
  intros Hb Hm Hg. unfold _move_motors_to_targets.
  assert (S : exists w',
             send_targets hw (before ++ (motor_idx, target) :: after) w
               = (Raise (RuntimeError ("Cannot set motor " ++ str_Z motor_idx)%string), w') /\
             commands w' = commands w ++ map (command_for hw) before /\
             reads w' = reads w /\ time_calls w' = time_calls w /\
             printed w' = printed w /\ warnings w' = warnings w).
  { revert w Hb. unfold can_set, command_for.
    induction before as [| [m t] rest IH]; intros w Hb; simpl.
    - rewrite Hm, Hg. exists w. rewrite app_nil_r. repeat split.
    - assert (Hrest : forall motor_idx target, In (motor_idx, target) rest ->
                has_set_motor hw motor_idx = true \/
                has_set_motor_target_position hw = true)
        by (intros; eapply Hb; right; eassumption).
      destruct (Hb m t (or_introl eq_refl)) as [E | E]; [| congruence].
      rewrite E.
      destruct (IH (send (SetMotor m t) w) Hrest) as [w' [R [Cm [Rd [T [P W]]]]]].
      exists w'. rewrite R, Cm. simpl. rewrite <- app_assoc.
      repeat split; assumption. }
  destruct S as [w' [R F]]. exists w'. rewrite R. split; [reflexivity | exact F].
Qed.

Lemma poll_marks (motor_targets : list (Z * Z)) : forall done w,
  (forall m t, In (m, t) motor_targets -> always_settled hw m t) ->
  let done' := fst (poll hw motor_targets done w) in
  (forall m, is_done done m = true -> is_done done' m = true) /\
  (forall m t, In (m, t) motor_targets -> is_done done' m = true).
Proof.
  induction motor_targets as [| [m0 t0] rest IH]; intros done w H; cbv zeta; simpl.
  - split; [auto | intros ? ? []].
  - assert (Hrest : forall m t, In (m, t) rest -> always_settled hw m t)
      by (intros; apply H; right; assumption).
    destruct (is_done done m0) eqn:Ed.
    { destruct (IH done w Hrest) as [K A]. split; [exact K |].
      intros m t [E | Hin]; [inversion E; subst; apply K; exact Ed | eapply A; eauto]. }
    destruct (H m0 t0 (or_introl eq_refl)) as [Hg Hs].
    rewrite Hg. unfold read_position.
    destruct (Hs (reads w)) as [pos [Ep Ea]]. rewrite Ep.
    apply Z.leb_le in Ea. rewrite Ea.
    match goal with
    | |- context [poll hw rest ?d ?w1] => destruct (IH d w1 Hrest) as [K A]
    end.
    split.
    + intros m Hm. apply K. rewrite is_done_cons, Hm. apply orb_true_r.
    + intros m t [E | Hin]; [| eapply A; eauto].
      inversion E; subst. apply K. rewrite is_done_cons, Z.eqb_refl. reflexivity.
Qed.

(** X8: when the driver can be told every target and every motor reports a
    position within one unit of its target, and the first test of the
    [while] condition comes before the timeout, [_move_motors_to_targets]
    returns after a single round of polling (two units of fuel), with a
    final position printed for every motor and without any warning. *)
Theorem settled_motors_give_no_warning (fuel : nat) (motor_targets : list (Z * Z))
    (timeout : Q) (w : world) :
  (2 <= fuel)%nat ->
  can_set hw motor_targets ->
  (forall m t, In (m, t) motor_targets -> always_settled hw m t) ->
  clock (S (time_calls w)) - clock (time_calls w) < timeout ->
  exists w' finals,
    _move_motors_to_targets hw clock fuel motor_targets timeout w = Some (Ok tt, w') /\
    warnings w' = warnings w /\
    printed w' = printed w ++ finals /\
    map (fun r => fst (fst r)) finals = map fst motor_targets /\
    (time_calls w' <= time_calls w + 2)%nat.
Proof.
  intros Hf Hs Ha Ht. destruct fuel as [| [| f]]; try lia.
  unfold _move_motors_to_targets.
  destruct (send_targets_commands motor_targets w Hs) as [w1 [R1 [_ [T1 [_ [P1 W1]]]]]].
  rewrite R1. cbn [time_time]. rewrite T1.
  set (w2 := mkWorld _ _ _ _ _).
  assert (Rep : forall w3, printed w3 = printed w -> warnings w3 = warnings w ->
                exists finals,
                  printed (report hw motor_targets w3) = printed w ++ finals /\
                  map (fun r => fst (fst r)) finals = map fst motor_targets /\
                  warnings (report hw motor_targets w3) = warnings w).
  { intros w3 P3 W3. destruct (report_spec hw motor_targets w3) as [finals [P [Mp W]]].
    - intros m t Hin. destruct (Ha m t Hin) as [Hg Hk]. split; [exact Hg |].
      intros k E. destruct (Hk k) as [pos [Ep _]]. congruence.
    - exists finals. repeat split; congruence. }
  cbn [wait_loop].
  destruct (all_done motor_targets []) eqn:E0.
  - destruct (Rep w2) as [finals [P [Mp W]]];
      [subst w2; simpl; congruence | subst w2; simpl; congruence |].
    exists (report hw motor_targets w2), finals. rewrite E0. cbn [negb].
    repeat split; try assumption.
    rewrite (proj1 (report_times motor_targets w2)). subst w2. simpl. lia.
  - cbn [time_time]. subst w2. cbn [time_calls].
    destruct (Qlt_le_dec (clock (S (time_calls w)) - clock (time_calls w)) timeout)
      as [L | G]; [| exfalso; lra].
    set (w3 := mkWorld _ _ _ _ _).
    destruct (poll hw motor_targets [] w3) as [d2 w4] eqn:Ep.
    destruct (poll_spec hw _ _ _ _ _ Ep) as [T4 [[P4 W4] _]].
    destruct (poll_marks motor_targets [] w3 Ha) as [_ Mk]. rewrite Ep in Mk.
    cbn [fst] in Mk.
    assert (E1 : all_done motor_targets d2 = true).
    { unfold all_done. apply forallb_forall. intros [m t] Hin. simpl. eapply Mk; eauto. }
    rewrite E1. cbn [negb].
    destruct (Rep w4) as [finals [P [Mp W]]];
      [subst w3; simpl in *; congruence | subst w3; simpl in *; congruence |].
    exists (report hw motor_targets w4), finals. rewrite ?E1. cbn [negb].
    repeat split; try assumption.
    rewrite (proj1 (report_times motor_targets w4)), T4. subst w3. simpl. lia.
Qed.

(** X9: with a timeout that is not positive (and a clock that does not run
    backwards) no motor is polled: for a non-empty assignment the call warns
    "Some motors timed out" even when every motor already is at its
    target. *)
Theorem nonpositive_timeout_always_warns (fuel : nat) (motor_targets : list (Z * Z))
    (timeout : Q) (w : world) :
  (1 <= fuel)%nat ->
  motor_targets <> [] ->
  can_set hw motor_targets ->
  timeout <= 0 ->
  clock (time_calls w) <= clock (S (time_calls w)) ->
  exists w',
    _move_motors_to_targets hw clock fuel motor_targets timeout w = Some (Ok tt, w') /\
    warnings w' = warnings w ++ ["Some motors timed out"] /\
    (reads w' <= reads w + List.length motor_targets)%nat.
Proof.
  intros Hf Hne Hs Ht Hc. destruct fuel as [| f]; [lia |].
  unfold _move_motors_to_targets.
  destruct (send_targets_commands motor_targets w Hs) as [w1 [R1 [_ [T1 [Rd1 [P1 W1]]]]]].
  rewrite R1. cbn [time_time wait_loop]. rewrite T1.
  assert (E0 : all_done motor_targets [] = false).
  { destruct motor_targets as [| [m t] rest]; [congruence | reflexivity]. }
  rewrite E0. cbn [time_time time_calls].
  destruct (Qlt_le_dec (clock (S (time_calls w)) - clock (time_calls w)) timeout)
    as [L | G]; [exfalso; lra |].
  rewrite E0. cbn [negb].
  eexists. split; [reflexivity |].
  set (w3 := mkWorld _ _ _ _ _).
  destruct (report_commands motor_targets w3) as [_ W].
  pose proof (proj2 (report_times motor_targets w3)) as Rd.
  subst w3. simpl in *. split; [congruence | lia].
Qed.

(** X10: positions that cannot be read never make the call fail.  When the
    driver can be told every target, [_move_motors_to_targets] returns
    normally with enough fuel whatever the getters do (missing, raising, or
    never settling), and the only thing it may add to the warnings is the one
    line "Some motors timed out". *)
Theorem unreadable_positions_never_raise (motor_targets : list (Z * Z))
    (timeout : Q) (w : world) :
  can_set hw motor_targets ->
  sleeps clock (time_calls w) ->
  exists N, forall fuel, (N <= fuel)%nat ->
    exists w',
      _move_motors_to_targets hw clock fuel motor_targets timeout w = Some (Ok tt, w') /\
      (warnings w' = warnings w \/
       warnings w' = warnings w ++ ["Some motors timed out"]).
Proof.
  intros Hs [Mono Sl].
  exists (S (Z.to_nat (Qceiling (timeout * 20)))).
  intros fuel Hfuel. destruct fuel as [| f]; [lia |].
  unfold _move_motors_to_targets.
  destruct (send_targets_commands motor_targets w Hs) as [w1 [R1 [_ [T1 [_ [P1 W1]]]]]].
  rewrite R1. cbn [time_time]. rewrite T1.
  set (w2 := mkWorld _ _ _ _ _).
  destruct (wait_loop_spec hw clock motor_targets timeout (clock (time_calls w)) f [] w2)
    as [done [w3 [R3 [[P3 W3] _]]]].
  { subst w2. cbn [time_calls]. intros n Hn. apply Sl. lia. }
  { subst w2. cbn [time_calls].
    assert (Hc : timeout * 20 <= inject_Z (Z.of_nat f)).
    { eapply Qle_trans; [apply Qle_ceiling |].
      rewrite <- Zle_Qle. lia. }
    lra. }
  rewrite R3. destruct (report_commands motor_targets w3) as [_ W4].
  subst w2. simpl in W3.
  destruct (negb (all_done motor_targets done)); eexists; (split; [reflexivity |]).
  - right. simpl. congruence.
  - left. congruence.
Qed.
End MoveMotorsMore.

Lemma targets_are_sent_witness :
  exists w',
    _move_motors_to_targets stuck_hardware ticking_clock 30 targets_HV 1 new_world
      = Some (Ok tt, w') /\
    commands w' = [SetMotor 2 1200; SetMotor 3 0; SetMotor 1 1200; SetMotor 4 1200].
Proof.
  eexists. split; [vm_compute; reflexivity |].
  apply (targets_are_sent_in_order stuck_hardware ticking_clock 30 targets_HV 1 new_world).
  vm_compute. reflexivity.
Defined.

(** ** Targets of the settings *)

Lemma dict_find_In {V} (d : dict V) (k : string) (v : V) :
  dict_find d k = Some v -> In (k, v) d.
Proof.
  induction d as [| [k0 v0] d IH]; simpl; [discriminate |].
  destruct (String.eqb k0 k) eqn:E.
  - apply String.eqb_eq in E. subst k0. intros H. inversion H. left. reflexivity.
  - intros H. right. apply IH. exact H.
Qed.

Lemma projection_steps (q : string) (p : projection) :
  dict_item projections q = Ok p ->
  In (_angle_to_steps (qwp p)) [1200; 1800]%Z /\
  In (_angle_to_steps (pol p)) [0; 600; 1200; 1800]%Z.
Proof.
  unfold dict_item. destruct (dict_find projections q) as [p' |] eqn:E; [| discriminate].
  intros H. inversion H; subst p'. apply dict_find_In in E.
  unfold projections in E. simpl in E.
  repeat (destruct E as [E | E]; [inversion E; subst; vm_compute; tauto |]).
  contradiction.
Qed.

(** X11: whatever the name of the position, when [set_components] gets as
    far as moving the motors its targets are one per required motor, in the
    order QWP1 (motor 2), Pol1 (3), QWP2 (1), Pol2 (4), each a whole multiple
    of 600 steps between 0 and 1800, never negative; and every position of
    [positions] does get targets.  The same holds for the two motors of the
    single-qubit variant. *)
Theorem settings_have_valid_targets :
  (forall pos tg, DoubleQubit.targets pos = Ok tg ->
     map fst tg = [2; 3; 1; 4]%Z /\
     forall m st, In (m, st) tg -> In st [0; 600; 1200; 1800]%Z) /\
  (forall pos, In pos DoubleQubit.positions -> exists tg, DoubleQubit.targets pos = Ok tg) /\
  (forall pos tg, SingleQubit.targets pos = Ok tg ->
     map fst tg = [2; 3]%Z /\
     forall m st, In (m, st) tg -> In st [0; 600; 1200; 1800]%Z) /\
  (forall pos, In pos SingleQubit.positions -> exists tg, SingleQubit.targets pos = Ok tg).
Proof.
  split; [| split; [| split]].
  - intros pos tg. unfold DoubleQubit.targets, DoubleQubit.angles.
    destruct (letter pos 0) as [q1 |]; [| discriminate].
    destruct (letter pos 1) as [q2 |]; [| discriminate].
    destruct (dict_item projections q1) as [p1 |] eqn:E1; [| discriminate].
    destruct (dict_item projections q2) as [p2 |] eqn:E2; [| discriminate].
    destruct (projection_steps q1 p1 E1) as [A1 B1].
    destruct (projection_steps q2 p2 E2) as [A2 B2].
    simpl. intros H. inversion H; subst tg. split; [reflexivity |].
    intros m st Hin. simpl in Hin, A1, A2, B1, B2.
    destruct Hin as [E | [E | [E | [E | []]]]]; inversion E; subst; tauto.
  - intros pos H. unfold DoubleQubit.positions in H. simpl in H.
    repeat (destruct H as [H | H]; [subst pos; eexists; reflexivity |]).
    contradiction.
  - intros pos tg. unfold SingleQubit.targets, SingleQubit.angles.
    destruct (letter pos 0) as [q1 |]; [| discriminate].
    destruct (dict_item projections q1) as [p1 |] eqn:E1; [| discriminate].
    destruct (projection_steps q1 p1 E1) as [A1 B1].
    simpl. intros H. inversion H; subst tg. split; [reflexivity |].
    intros m st Hin. simpl in Hin, A1, B1.
    destruct Hin as [E | [E | []]]; inversion E; subst; tauto.
  - intros pos H. unfold SingleQubit.positions in H. simpl in H.
    repeat (destruct H as [H | H]; [subst pos; eexists; reflexivity |]).
    contradiction.
Qed.

Lemma settings_have_valid_targets_witness :
  map fst targets_HV = [2; 3; 1; 4]%Z /\
  (exists tg, DoubleQubit.targets "PM" = Ok tg) /\
  (exists tg, SingleQubit.targets "R" = Ok tg).
Proof.
  destruct settings_have_valid_targets as [A [B [_ D]]].
  split; [apply (A "HV" targets_HV eq_refl) |].
  split; [apply B; unfold DoubleQubit.positions; simpl; tauto |].
  apply D. unfold SingleQubit.positions. simpl. tauto.
Defined.

Section Degrees64.
Import Binary64.




End Degrees64.

(** ** Reading the file *)

Lemma fold_left_snoc {A B} (f : A -> B -> A) (l : list B) (x : B) (a : A) :
  fold_left f (l ++ [x]) a = f (fold_left f l a) x.
Proof. rewrite fold_left_app. reflexivity. Qed.

(** X20: a later row of the file replaces an earlier one for the same
    setting.  After one more row [r], the count of the setting named by
    [r] (its position stripped of white space, if it is a position of the
    experiment) is the value of [r], or 0.0 if [float] rejects it, and the
    count of every other setting is what it was; a row with an unknown
    position changes nothing. *)
Theorem last_row_wins (py_float : string -> option Q) (positions : list string)
    (column : row -> cell) (df : dataframe) (r : row) (name : string) :
  dict_get (pos_to_coinc py_float positions column (df ++ [r])) name 0 =
  if str_in (strip (Position r)) positions && String.eqb (strip (Position r)) name
  then match float_of py_float (column r) with Some x => x | None => 0 end
  else dict_get (pos_to_coinc py_float positions column df) name 0.
Proof.
  unfold pos_to_coinc. rewrite fold_left_snoc. cbv zeta.
  match goal with
  | |- context [fold_left ?f df ?a] => set (d := fold_left f df a)
  end.
  destruct (str_in (strip (Position r)) positions); [| reflexivity].
  unfold dict_get.
  destruct (float_of py_float (column r)) as [x |]; rewrite dict_find_set;
    destruct (String.eqb (strip (Position r)) name); reflexivity.
Qed.

(** ** The range of the parameters *)

Lemma Some_inj {A} (a b : A) : Some a = Some b -> a = b.
Proof. intros H. inversion H. reflexivity. Qed.

(** ** Equal frequencies give equal results *)

Lemma stokes2_eq_trans (T1 T2 T3 : stokes2) :
  stokes2_eq T1 T2 -> stokes2_eq T2 T3 -> stokes2_eq T1 T3.
Proof.
  unfold stokes2_eq. intros H1 H2.
  repeat split; (eapply Qeq_trans; [apply H1 | apply H2]).
Qed.

Lemma stokes_proper (f f' : string -> Q) :
  (forall key, In key DoubleQubit.keys_used -> f key == f' key) ->
  stokes2_eq (DoubleQubit.stokes f) (DoubleQubit.stokes f').
Proof.
  intros H.
  assert (K : Forall (fun key => f key == f' key) DoubleQubit.keys_used)
    by (apply Forall_forall; exact H).
  unfold DoubleQubit.keys_used in K.
  repeat match goal with
         | K : Forall _ (_ :: _) |- _ =>
             let E := fresh "E" in
             let K' := fresh "K" in
             pose proof (Forall_inv K) as E; pose proof (Forall_inv_tail K) as K';
             cbv beta in E; clear K
         end.
  unfold stokes2_eq.
  cbn [DoubleQubit.stokes
       T00 TZZ TXX TYY TZ0 T0Z TX0 T0X TY0 T0Y TXZ TZX TXY TYX TZY TYZ].
  change (1 / 3) with (1 # 3). repeat split; lra.
Qed.

Lemma assemble_proper (T T' : stokes2) :
  stokes2_eq T T' ->
  let r := diagnostics (DoubleQubit.assemble_rho T) in
  let r' := diagnostics (DoubleQubit.assemble_rho T') in
  (forall i j, (entry (rho r) i j == entry (rho r') i j)%C) /\
  purity r == purity r' /\
  hermiticity2 r == hermiticity2 r'.
Proof.
  destruct T, T'. unfold stokes2_eq. cbn [T00 TZZ TXX TYY TZ0 T0Z TX0 T0X TY0 T0Y
                                          TXZ TZX TXY TYX TZY TYZ].
  intros [E1 [E2 [E3 [E4 [E5 [E6 [E7 [E8 [E9 [E10 [E11 [E12 [E13 [E14 [E15 E16]]]]]]]]]]]]]]].
  cbv zeta. split; [| split].
  - intros i j.
    destruct i as [| [| [| [| i]]]]; destruct j as [| [| [| [| j]]]];
      unfold_arrays; change (1 / 4) with (1 # 4);
      try (destruct i); try (destruct j); split; lra.
  - unfold_arrays.
    rewrite E1, E2, E3, E4, E5, E6, E7, E8, E9, E10, E11, E12, E13, E14, E15, E16.
    reflexivity.
  - unfold_arrays.
    rewrite E1, E2, E3, E4, E5, E6, E7, E8, E9, E10, E11, E12, E13, E14, E15, E16.
    reflexivity.
Qed.

Lemma keys_come_from_groups key :
  In key DoubleQubit.keys_used ->
  exists g outcomes o,
    In (g, outcomes) DoubleQubit.groups /\ In o outcomes /\ key = lower o.
Proof.
  intros H.
  assert (A : forallb
                (fun k => existsb
                            (fun gr => existsb (fun o => String.eqb (lower o) k) (snd gr))
                            DoubleQubit.groups)
                DoubleQubit.keys_used = true) by reflexivity.
  rewrite forallb_forall in A. specialize (A key H).
  apply existsb_exists in A. destruct A as [[g outcomes] [Hg A]].
  apply existsb_exists in A. destruct A as [o [Ho E]].
  apply String.eqb_eq in E. exists g, outcomes, o. auto.
Qed.

Lemma table2_C (py_float : string -> option Q) (c : string -> Q) (pos : string) :
  In pos DoubleQubit.positions ->
  DoubleQubit.C_of py_float (table2 c) pos = c pos.
Proof.
  intros H. unfold DoubleQubit.positions in H. simpl in H.
  repeat (destruct H as [H | H]; [subst pos; reflexivity |]).
  contradiction.
Qed.

(** X21: a file with the same count [c], not zero, for every one of the 36
    settings reconstructs the maximally mixed state: every parameter but T00
    is 0, the matrix is the identity divided by 4, the purity is 1/4 and the
    hermiticity defect is 0. *)
Theorem uniform_counts_give_the_mixed_state (py_float : string -> option Q) (c : Q) :
  ~ c == 0 ->
  exists freq r,
    returns (DoubleQubit.frequencies py_float (table2 (fun _ => c))) = Some freq /\
    returns (DoubleQubit.calc_results py_float (table2 (fun _ => c))) = Some r /\
    stokes2_eq (DoubleQubit.stokes (fun k => dict_get freq k 0))
               (mkStokes2 1 0 0 0 0 0 0 0 0 0 0 0 0 0 0 0) /\
    (forall i j, in_range i j ->
                 (entry (rho r) i j == RtoC (if Nat.eqb i j then 1 # 4 else 0))%C) /\
    purity r == 1 # 4 /\
    hermiticity2 r == 0.
Proof.
  intros Hc.
  set (df := table2 (fun _ => c)).
  set (C := DoubleQubit.C_of py_float df).
  assert (HC : forall pos, In pos DoubleQubit.positions -> C pos = c)
    by (intros pos H; apply (table2_C py_float (fun _ => c) pos H)).
  assert (Hden : forall g outcomes, In (g, outcomes) DoubleQubit.groups ->
                   DoubleQubit.den_of C outcomes == 4 * c).
  { intros g outcomes Hg.
    destruct (groups_have_four g outcomes Hg) as [a [b [x [d E]]]]. subst outcomes.
    unfold DoubleQubit.den_of. cbn [map fold_left].
    rewrite !HC by (apply (members_are_positions g _ _ Hg); simpl; auto). ring. }
  unfold returns.
  destruct (double_calc_cases py_float df)
    as [extra [[RF [RC _]] | [msg [_ [_ [g [outcomes [Hg Hz]]]]]]]].
  2:{ exfalso. fold C in Hz. rewrite (Hden g outcomes Hg) in Hz.
      apply Hc. lra. }
  fold C in RF, RC. rewrite RF, RC. cbn [fst].
  do 2 eexists. split; [reflexivity |]. split; [reflexivity |].
  assert (F : forall key, In key DoubleQubit.keys_used ->
                dict_get (fill (frequency C) DoubleQubit.groups []) key 0 == 1 # 4).
  { intros key Hkey.
    destruct (keys_come_from_groups key Hkey) as [g [outcomes [o [Hg [Ho E]]]]].
    subst key. unfold dict_get.
    rewrite (fill_lookup (frequency C) g outcomes o Hg Ho).
    unfold frequency. rewrite (Hden g outcomes Hg).
    rewrite (HC o (members_are_positions g outcomes o Hg Ho)).
    field. exact Hc. }
  pose proof (stokes_proper _ (fun _ => 1 # 4) F) as SP.
  destruct (assemble_proper _ _ SP) as [En [Pu He]]. cbv zeta in En, Pu, He.
  split; [| split; [| split]].
  - apply (stokes2_eq_trans _ _ _ SP). vm_compute. repeat split.
  - intros i j [Hi Hj]. destruct (En i j) as [Er Ei].
    split; [rewrite Er | rewrite Ei];
      destruct i as [| [| [| [| i]]]]; try lia;
      destruct j as [| [| [| [| j]]]]; try lia; vm_compute; reflexivity.
  - rewrite Pu. vm_compute. reflexivity.
  - rewrite He. vm_compute. reflexivity.
Qed.

(** X19: with counts that are not negative, the three parameters the
    single-qubit reconstruction computes lie between -1 and 1. *)
Theorem single_parameters_are_bounded (py_float : string -> option Q) (df : dataframe)
    (TX TY TZ : Q) :
  let C := SingleQubit.C_of py_float df in
  (forall pos, In pos SingleQubit.positions -> 0 <= C pos) ->
  returns (SingleQubit.stokes C) = Some (TX, TY, TZ) ->
  (-1 <= TX /\ TX <= 1) /\ (-1 <= TY /\ TY <= 1) /\ (-1 <= TZ /\ TZ <= 1).
Proof.
  cbv zeta. set (C := SingleQubit.C_of py_float df). intros Hnn. unfold returns.
  destruct (single_stokes_cases C []) as [[_ R] | [N1 [N2 [N3 R]]]];
    rewrite R; cbn [fst]; intros E; [discriminate |].
  apply Some_inj in E.
  assert (B : forall a b, 0 <= a -> 0 <= b -> ~ a + b == 0 ->
              -1 <= (a - b) / (a + b) /\ (a - b) / (a + b) <= 1).
  { intros a b Ha Hb Hn.
    assert (Hp : 0 < a + b).
    { destruct (Qlt_le_dec 0 (a + b)) as [L | G]; [exact L |].
      exfalso. apply Hn. lra. }
    split; [apply Qle_shift_div_l | apply Qle_shift_div_r]; try exact Hp; lra. }
  assert (In "H" SingleQubit.positions /\ In "V" SingleQubit.positions /\
          In "P" SingleQubit.positions /\ In "M" SingleQubit.positions /\
          In "R" SingleQubit.positions /\ In "L" SingleQubit.positions)
    as [IH [IV [IP [IM [IR IL]]]]]
    by (unfold SingleQubit.positions; simpl; tauto).
  inversion E; subst TX TY TZ.
  repeat split; apply B; auto.
Qed.

Lemma single_parameters_witness :
  exists TX TY TZ,
    returns (SingleQubit.stokes (SingleQubit.C_of no_text (table1 1 1 1 1 3 1)))
      = Some (TX, TY, TZ) /\
    (-1 <= TX /\ TX <= 1) /\ (-1 <= TY /\ TY <= 1) /\ (-1 <= TZ /\ TZ <= 1).
Proof.
  do 3 eexists. split; [reflexivity |].
  apply (single_parameters_are_bounded no_text (table1 1 1 1 1 3 1)).
  - intros pos H. unfold SingleQubit.positions in H. simpl in H.
    repeat (destruct H as [H | H]; [subst pos; vm_compute; discriminate |]).
    contradiction.
  - reflexivity.
Defined.

(** ** The warnings of the two-qubit reconstruction *)

Lemma for_each_warns_count (P : string -> bool) (msg : string) (xs : list string) :
  forall w,
    for_each xs (fun o => if P o then warn msg else ret tt) w
    = (Ok tt, w ++ repeat msg (List.length (filter P xs))).
Proof.
  induction xs as [| x xs IH]; intros w; cbn [for_each filter].
  - simpl. rewrite app_nil_r. reflexivity.
  - destruct (P x) eqn:Ex.
    + rewrite (bind_ok _ _ w tt (w ++ [msg])) by reflexivity.
      cbv beta. rewrite IH, <- app_assoc. reflexivity.
    + rewrite (bind_ok _ _ w tt w) by reflexivity. cbv beta. apply IH.
Qed.

Lemma freq_loop_warnings (C : string -> Q) (gs : dict (list string)) : forall freq w,
  (forall g outcomes, In (g, outcomes) gs -> ~ DoubleQubit.den_of C outcomes == 0) ->
  snd (DoubleQubit.freq_loop C gs freq w)
  = w ++ repeat "No coincidence for position {o}"
           (List.length (filter (fun o => Qeq_bool (C o) 0) (List.concat (map snd gs)))).
Proof.
  induction gs as [| [g outcomes] gs IH]; intros freq w Nz.
  - simpl. rewrite app_nil_r. reflexivity.
  - cbn [DoubleQubit.freq_loop].
    rewrite (bind_ok _ _ _ _ _
               (for_each_warns_count (fun o => Qeq_bool (C o) 0) _ outcomes w)).
    destruct (Qeq_bool (DoubleQubit.den_of C outcomes) 0) eqn:Ed.
    { exfalso. apply (Nz g outcomes (or_introl eq_refl)).
      apply Qeq_bool_iff. exact Ed. }
    rewrite IH by (intros; eapply Nz; right; eassumption).
    cbn [map snd List.concat]. rewrite filter_app, length_app, repeat_app, app_assoc.
    reflexivity.
Qed.

(** X22: the text of a warning never names the setting: every warning of
    the two-qubit reconstruction is the literal line
    "No coincidence for position {o}", braces included; and when the
    reconstruction returns, there is one such line for every setting of the
    nine groups whose count is zero. *)
Theorem warnings_do_not_name_the_setting (py_float : string -> option Q) (df : dataframe) :
  (forall line, In line (warned (DoubleQubit.calc_results py_float df)) ->
                line = "No coincidence for position {o}") /\
  (returns (DoubleQubit.calc_results py_float df) <> None ->
   warned (DoubleQubit.calc_results py_float df)
   = repeat "No coincidence for position {o}"
       (List.length (filter (fun o => Qeq_bool (DoubleQubit.C_of py_float df o) 0)
                            (List.concat (map snd DoubleQubit.groups))))).
Proof.
  unfold warned, returns.
  assert (W : snd (DoubleQubit.calc_results py_float df [])
              = snd (DoubleQubit.frequencies py_float df [])).
  { destruct (double_calc_cases py_float df)
      as [extra [[RF [RC _]] | [msg [RF [RC _]]]]]; rewrite RF, RC; reflexivity. }
  rewrite W. split.
  - unfold DoubleQubit.frequencies.
    destruct (freq_loop_cases (DoubleQubit.C_of py_float df) DoubleQubit.groups [] [])
      as [extra [All [[R _] | [msg [R _]]]]]; rewrite R; cbn [snd]; exact All.
  - destruct (double_calc_cases py_float df)
      as [extra [[RF [RC [Nz _]]] | [msg [_ [RC _]]]]]; rewrite RC; cbn [fst];
      intros H; [| congruence].
    unfold DoubleQubit.frequencies.
    rewrite (freq_loop_warnings _ _ [] [] Nz). reflexivity.
Qed.

(** ** The command line *)

Lemma split_on_shape (s : string) :
  split_on "=" s =
  before_eq s :: match after_eq s with
                 | None => []
                 | Some rest => split_on "=" rest
                 end.
Proof.
  induction s as [| c s IH]; simpl; [reflexivity |].
  destruct (Ascii.eqb c "="); [reflexivity |].
  rewrite IH. reflexivity.
Qed.

Lemma cli_step_spec (tokens : dict string) (arg : string) :
  cli_step tokens arg = dict_set tokens (before_eq arg) (arg_value arg).
Proof.
  unfold cli_step, arg_value. rewrite split_on_shape.
  destruct (after_eq arg) as [rest |]; [| reflexivity].
  rewrite split_on_shape. reflexivity.
Qed.

Lemma before_eq_has_no_eq (s : string) : has_eq (before_eq s) = false.
Proof.
  unfold has_eq. induction s as [| c s IH]; cbn [before_eq]; [reflexivity |].
  destruct (Ascii.eqb c "=") eqn:E; cbn [list_ascii_of_string existsb]; [reflexivity |].
  rewrite Ascii.eqb_sym, E. exact IH.
Qed.

Lemma arg_value_has_no_eq (arg : string) : has_eq (arg_value arg) = false.
Proof.
  unfold arg_value. destruct (after_eq arg); [apply before_eq_has_no_eq | reflexivity].
Qed.

Lemma in_dict_set {V} (d : dict V) (k0 : string) (v0 : V) (k : string) (v : V) :
  In (k, v) (dict_set d k0 v0) -> (k, v) = (k0, v0) \/ In (k, v) d.
Proof.
  induction d as [| [k1 v1] d IH]; simpl.
  - intros [H | []]. left. congruence.
  - destruct (String.eqb k1 k0); simpl.
    + intros [H | H]; [left; congruence | right; right; exact H].
    + intros [H | H]; [right; left; exact H |].
      destruct (IH H) as [E | I]; [left; exact E | right; right; exact I].
Qed.

(** X23: what [cli_parse] keeps of the command line.  The value stored
    under a key is given by the last argument whose text before the first
    [=] is that key: it is the text between the first and the second [=] of
    that argument (what follows a second [=] is dropped) or ["NAN"] when the
    argument has no [=]; and neither a key nor a value ever contains [=]. *)
Theorem cli_parse_keeps_the_last_argument (program : string) (args : list string)
    (arg key : string) :
  dict_find (cli_parse (program :: args ++ [arg])) key =
    (if String.eqb (before_eq arg) key then Some (arg_value arg)
     else dict_find (cli_parse (program :: args)) key) /\
  (forall k v, In (k, v) (cli_parse (program :: args)) ->
               has_eq k = false /\ has_eq v = false).
Proof.
  unfold cli_parse. cbn [tl]. split.
  - rewrite fold_left_snoc, cli_step_spec. apply dict_find_set.
  - assert (G : forall tokens,
               (forall k v, In (k, v) tokens -> has_eq k = false /\ has_eq v = false) ->
               forall k v, In (k, v) (fold_left cli_step args tokens) ->
                           has_eq k = false /\ has_eq v = false).
    { induction args as [| a args IH]; intros tokens H k v Hin; cbn [fold_left] in Hin.
      - exact (H k v Hin).
      - apply (IH (cli_step tokens a)); [| exact Hin].
        intros k' v' Hin'. rewrite cli_step_spec in Hin'.
        apply in_dict_set in Hin'. destruct Hin' as [E | I]; [| exact (H k' v' I)].
        inversion E; subst. split; [apply before_eq_has_no_eq | apply arg_value_has_no_eq]. }
    apply G. intros k v [].
Qed.

Lemma cli_parse_witness :
  dict_find (cli_parse ["tom.py"; "-n=5"; "--out=a=b"]) "--out" = Some "a" /\
  dict_find (cli_parse ["tom.py"; "-n=5"; "--offline"]) "--offline" = Some "NAN" /\
  has_eq "--out" = false.
Proof.
  split; [| split].
  - exact (proj1 (cli_parse_keeps_the_last_argument "tom.py" ["-n=5"] "--out=a=b" "--out")).
  - exact (proj1 (cli_parse_keeps_the_last_argument "tom.py" ["-n=5"] "--offline"
                    "--offline")).
  - apply (proj2 (cli_parse_keeps_the_last_argument "tom.py" ["--out=a"] "x" "y")
                 "--out" "a").
    left. reflexivity.
Defined.

Section OptionsProofs.
Variable py_int : string -> option Z.

Lemma option_step_cases (cfg : config) (key val : string) :
  match option_step py_int cfg key val with
  | Configured cfg' =>
      In key setting_options /\
      (online cfg' = false <-> online cfg = false \/ key = "--offline") /\
      ((exists base, file_name cfg = (base ++ ".csv")%string) ->
       exists base, file_name cfg' = (base ++ ".csv")%string)
  | Exited => In key leaving_options
  | IntValueError k v => k = key /\ v = val /\ py_int val = None
  | NotImplemented k =>
      k = key /\ ~ In key setting_options /\ ~ In key leaving_options
  end.
Proof.
  unfold option_step, setting_options, leaving_options.
  repeat match goal with
         | |- context [String.eqb key ?lit] =>
             let E := fresh "E" in
             destruct (String.eqb key lit) eqn:E;
             [apply String.eqb_eq in E | apply String.eqb_neq in E]
         end;
    cbn [orb];
    try (destruct (py_int val) eqn:Ep);
    cbn [online file_name In];
    try subst key;
    repeat split; auto 12;
    try (intros [H | H]; [exact H | discriminate]);
    try (intros ? ; tauto);
    try (intros _; eexists; reflexivity);
    try (intros H; tauto);
    try (intuition congruence).
Qed.

Lemma read_options_outcomes (args : dict string) :
  match read_options py_int args default_config with
  | Configured cfg =>
      (forall key, In key (map fst args) -> In key setting_options) /\
      (online cfg = false <-> In "--offline" (map fst args)) /\
      exists base, file_name cfg = (base ++ ".csv")%string
  | Exited => exists key, In key (map fst args) /\ In key leaving_options
  | IntValueError key val => In (key, val) args /\ py_int val = None
  | NotImplemented key =>
      In key (map fst args) /\ ~ In key setting_options /\ ~ In key leaving_options
  end.
Proof.
  assert (G : forall cfg0,
             match read_options py_int args cfg0 with
             | Configured cfg =>
                 (forall key, In key (map fst args) -> In key setting_options) /\
                 (online cfg = false <->
                  online cfg0 = false \/ In "--offline" (map fst args)) /\
                 ((exists base, file_name cfg0 = (base ++ ".csv")%string) ->
                  exists base, file_name cfg = (base ++ ".csv")%string)
             | Exited => exists key, In key (map fst args) /\ In key leaving_options
             | IntValueError key val => In (key, val) args /\ py_int val = None
             | NotImplemented key =>
                 In key (map fst args) /\ ~ In key setting_options /\
                 ~ In key leaving_options
             end).
  { induction args as [| [k v] rest IH]; intros cfg0; cbn [read_options map fst].
    - split; [intros ? [] | split; [| auto]]. cbn [In]. tauto.
    - pose proof (option_step_cases cfg0 k v) as S.
      destruct (option_step py_int cfg0 k v) as [cfg1 | | k' v' | k'].
      + destruct S as [Sk [So Sf]]. specialize (IH cfg1).
        destruct (read_options py_int rest cfg1) as [cfg | | k' v' | k'].
        * destruct IH as [Ik [Io If]]. split; [| split].
          -- intros key [E | H]; [subst; exact Sk | apply Ik; exact H].
          -- rewrite Io, So. cbn [In]. split; intros H; intuition (subst; auto).
          -- intros H. apply If, Sf, H.
        * destruct IH as [key [H1 H2]]. exists key. split; [right; exact H1 | exact H2].
        * destruct IH as [H1 H2]. split; [right; exact H1 | exact H2].
        * destruct IH as [H1 H2]. split; [right; exact H1 | exact H2].
      + exists k. split; [left; reflexivity | exact S].
      + destruct S as [E1 [E2 Ep]]. subst. split; [left; reflexivity | exact Ep].
      + destruct S as [E1 S]. subst. split; [left; reflexivity | exact S]. }
  specialize (G default_config).
  destruct (read_options py_int args default_config) as [cfg | | k' v' | k']; try exact G.
  destruct G as [Gk [Go Gf]]. split; [exact Gk | split].
  - rewrite Go. cbn [online default_config]. split; [intros [H | H]; [discriminate | exact H] | auto].
  - apply Gf. exists "tomography_counts". reflexivity.
Qed.

(** X24: how the loop of the main block over the parsed arguments can end.
    The experiment is configured only if every argument is one of the ten
    spellings that set a variable; the program leaves only for one of the
    three spellings of the help and the set-up; [ValueError] comes from a
    value [int] rejects; and [NotImplementedError] names an argument that is
    none of the thirteen spellings.  When the loop runs through, the run is
    offline exactly when [--offline] was given, and the name of the data
    file ends in ".csv". *)
Theorem options_loop_outcomes (argv : list string) :
  let keys := map fst (cli_parse argv) in
  match main_options py_int argv with
  | Configured cfg =>
      (forall key, In key keys -> In key setting_options) /\
      (online cfg = false <-> In "--offline" keys) /\
      exists base, file_name cfg = (base ++ ".csv")%string
  | Exited => exists key, In key keys /\ In key leaving_options
  | IntValueError key val => In (key, val) (cli_parse argv) /\ py_int val = None
  | NotImplemented key =>
      In key keys /\ ~ In key setting_options /\ ~ In key leaving_options
  end.
Proof. exact (read_options_outcomes (cli_parse argv)). Qed.
End OptionsProofs.

Lemma options_loop_witness :
  exists cfg,
    main_options decimal_int ["tom.py"; "-n=5"; "--offline"] = Configured cfg /\
    online cfg = false /\ n_samples cfg = 5%Z.
Proof.
  pose proof (options_loop_outcomes decimal_int ["tom.py"; "-n=5"; "--offline"]) as H.
  assert (E : main_options decimal_int ["tom.py"; "-n=5"; "--offline"]
              = Configured (mkConfig 5 5 "tomography_counts.csv" 2 2 false))
    by (vm_compute; reflexivity).
  rewrite E in H. cbv zeta in H. destruct H as [_ [Ho _]].
  eexists. split; [exact E |]. split; [| reflexivity].
  apply Ho. vm_compute. tauto.
Defined.

(** ** Averages and the time left *)

Lemma py_sum_bounds (xs : list (option sample)) (lo hi : Z) :
  (forall x, In x xs -> x <> None) ->
  (forall s, In (Some s) xs -> (lo <= value s <= hi)%Z) ->
  exists total,
    py_sum xs = Some total /\
    (Z.of_nat (List.length xs) * lo <= total <= Z.of_nat (List.length xs) * hi)%Z.
Proof.
  induction xs as [| [s |] xs IH]; intros Hn Hb.
  - exists 0%Z. split; [reflexivity | simpl; lia].
  - destruct IH as [total [E B]];
      [intros; apply Hn; right; assumption | intros; apply Hb; right; assumption |].
    exists (value s + total)%Z. cbn [py_sum]. rewrite E. split; [reflexivity |].
    specialize (Hb s (or_introl eq_refl)).
    cbn [List.length]. rewrite Nat2Z.inj_succ. nia.
  - exfalso. apply (Hn None); [left; reflexivity | reflexivity].
Qed.

Lemma average_bounds (xs : list (option sample)) (lo hi : Z) :
  (forall x, In x xs -> x <> None) ->
  exists m,
    average xs = Some m /\
    (xs = [] -> m == 0) /\
    (xs <> [] -> (forall s, In (Some s) xs -> (lo <= value s <= hi)%Z) ->
     inject_Z lo <= m /\ m <= inject_Z hi).
Proof.
  intros Hn. destruct xs as [| x xs].
  - exists 0. split; [reflexivity | split; [intros _; reflexivity | intros H; congruence]].
  - set (ys := x :: xs) in *.
    assert (Hs : exists total, py_sum ys = Some total).
    { clear -Hn. induction ys as [| [s |] ys IH].
      - exists 0%Z. reflexivity.
      - destruct IH as [t E]; [intros; apply Hn; right; assumption |].
        exists (value s + t)%Z. cbn [py_sum]. rewrite E. reflexivity.
      - exfalso. apply (Hn None); [left; reflexivity | reflexivity]. }
    destruct Hs as [total Et].
    exists (inject_Z total / inject_Z (Z.of_nat (List.length ys))).
    split; [| split].
    + unfold average. subst ys. fold (py_sum (x :: xs)). rewrite Et. reflexivity.
    + subst ys. discriminate.
    + intros _ Hb. destruct (py_sum_bounds ys lo hi Hn Hb) as [t' [E' B]].
      rewrite Et in E'. inversion E'; subst t'.
      assert (Hlen : 0 < inject_Z (Z.of_nat (List.length ys))).
      { subst ys. cbn [List.length]. rewrite Nat2Z.inj_succ.
        change 0 with (inject_Z 0). rewrite <- Zlt_Qlt. lia. }
      split; [apply Qle_shift_div_l | apply Qle_shift_div_r]; try exact Hlen;
        rewrite <- inject_Z_mult, <- Zle_Qle; lia.
Qed.

(** X25: the averages [save_csv] writes are always defined for what the
    acquisition loops recorded: [sum] never meets a [None], an empty series
    gives 0, and the average of a series that is not empty lies between any
    lower and upper bound of its counts.  This holds for every series of
    every position after every interleaving, in both loops. *)
Theorem averages_of_recorded_series (tr : list event) (p : string) (k : chan)
    (lo hi : Z) :
  forall repetition,
    repetition = DoubleQubit.repetition \/ repetition = SingleQubit.repetition ->
    let xs := series (data (run_trace repetition tr) p) k in
    exists m,
      average xs = Some m /\
      (xs = [] -> m == 0) /\
      (xs <> [] -> (forall s, In (Some s) xs -> (lo <= value s <= hi)%Z) ->
       inject_Z lo <= m /\ m <= inject_Z hi).
Proof.
  intros repetition Hr. cbv zeta. apply average_bounds. unfold run_trace.
  destruct Hr; subst repetition.
  - destruct (latch_inv_run 0 tr new_collector latch_inv_new) as [_ I2 _ _].
    intros x Hx. destruct (I2 k p x Hx) as [s [E _]]. congruence.
  - destruct (single_only_ch1_run tr 0 new_collector p) as [A [B N]].
    destruct k.
    + apply N. intros x [].
    + rewrite A by reflexivity. intros x [].
    + rewrite B by reflexivity. intros x [].
Qed.

Lemma py_trunc_nonneg (x : Q) : 0 <= x -> (0 <= py_trunc x)%Z.
Proof.
  unfold py_trunc, Qle. simpl. intros H. apply Z.quot_pos; lia.
Qed.

(** X26: the time left that [run] prints is well formed.  For a position of
    the list, a sample count that is not negative and clock differences that
    are not negative, the estimate [eta_seconds] is not negative, and the
    three numbers printed as h:mm:ss recompose to it, with minutes and
    seconds between 0 and 59 and hours not negative. *)
Theorem time_left_is_well_formed (samples total_positions idx : Z)
    (elapsed_total time_in_current : Q) :
  (0 <= samples)%Z ->
  (0 <= idx < total_positions)%Z ->
  0 <= elapsed_total ->
  let eta := eta_seconds samples total_positions idx elapsed_total time_in_current in
  let '(h, m, s) := hms eta in
  (0 <= eta)%Z /\
  eta = (3600 * h + 60 * m + s)%Z /\
  (0 <= h)%Z /\ (0 <= m < 60)%Z /\ (0 <= s < 60)%Z.
Proof.
  intros Hs Hi He. cbv zeta.
  assert (Heta : (0 <= eta_seconds samples total_positions idx elapsed_total
                          time_in_current)%Z).
  { unfold eta_seconds. apply py_trunc_nonneg.
    set (avg := if (idx + 1 <=? 3)%Z then inject_Z samples * (1 # 10)
                else elapsed_total / inject_Z (idx + 1)).
    assert (Havg : 0 <= avg).
    { unfold avg. destruct (idx + 1 <=? 3)%Z.
      - apply Qmult_le_0_compat; [| discriminate].
        change 0 with (inject_Z 0). rewrite <- Zle_Qle. exact Hs.
      - apply Qle_shift_div_l.
        + change 0 with (inject_Z 0). rewrite <- Zlt_Qlt. lia.
        + rewrite Qmult_0_l. exact He. }
    assert (Hrem : 0 <= inject_Z (total_positions - (idx + 1))).
    { change 0 with (inject_Z 0). rewrite <- Zle_Qle. lia. }
    pose proof (Qmult_le_0_compat _ _ Hrem Havg) as Hprod.
    destruct (Qlt_le_dec (avg - time_in_current) 0); lra. }
  set (eta := eta_seconds samples total_positions idx elapsed_total time_in_current) in *.
  unfold hms.
  pose proof (Z.div_mod eta 3600 ltac:(lia)) as D1.
  pose proof (Z.mod_pos_bound eta 3600 ltac:(lia)) as B1.
  pose proof (Z.div_mod (eta mod 3600) 60 ltac:(lia)) as D2.
  pose proof (Z.mod_pos_bound (eta mod 3600) 60 ltac:(lia)) as B2.
  assert (M : ((eta mod 3600) mod 60 = eta mod 60)%Z).
  { apply Z.mod_mod_divide. exists 60%Z. reflexivity. }
  pose proof (Z.div_pos eta 3600 Heta ltac:(lia)) as H1.
  pose proof (Z.div_pos (eta mod 3600) 60 ltac:(lia) ltac:(lia)) as H2.
  assert (H3 : ((eta mod 3600) / 60 < 60)%Z)
    by (apply Z.div_lt_upper_bound; lia).
  rewrite <- M. repeat split; try lia.
Qed.

(** ** Counts that are NaN *)

Section NaNCounts.
Import Binary64.



End NaNCounts.

(** ** Further theorems at concrete inputs *)

Lemma double_latch_witness :
  In (Some (mkSample 0 7))
     (series (data (run_trace DoubleQubit.repetition one_sample_trace) "HH") Ch1) /\
  Some (mkSample 0 7) <> None.
Proof.
  split; [left; reflexivity |].
  apply (proj1 (double_qubit_latch_discipline one_sample_trace Ch1) "HH").
  left. reflexivity.
Defined.

Lemma single_records_witness :
  series (data (run_trace SingleQubit.repetition one_sample_trace) "HH") Ch2 = [] /\
  Some (mkSample 0 7) <> None.
Proof.
  destruct (single_qubit_records_only_ch1 one_sample_trace "HH") as [A [_ N]].
  split; [exact A |]. apply N. left. reflexivity.
Defined.

Lemma unknown_motor_witness :
  exists w',
    _move_motors_to_targets four_motor_hardware ticking_clock 5
      ([(2, 1200)] ++ (7, 100) :: [(3, 0)])%Z 1 new_world
      = Some (Raise (RuntimeError ("Cannot set motor " ++ str_Z 7)%string), w') /\
    commands w' = commands new_world ++ map (command_for four_motor_hardware) [(2, 1200)]%Z /\
    reads w' = reads new_world /\ time_calls w' = time_calls new_world /\
    printed w' = printed new_world /\ warnings w' = warnings new_world.
Proof.
  apply (unknown_motor_raises_after_partial_send four_motor_hardware ticking_clock 5
           [(2, 1200)]%Z [(3, 0)]%Z 7 100 1 new_world).
  - intros m t [H | []]. inversion H; subst. left. reflexivity.
  - reflexivity.
  - reflexivity.
Defined.

Lemma stuck_hardware_settled (m t : Z) :
  In (m, t) [(3, 0); (2, 1)]%Z -> always_settled stuck_hardware m t.
Proof.
  intros [H | [H | []]]; inversion H; subst; (split; [reflexivity |]);
    intros k; exists 0%Z; (split; [reflexivity | simpl; lia]).
Qed.

Lemma stuck_hardware_can_set (motor_targets : list (Z * Z)) :
  can_set stuck_hardware motor_targets.
Proof. intros m t _. left. reflexivity. Qed.

Lemma settled_motors_witness :
  exists w' finals,
    _move_motors_to_targets stuck_hardware ticking_clock 2 [(3, 0); (2, 1)]%Z 1 new_world
      = Some (Ok tt, w') /\
    warnings w' = warnings new_world /\
    printed w' = printed new_world ++ finals /\
    map (fun r => fst (fst r)) finals = map fst [(3, 0); (2, 1)]%Z /\
    (time_calls w' <= time_calls new_world + 2)%nat.
Proof.
  apply (settled_motors_give_no_warning stuck_hardware ticking_clock 2
           [(3, 0); (2, 1)]%Z 1 new_world).
  - lia.
  - apply stuck_hardware_can_set.
  - exact stuck_hardware_settled.
  - reflexivity.
Defined.

Lemma nonpositive_timeout_witness :
  exists w',
    _move_motors_to_targets stuck_hardware ticking_clock 1 [(3, 0)]%Z 0 new_world
      = Some (Ok tt, w') /\
    warnings w' = warnings new_world ++ ["Some motors timed out"] /\
    (reads w' <= reads new_world + List.length [(3, 0)]%Z)%nat.
Proof.
  apply (nonpositive_timeout_always_warns stuck_hardware ticking_clock 1
           [(3, 0)]%Z 0 new_world).
  - lia.
  - discriminate.
  - apply stuck_hardware_can_set.
  - discriminate.
  - discriminate.
Defined.

Lemma unreadable_positions_witness :
  exists N, forall fuel, (N <= fuel)%nat ->
    exists w',
      _move_motors_to_targets stuck_hardware ticking_clock fuel targets_HV 1 new_world
        = Some (Ok tt, w') /\
      (warnings w' = warnings new_world \/
       warnings w' = warnings new_world ++ ["Some motors timed out"]).
Proof.
  apply (unreadable_positions_never_raise stuck_hardware ticking_clock targets_HV 1
           new_world).
  - apply stuck_hardware_can_set.
  - exact (ticking_clock_sleeps 0).
Defined.

Lemma assemble_rho_witness :
  (entry (DoubleQubit.assemble_rho only_TZX) 0 0 == entry (Spec.pauli_sum only_TZX) 0 0)%C.
Proof.
  apply (proj1 (assemble_rho_vs_pauli_sum only_TZX) 0%nat 0%nat).
  - split; lia.
  - discriminate.
  - discriminate.
Defined.

Lemma uniform_counts_witness :
  exists freq r,
    returns (DoubleQubit.frequencies no_text (table2 (fun _ => 2))) = Some freq /\
    returns (DoubleQubit.calc_results no_text (table2 (fun _ => 2))) = Some r /\
    stokes2_eq (DoubleQubit.stokes (fun k => dict_get freq k 0))
               (mkStokes2 1 0 0 0 0 0 0 0 0 0 0 0 0 0 0 0) /\
    (forall i j, in_range i j ->
                 (entry (rho r) i j == RtoC (if Nat.eqb i j then 1 # 4 else 0))%C) /\
    purity r == 1 # 4 /\
    hermiticity2 r == 0.
Proof.
  apply (uniform_counts_give_the_mixed_state no_text 2). discriminate.
Defined.

Lemma warnings_witness :
  warned (DoubleQubit.calc_results no_text (table2 no_HH))
  = repeat "No coincidence for position {o}"
      (List.length (filter (fun o => Qeq_bool (DoubleQubit.C_of no_text (table2 no_HH) o) 0)
                           (List.concat (map snd DoubleQubit.groups)))).
Proof.
  apply (proj2 (warnings_do_not_name_the_setting no_text (table2 no_HH))).
  vm_compute. discriminate.
Defined.

Lemma averages_witness :
  exists m,
    average (series (data (run_trace DoubleQubit.repetition one_sample_trace) "HH") Ch1)
      = Some m /\
    inject_Z 0 <= m /\ m <= inject_Z 10.
Proof.
  destruct (averages_of_recorded_series one_sample_trace "HH" Ch1 0 10
              DoubleQubit.repetition (or_introl eq_refl)) as [m [E [_ B]]].
  exists m. split; [exact E |]. apply B.
  - discriminate.
  - intros s [H | []]. inversion H; subst. simpl. lia.
Defined.

Lemma time_left_witness :
  let eta := eta_seconds 100 36 35 400 0 in
  let '(h, m, s) := hms eta in
  (0 <= eta)%Z /\
  eta = (3600 * h + 60 * m + s)%Z /\
  (0 <= h)%Z /\ (0 <= m < 60)%Z /\ (0 <= s < 60)%Z.
Proof.
  apply (time_left_is_well_formed 100 36 35 400 0).
  - lia.
  - lia.
  - discriminate.
Defined.

Section Witnesses64More.
Import Binary64.



End Witnesses64More.
